(** * Suroi packet codec: math-challenge, feedback and join packets,
      and the server's math problem manager.

    A shallow embedding of the packet definitions [MathProblemPacket],
    [MathAnswerPacket], [MathFeedbackPacket] and [JoinPacket] of the
    common package, and of the class [MathProblemManager] of
    server/src/mathProblemManager.ts; then of the server's TimeBack
    client ([ServerTimeBackAPI]), of [createUser] of the client's one
    and of the callbacks of the client's [SuroiAuthManager].

    The packets are sequences of calls on a byte stream.  The stream
    class, the definition registries, the game constants and the
    function [random] live in other files of the repository; the
    stream and the registry codec are modelled from the written
    specification, the contents of the registries, the constants and
    the random generator are taken as variables.

    Conventions of the embedding:
      - a JS [number] carried by a packet is an integer, a [Z];
      - a JS string is the sequence of its bytes (its UTF-8 encoding),
        a [string] of the standard library, whose characters are 8-bit;
      - an optional field ([x?: T]) is an [option T], [None] standing
        for [undefined];
      - a thrown exception is the [Err] case of [result]. *)

From Stdlib.Strings Require Import String Ascii Byte.
From Stdlib Require Import ZArith NArith List Bool Lia DecimalString.
From Stdlib Require QArith Qround.
From stdpp Require gmap.
Import ListNotations.

#[local] Open Scope Z_scope.

(** ** Errors and the stream monad *)

(** The four errors of the specification's taxonomy.  [NotInRegistry]
    is the answer of the registry encoder for a definition that is not
    a member of the registry, a case the specification excludes by its
    data model (every definition belongs to its registry). *)
Inductive CodecError : Type :=
| CapacityExceeded
| Truncated
| UnknownDiscriminant
| RegistryIndexOutOfRange
| NotInRegistry.

Inductive result (A : Type) : Type :=
| OK (a : A)
| Err (e : CodecError).

Arguments OK {A} a.
Arguments Err {A} e.

(** Modelled from the spec: the stream class, which is not among the
    sources, is a cursor over a byte buffer of fixed capacity.
    [buffer] has the capacity as its length, [index] is the byte
    offset.  The sub-byte offset of the specification is used only
    inside a boolean group and is zero again when the group is done;
    a group is one operation here, so the offset is not stored. *)
Record Stream : Type := mkStream {
  buffer : list byte;
  index : nat
}.

(** An operation on a stream: it fails, or returns a value and the
    stream with its cursor advanced. *)
Definition M (A : Type) : Type := Stream -> result (A * Stream).

Definition ret {A : Type} (a : A) : M A := fun s => OK (a, s).

Definition bind {A B : Type} (m : M A) (k : A -> M B) : M B :=
  fun s => match m s with
           | OK (a, s') => k a s'
           | Err e => Err e
           end.

Definition throw {A : Type} (e : CodecError) : M A := fun _ => Err e.

Notation "x <- m ;; k" := (bind m (fun x => k))
  (at level 62, m at next level, right associativity).
Notation "m ;;; k" := (bind m (fun _ => k))
  (at level 62, right associativity).

(** [isSome o]: the test [o !== undefined]. *)
Definition isSome {A : Type} (o : option A) : bool :=
  match o with
  | Some _ => true
  | None => false
  end.

(** [whenSome o f]: [if (o !== undefined) { f(o) }]. *)
Definition whenSome {A : Type} (o : option A) (f : A -> M unit) : M unit :=
  match o with
  | Some a => f a
  | None => ret tt
  end.

(** [readIf c m]: [if (c) { x = m() }], [x] staying undefined
    otherwise. *)
Definition readIf {A : Type} (c : bool) (m : M A) : M (option A) :=
  if c then (a <- m ;; ret (Some a)) else ret None.

(** A fresh stream over a zeroed buffer of [capacity] bytes. *)
Definition alloc (capacity : nat) : Stream :=
  {| buffer := repeat x00 capacity; index := 0 |}.

(** The bytes written so far: what is handed to the transport. *)
Definition written (s : Stream) : list byte := firstn (index s) (buffer s).

(** The bytes not read yet. *)
Definition remaining (s : Stream) : list byte := skipn (index s) (buffer s).

(** The receiving side's stream over a received byte sequence. *)
Definition fromBytes (bs : list byte) : Stream :=
  {| buffer := bs; index := 0 |}.

(** ** Byte-level primitives *)

(** Modelled from the spec: the write of some bytes at the cursor, on
    which every write of the stream class rests; it fails with
    CapacityExceeded when the buffer cannot hold the bytes, and then
    changes nothing. *)
Definition writeBytes (bs : list byte) : M unit := fun s =>
  if (index s + length bs <=? length (buffer s))%nat
  then OK (tt, {| buffer := firstn (index s) (buffer s) ++ bs
                              ++ skipn (index s + length bs) (buffer s);
                  index := (index s + length bs)%nat |})
  else Err CapacityExceeded.

(** Modelled from the spec: the read of [n] bytes at the cursor, on
    which every read of the stream class rests; it fails with
    Truncated when fewer bytes remain than required. *)
Definition readBytes (n : nat) : M (list byte) := fun s =>
  if (index s + n <=? length (buffer s))%nat
  then OK (firstn n (skipn (index s) (buffer s)),
           {| buffer := buffer s; index := (index s + n)%nat |})
  else Err Truncated.

Definition byte_of_Z (v : Z) : byte :=
  match Byte.of_N (Z.to_N (v mod 256)) with
  | Some b => b
  | None => x00
  end.

Definition Z_of_byte (b : byte) : Z := Z.of_N (Byte.to_N b).

(** Modelled from the spec: the bytes of a fixed-width integer of the
    stream class, big-endian (the convention chosen for the whole
    system); a value outside the width wraps around, as a typed-array
    store does. *)
Fixpoint encodeBE (width : nat) (v : Z) : list byte :=
  match width with
  | O => []
  | S w => byte_of_Z (v / 256 ^ Z.of_nat w) :: encodeBE w v
  end.

(** Modelled from the spec: the unsigned integer of a big-endian
    sequence of bytes. *)
Definition decodeBE (bs : list byte) : Z :=
  fold_left (fun acc b => acc * 256 + Z_of_byte b) bs 0.

(** Modelled from the spec: [writeUint8], [writeUint16] and
    [writeUint32] of the stream class, as one writer of [width]
    bytes. *)
Definition writeUintN (width : nat) (v : Z) : M unit :=
  writeBytes (encodeBE width v).

(** Modelled from the spec: [readUint8], [readUint16] and
    [readUint32] of the stream class, as one reader of [width]
    bytes. *)
Definition readUintN (width : nat) : M Z :=
  bs <- readBytes width ;; ret (decodeBE bs).

Definition writeUint8 : Z -> M unit := writeUintN 1.
Definition writeUint16 : Z -> M unit := writeUintN 2.
Definition writeUint32 : Z -> M unit := writeUintN 4.
Definition readUint8 : M Z := readUintN 1.
Definition readUint16 : M Z := readUintN 2.
Definition readUint32 : M Z := readUintN 4.

(** Modelled from the spec: [writeInt16] and [readInt16] of the
    stream class, signed 16-bit integers in two's complement. *)
Definition writeInt16 : Z -> M unit := writeUintN 2.
Definition readInt16 : M Z :=
  u <- readUintN 2 ;; ret (if u <? 32768 then u else u - 65536).

(** Modelled from the spec: the number of bits of an index into
    [count] values, [ceil(log2 count)] and at least one. *)
Definition bitsFor (count : Z) : Z := Z.max 1 (Z.log2_up count).

(** Modelled from the spec: the width in bytes of such an index, its
    bits rounded up to a width the stream has (8, 16 or 32 bits). *)
Definition widthFor (count : Z) : nat :=
  if bitsFor count <=? 8 then 1%nat
  else if bitsFor count <=? 16 then 2%nat
  else 4%nat.

(** Modelled from the spec: [writeString(maxLength, s)] writes a length
    of a width sufficient for [maxLength], then at most [maxLength] raw
    bytes of [s], longer input being cut silently; the whole write is
    one operation.  [readString(maxLength)] reads the declared length
    and that many bytes. *)
Definition writeString (maxLength : nat) (s : string) : M unit :=
  let bs := firstn maxLength (list_byte_of_string s) in
  writeBytes (encodeBE (widthFor (Z.of_nat maxLength + 1))
                       (Z.of_nat (length bs)) ++ bs).

(** Modelled from the spec: [readString(maxLength)] of the stream
    class, see [writeString]. *)
Definition readString (maxLength : nat) : M string :=
  len <- readUintN (widthFor (Z.of_nat maxLength + 1)) ;;
  bs <- readBytes (Z.to_nat len) ;;
  ret (string_of_list_byte bs).

(** ** Boolean groups *)

(** Modelled from the spec: the flags of a group are packed in call
    order; the bit order fixed here is least-significant first (flag
    [k] is bit [k]).  A flag that is not passed is false. *)
Fixpoint packBits (flags : list bool) : Z :=
  match flags with
  | [] => 0
  | b :: r => Z.b2z b + 2 * packBits r
  end.

(** Modelled from the spec: the first [n] flags packed in [v], in
    order. *)
Definition unpackBits (n : nat) (v : Z) : list bool :=
  map (fun k => Z.testbit v (Z.of_nat k)) (seq 0 n).

(** Modelled from the spec: [writeBooleanGroup] of the stream class,
    at most 8 flags in one byte. *)
Definition writeBooleanGroup (flags : list bool) : M unit :=
  writeUint8 (packBits (firstn 8 flags)).

(** Modelled from the spec: [readBooleanGroup] of the stream class,
    the 8 flags of one byte. *)
Definition readBooleanGroup : M (list bool) :=
  v <- readUint8 ;; ret (unpackBits 8 v).

(** Modelled from the spec: [writeBooleanGroup2] of the stream class,
    at most 16 flags in two bytes. *)
Definition writeBooleanGroup2 (flags : list bool) : M unit :=
  writeUint16 (packBits (firstn 16 flags)).

(** Modelled from the spec: [readBooleanGroup2] of the stream class,
    the 16 flags of two bytes. *)
Definition readBooleanGroup2 : M (list bool) :=
  v <- readUint16 ;; ret (unpackBits 16 v).

(** [flags[k]] of an array destructuring, a missing element being
    falsy. *)
Definition flag (k : nat) (flags : list bool) : bool := nth k flags false.

(** ** Definition registries *)

(** Modelled from the spec: a definition is an immutable named
    record; of a definition the codec uses its name only. *)
Record ObjectDefinition : Type := mkDef { idString : string }.

(** Modelled from the spec: a registry is an ordered sequence of
    definitions, fixed when the process starts. *)
Definition Registry : Type := list ObjectDefinition.

Definition def_eqb (a b : ObjectDefinition) : bool :=
  String.eqb (idString a) (idString b).

(** Modelled from the spec: the position of a definition in its
    registry. *)
Fixpoint indexOf (def : ObjectDefinition) (reg : Registry) : option nat :=
  match reg with
  | [] => None
  | d :: r => if def_eqb def d then Some 0%nat
              else option_map S (indexOf def r)
  end.

(** Modelled from the spec: the width in bytes of a position in
    [reg]. *)
Definition registryWidth (reg : Registry) : nat :=
  widthFor (Z.of_nat (length reg)).

(** Modelled from the spec: [writeToStream] of a registry writes the
    position of the definition in the registry's width. *)
Definition writeToStream (reg : Registry) (def : ObjectDefinition) : M unit :=
  match indexOf def reg with
  | Some i => writeUintN (registryWidth reg) (Z.of_nat i)
  | None => throw NotInRegistry
  end.

(** Modelled from the spec: [readFromStream] of a registry reads the
    registry's width and returns the definition at that position, a
    position at or beyond the size being RegistryIndexOutOfRange. *)
Definition readFromStream (reg : Registry) : M ObjectDefinition :=
  i <- readUintN (registryWidth reg) ;;
  match nth_error reg (Z.to_nat i) with
  | Some d => ret d
  | None => throw RegistryIndexOutOfRange
  end.

(** ** The math-challenge packets *)

Module MathProblemPacket.

Record MathProblemData : Type := mkData {
  problem : string;
  rewardType : string;
  rewardCount : Z;
  problemId : Z
}.

Definition serialize (data : MathProblemData) : M unit :=
  writeString 32 (problem data) ;;;
  writeString 32 (rewardType data) ;;;
  writeUint8 (rewardCount data) ;;;
  writeUint16 (problemId data).

Definition deserialize : M MathProblemData :=
  p <- readString 32 ;;
  r <- readString 32 ;;
  c <- readUint8 ;;
  i <- readUint16 ;;
  ret {| problem := p; rewardType := r; rewardCount := c; problemId := i |}.

End MathProblemPacket.

Module MathAnswerPacket.

Record MathAnswerData : Type := mkData {
  answer : Z;
  problemId : Z
}.

Definition serialize (data : MathAnswerData) : M unit :=
  writeInt16 (answer data) ;;;
  writeUint16 (problemId data).

Definition deserialize : M MathAnswerData :=
  a <- readInt16 ;;
  i <- readUint16 ;;
  ret {| answer := a; problemId := i |}.

End MathAnswerPacket.

Module MathFeedbackPacket.

Record MathFeedbackData : Type := mkData {
  isCorrect : bool;
  problemId : Z;
  xpEarned : option Z;
  totalXP : option Z
}.

Definition serialize (data : MathFeedbackData) : M unit :=
  let hasXpEarned := isSome (xpEarned data) in
  let hasTotalXP := isSome (totalXP data) in
  writeBooleanGroup [isCorrect data; hasXpEarned; hasTotalXP] ;;;
  writeUint16 (problemId data) ;;;
  whenSome (xpEarned data) writeUint16 ;;;
  whenSome (totalXP data) writeUint32.

Definition deserialize : M MathFeedbackData :=
  flags <- readBooleanGroup ;;
  let isCorrect := flag 0 flags in
  let hasXpEarned := flag 1 flags in
  let hasTotalXP := flag 2 flags in
  i <- readUint16 ;;
  x <- readIf hasXpEarned readUint16 ;;
  t <- readIf hasTotalXP readUint32 ;;
  ret {| isCorrect := isCorrect; problemId := i;
         xpEarned := x; totalXP := t |}.

End MathFeedbackPacket.

(** ** Sanitizing a display name *)

Module Sanitize.

#[local] Open Scope char_scope.

(** The rest of [s] after its first ['>'], when it has one. *)
Fixpoint afterGt (s : list ascii) : option (list ascii) :=
  match s with
  | [] => None
  | c :: r => if Ascii.eqb c ">" then Some r else afterGt r
  end.

(** A match of the regular expression [<[^>]+>] anchored at the start
    of [s]: a ['<'], one character or more other than ['>'] (as many
    as there are), and a ['>'].  The result is what follows the
    match. *)
Definition matchTag (s : list ascii) : option (list ascii) :=
  match s with
  | c :: d :: r =>
      if Ascii.eqb c "<" && negb (Ascii.eqb d ">") then afterGt r else None
  | _ => None
  end.

(** [s.split(/<[^>]+>/g)] joined again with nothing in between: the
    matches found from left to right are dropped, what lies between
    them is kept.  [n] bounds the number of steps; a step consumes a
    character at least, so the length of [s] is enough. *)
Fixpoint stripTagsFrom (n : nat) (s : list ascii) : list ascii :=
  match n with
  | O => s
  | S n' =>
      match matchTag s with
      | Some rest => stripTagsFrom n' rest
      | None =>
          match s with
          | [] => []
          | c :: r => c :: stripTagsFrom n' r
          end
      end
  end.

Definition stripTags (s : list ascii) : list ascii :=
  stripTagsFrom (length s) s.

(** The white space and line terminators that [String.prototype.trim]
    removes, each as its UTF-8 bytes: U+0009 to U+000D, U+0020,
    U+00A0, U+1680, U+2000 to U+200A, U+2028, U+2029, U+202F, U+205F,
    U+3000 and U+FEFF. *)
Definition whiteSpace : list (list ascii) :=
  [ ["009"]; ["010"]; ["011"]; ["012"]; ["013"]; ["032"];
    ["194"; "160"];
    ["225"; "154"; "128"];
    ["226"; "128"; "128"]; ["226"; "128"; "129"]; ["226"; "128"; "130"];
    ["226"; "128"; "131"]; ["226"; "128"; "132"]; ["226"; "128"; "133"];
    ["226"; "128"; "134"]; ["226"; "128"; "135"]; ["226"; "128"; "136"];
    ["226"; "128"; "137"]; ["226"; "128"; "138"];
    ["226"; "128"; "168"]; ["226"; "128"; "169"];
    ["226"; "128"; "175"];
    ["226"; "129"; "159"];
    ["227"; "128"; "128"];
    ["239"; "187"; "191"] ].

(** [stripPrefix p s]: [s] without its prefix [p], when [p] is one. *)
Fixpoint stripPrefix (p s : list ascii) : option (list ascii) :=
  match p, s with
  | [], _ => Some s
  | _ :: _, [] => None
  | a :: p', b :: s' => if Ascii.eqb a b then stripPrefix p' s' else None
  end.

(** [s] without the first of the [units] that is a prefix of it. *)
Fixpoint stripOne (units : list (list ascii)) (s : list ascii)
  : option (list ascii) :=
  match units with
  | [] => None
  | u :: us =>
      match stripPrefix u s with
      | Some r => Some r
      | None => stripOne us s
      end
  end.

Fixpoint trimFrom (units : list (list ascii)) (n : nat) (s : list ascii)
  : list ascii :=
  match n with
  | O => s
  | S n' =>
      match stripOne units s with
      | Some r => trimFrom units n' r
      | None => s
      end
  end.

Definition trimStart (s : list ascii) : list ascii :=
  trimFrom whiteSpace (length s) s.

Definition trimEnd (s : list ascii) : list ascii :=
  rev (trimFrom (map (@rev ascii) whiteSpace) (length s) (rev s)).

Definition trim (s : list ascii) : list ascii := trimEnd (trimStart s).

(** The name split at [/<[^>]+>/g], joined again and trimmed. *)
Definition sanitize (name : string) : string :=
  string_of_list_ascii (trim (stripTags (list_ascii_of_string name))).

End Sanitize.

(** ** The join packet *)

Module JoinPacket.

(** [JoinPacketCreation] is [JoinData] without its protocol version:
    [JoinData] is the pair of the version and of those fields. *)
Record JoinPacketCreation : Type := mkCreation {
  name : string;
  isMobile : bool;
  skin : ObjectDefinition;
  badge : option ObjectDefinition;
  emotes : list (option ObjectDefinition);
  authToken : option string;
  studentId : option string
}.

Record JoinData : Type := mkData {
  protocolVersion : Z;
  fields : JoinPacketCreation
}.

(** [a[i]] on an array with holes: undefined out of range. *)
Definition at_ {A : Type} (a : list (option A)) (i : nat) : option A :=
  nth i a None.

(** [a[i] = x] on an array of sufficient length. *)
Fixpoint setAt {A : Type} (i : nat) (x : A) (a : list A) : list A :=
  match a, i with
  | [], _ => []
  | _ :: r, O => x :: r
  | y :: r, S i' => y :: setAt i' x r
  end.

(** [for (const i of range) body(i)] *)
Fixpoint forEach {A : Type} (range : list A) (body : A -> M unit) : M unit :=
  match range with
  | [] => ret tt
  | i :: r => body i ;;; forEach r body
  end.

(** A loop that updates a local value. *)
Fixpoint foldLoop {A S : Type} (range : list A) (body : S -> A -> M S)
    (acc : S) : M S :=
  match range with
  | [] => ret acc
  | i :: r => acc' <- body acc i ;; foldLoop r body acc'
  end.

Section WithGameContent.

(** The registries the packet refers to and the constants of
    [GameConstants]: supplied by the game's content modules. *)
Variables Loots Badges Emotes : Registry.
Variable protocolVersionConstant : Z.
Variable nameMaxLength : nat.

(** Modelled from the spec: [writePlayerName] of the stream class; a
    display name is a bounded-length string field, of the bound
    [nameMaxLength] of the game constants. *)
Definition writePlayerName (name : string) : M unit :=
  writeString nameMaxLength name.

(** Modelled from the spec: [readPlayerName] of the stream class,
    see [writePlayerName]. *)
Definition readPlayerName : M string := readString nameMaxLength.

Definition serialize (data : JoinPacketCreation) : M unit :=
  let emotes := emotes data in
  let hasBadge := isSome (badge data) in
  let hasAuthToken := isSome (authToken data) in
  let hasStudentId := isSome (studentId data) in
  writeBooleanGroup2
    [ isMobile data; hasBadge; hasAuthToken; hasStudentId;
      isSome (at_ emotes 0); isSome (at_ emotes 1);
      isSome (at_ emotes 2); isSome (at_ emotes 3);
      isSome (at_ emotes 4); isSome (at_ emotes 5) ] ;;;
  writeUint16 protocolVersionConstant ;;;
  writePlayerName (name data) ;;;
  writeToStream Loots (skin data) ;;;
  whenSome (badge data) (writeToStream Badges) ;;;
  whenSome (authToken data) (writeString 256) ;;;
  whenSome (studentId data) (writeString 64) ;;;
  forEach (seq 0 6) (fun i =>
    whenSome (at_ emotes i) (writeToStream Emotes)).

Definition deserialize : M JoinData :=
  flags <- readBooleanGroup2 ;;
  let isMobile := flag 0 flags in
  let hasBadge := flag 1 flags in
  let hasAuthToken := flag 2 flags in
  let hasStudentId := flag 3 flags in
  let emoteFlags := skipn 4 flags in
  version <- readUint16 ;;
  rawName <- readPlayerName ;;
  let name := Sanitize.sanitize rawName in
  skin <- readFromStream Loots ;;
  badge <- readIf hasBadge (readFromStream Badges) ;;
  authToken <- readIf hasAuthToken (readString 256) ;;
  studentId <- readIf hasStudentId (readString 64) ;;
  emotes <- foldLoop (seq 0 6)
              (fun arr i =>
                 if flag i emoteFlags
                 then e <- readFromStream Emotes ;;
                      ret (setAt i (Some e) arr)
                 else ret arr)
              (repeat None 8) ;;
  ret {| protocolVersion := version;
         fields := {| name := name; isMobile := isMobile; skin := skin;
                      badge := badge; emotes := emotes;
                      authToken := authToken;
                      studentId := studentId |} |}.

End WithGameContent.

End JoinPacket.

(** ** The server's math problem manager *)

Module MathProblemManager.

Import stdpp.base stdpp.gmap stdpp.strings.
#[local] Open Scope string_scope.
#[local] Open Scope Z_scope.

Record MathProblem : Type := mkProblem {
  problem : string;
  answer : Z;
  rewardType : string;
  rewardCount : Z;
  problemId : Z
}.

(** The item collection of a player's inventory
    ([player.inventory.items]).  Its class is not among the sources
    and the specification leaves the inventory aside, so the
    collection is kept uninterpreted: [setCalls] are the calls of
    [setItem] made on it so far, each with its key and its amount,
    oldest first, and [answers] is the collection's own, unknown
    way of answering [getItem(key)] after given calls.  Nothing is
    assumed of [answers]. *)
Record ItemCollection : Type := mkItems {
  setCalls : list (string * Z);
  answers : list (string * Z) -> string -> Z
}.

(** What the manager uses of a player: its id, the item collection
    of its inventory, the flag [player.dirty.items], and the packets
    sent to it. *)
Record Player : Type := mkPlayer {
  id : Z;
  items : ItemCollection;
  dirtyItems : bool;
  sentPackets : list MathProblemPacket.MathProblemData
}.

Record Manager : Type := mkManager {
  activeProblem : gmap Z MathProblem;
  nextProblemId : Z
}.

(** [new MathProblemManager()]: no active problem, the first
    identifier is 1. *)
Definition newManager : Manager :=
  {| activeProblem := empty; nextProblemId := 1 |}.

Definition consumableItems : list string :=
  [ "gauze"; "medikit"; "cola"; "tablets";
    "12g"; "556mm"; "762mm"; "9mm";
    "frag_grenade"; "smoke_grenade" ].

(** The operator signs of the multiplication and of the division
    problems, with the spaces around them, as the bytes of the
    source file. *)
Definition timesSign : string :=
  string_of_list_byte [x20; xe0; xb8; xa3; xc2; x97; x20].
Definition divideSign : string :=
  string_of_list_byte [x20; xe0; xb8; xa3; xe0; xb8; x97; x20].

(** [`${n}`] for an integer. *)
Definition show (n : Z) : string :=
  DecimalString.NilZero.string_of_int (Z.to_int n).

(** The double nearest to an integer, ties going to the even
    significand: the integer itself up to 2^53 in magnitude, a
    multiple of the unit in the last place of its binade beyond. *)
Definition roundDouble (n : Z) : Z :=
  let m := Z.abs n in
  if m <=? 2 ^ 53 then n
  else
    let ulp := 2 ^ (Z.log2 m - 52) in
    let q := m / ulp in
    let r := m mod ulp in
    let q' := if 2 * r <? ulp then q
              else if ulp <? 2 * r then q + 1
              else if Z.even q then q else q + 1 in
    Z.sgn n * (q' * ulp).

(** [a + b] on the numbers of an inventory, which are doubles: the
    sum is rounded to the nearest double.  (The numbers of the
    problems and the counter of the manager stay far below 2^53,
    where sums are exact.) *)
Definition jsAdd (a b : Z) : Z := roundDouble (a + b).

Section WithRandom.

(** [random(min, max)] of the common utilities draws an integer
    between [min] and [max], both included.  The generator is a
    variable: [random] takes its state and returns the draw and the
    next state; that a draw lies within its bounds is a hypothesis
    of the statements that need it. *)
Variable Rng : Type.
Variable random : Z -> Z -> Rng -> Z * Rng.

(** The objects the manager's methods work on: the manager itself,
    the player passed to them, and the random generator. *)
Record World : Type := mkWorld {
  manager : Manager;
  player : Player;
  rng : Rng
}.

Definition W (A : Type) : Type := World -> A * World.

Definition wret {A : Type} (a : A) : W A := fun w => (a, w).

Definition wbind {A B : Type} (m : W A) (k : A -> W B) : W B :=
  fun w => let (a, w') := m w in k a w'.

Notation "x <~ m ;; k" := (wbind m (fun x => k))
  (at level 62, m at next level, right associativity).
Notation "m ~;; k" := (wbind m (fun _ => k))
  (at level 62, right associativity).

Definition rand (lo hi : Z) : W Z := fun w =>
  let (v, g) := random lo hi (rng w) in
  (v, {| manager := manager w; player := player w; rng := g |}).

Definition getManager : W Manager := fun w => (manager w, w).
Definition setManager (m : Manager) : W unit := fun w =>
  (tt, {| manager := m; player := player w; rng := rng w |}).
Definition getPlayer : W Player := fun w => (player w, w).
Definition setPlayer (p : Player) : W unit := fun w =>
  (tt, {| manager := manager w; player := p; rng := rng w |}).

(** [player.inventory.items.getItem(key)]: what the collection
    answers after the calls made on it. *)
Definition getItem (key : string) : W Z :=
  p <~ getPlayer ;; wret (answers (items p) (setCalls (items p)) key).

(** [player.inventory.items.setItem(key, amount)]: one more call on
    the collection. *)
Definition setItem (key : string) (amount : Z) : W unit :=
  p <~ getPlayer ;;
  setPlayer {| id := id p;
               items := {| setCalls :=
                             (setCalls (items p) ++ [(key, amount)])%list;
                           answers := answers (items p) |};
               dirtyItems := dirtyItems p;
               sentPackets := sentPackets p |}.

(** [player.dirty.items = b] *)
Definition setDirtyItems (b : bool) : W unit :=
  p <~ getPlayer ;;
  setPlayer {| id := id p; items := items p; dirtyItems := b;
               sentPackets := sentPackets p |}.

(** [player.sendPacket(player.game.mathProblemPacket.create(d))] *)
Definition sendPacket (d : MathProblemPacket.MathProblemData) : W unit :=
  p <~ getPlayer ;;
  setPlayer {| id := id p; items := items p; dirtyItems := dirtyItems p;
               sentPackets := (sentPackets p ++ [d])%list |}.

Definition getRewardCount (itemType : string) : W Z :=
  if String.eqb itemType "gauze" then rand 2 5
  else if String.eqb itemType "medikit" then wret 1
  else if String.eqb itemType "cola" then wret 1
  else if String.eqb itemType "tablets" then wret 1
  else if String.eqb itemType "12g" then rand 5 15
  else if String.eqb itemType "556mm" || String.eqb itemType "762mm"
          || String.eqb itemType "9mm" then rand 10 30
  else if String.eqb itemType "frag_grenade"
          || String.eqb itemType "smoke_grenade" then rand 1 2
  else wret 1.

Definition generateProblem : W MathProblem :=
  num1 <~ rand 1 9 ;;
  num2 <~ rand 1 9 ;;
  operation <~ rand 0 3 ;;
  pa <~ match operation with
        | 0 => wret (show num1 ++ " + " ++ show num2, num1 + num2)
        | 1 =>
            let (larger, smaller) :=
              if num1 >=? num2 then (num1, num2) else (num2, num1) in
            wret (show larger ++ " - " ++ show smaller, larger - smaller)
        | 2 => wret (show num1 ++ timesSign ++ show num2, num1 * num2)
        | 3 =>
            result <~ rand 1 9 ;;
            divisor <~ rand 1 9 ;;
            let dividend := result * divisor in
            wret (show dividend ++ divideSign ++ show divisor, result)
        | _ => wret (show num1 ++ " + " ++ show num2, num1 + num2)
        end ;;
  k <~ rand 0 (Z.of_nat (length consumableItems) - 1) ;;
  let rewardType := nth (Z.to_nat k) consumableItems EmptyString in
  rewardCount <~ getRewardCount rewardType ;;
  m <~ getManager ;;
  let problemId := nextProblemId m in
  let mathProblem :=
    {| problem := fst pa; answer := snd pa; rewardType := rewardType;
       rewardCount := rewardCount; problemId := problemId |} in
  p <~ getPlayer ;;
  setManager {| activeProblem := <[id p := mathProblem]> (activeProblem m);
                nextProblemId := nextProblemId m + 1 |} ~;;
  wret mathProblem.

Definition validateAnswer (answer' problemId' : Z) : W bool :=
  m <~ getManager ;;
  p <~ getPlayer ;;
  match activeProblem m !! id p with
  | None => wret false
  | Some active =>
      if negb (problemId active =? problemId') then wret false
      else
        let isCorrect := answer active =? answer' in
        (if isCorrect then
           currentAmount <~ getItem (rewardType active) ;;
           setItem (rewardType active)
                   (jsAdd currentAmount (rewardCount active)) ~;;
           setDirtyItems true ~;;
           m' <~ getManager ;;
           setManager {| activeProblem := delete (id p) (activeProblem m');
                         nextProblemId := nextProblemId m' |} ~;;
           newProblem <~ generateProblem ;;
           sendPacket
             {| MathProblemPacket.problem := problem newProblem;
                MathProblemPacket.rewardType := rewardType newProblem;
                MathProblemPacket.rewardCount := rewardCount newProblem;
                MathProblemPacket.problemId := problemId newProblem |}
         else wret tt) ~;;
        wret isCorrect
  end.

Definition getCurrentProblem : W (option MathProblem) :=
  m <~ getManager ;;
  p <~ getPlayer ;;
  wret (activeProblem m !! id p).

Definition removeProblem : W unit :=
  m <~ getManager ;;
  p <~ getPlayer ;;
  setManager {| activeProblem := delete (id p) (activeProblem m);
                nextProblemId := nextProblemId m |}.

Definition initializeProblem : W unit :=
  problem' <~ generateProblem ;;
  sendPacket
    {| MathProblemPacket.problem := problem problem';
       MathProblemPacket.rewardType := rewardType problem';
       MathProblemPacket.rewardCount := rewardCount problem';
       MathProblemPacket.problemId := problemId problem' |}.

End WithRandom.

(** The list of the static method [isConsumable]. *)
Definition consumables : list string :=
  [ "gauze"; "medikit"; "cola"; "tablets"; "vaccine_syringe";
    "12g"; "556mm"; "762mm"; "9mm"; "50cal"; "338lap"; "545mm";
    "firework_rocket";
    "frag_grenade"; "smoke_grenade"; "confetti_grenade"; "c4"; "flare";
    "proj_seed" ].

(** [consumables.includes(itemId)] *)
Definition isConsumable (itemId : string) : bool :=
  existsb (String.eqb itemId) consumables.

End MathProblemManager.

(** ** The server's TimeBack client *)

Module ServerTimeBackAPI.

#[local] Open Scope string_scope.
#[local] Open Scope Z_scope.

(** [`${s}`] for a string that may be undefined. *)
Definition str (o : option string) : string :=
  match o with
  | Some s => s
  | None => "undefined"
  end.

(** The truth value of a string that may be undefined: undefined and
    the empty string are falsy. *)
Definition truthy (o : option string) : bool :=
  match o with
  | Some s => negb (String.eqb s EmptyString)
  | None => false
  end.

(** The argument [problemData] of [submitMathProblemResult]. *)
Module ProblemData.
Record t : Type := mk {
  problem : string;
  correctAnswer : Z;
  userAnswer : Z;
  isCorrect : bool;
  operation : string;
  responseTime : option Z;
  rewardType : string;
  rewardCount : Z
}.
End ProblemData.

(** What the client uses of a player: its name and credentials, the
    number of players alive and the stage of the gas of its game
    ([player.game.aliveCount], [player.game.gas.stage]), its health
    and the time it joined. *)
Record Player : Type := mkPlayer {
  name : string;
  authToken : option string;
  studentId : option string;
  aliveCount : Z;
  gasStage : Z;
  health : QArith_base.Q;
  joinTime : Z
}.

Module GameContext.
Record t : Type := mk {
  playersAlive : Z;
  gamePhase : string;
  playerHealth : QArith_base.Q;
  survivalTime : Z
}.
End GameContext.

(** The field [metadata] of [ServerAssessmentResult]. *)
Module Metadata.
Record t : Type := mk {
  gameType : string;
  mathOperation : string;
  problem : string;
  correctAnswer : Z;
  userAnswer : Z;
  rewardType : string;
  rewardCount : Z;
  accuracy : Z;
  responseTime : option Z;
  attempts : Z;
  xp : Z;
  multiplier : QArith_base.Q;
  baseXP : Z;
  playersAlive : Z;
  gamePhase : string;
  playerHealth : QArith_base.Q;
  survivalTime : Z
}.
End Metadata.

(** [ServerAssessmentResult]; [lineItem] and [student] are objects
    of the single field [sourcedId], given here by that field, which
    for [student] is the identifier of the player as it is. *)
Module AssessmentResult.
Record t : Type := mk {
  sourcedId : string;
  status : string;
  dateLastModified : string;
  lineItem : string;
  student : option string;
  scoreStatus : string;
  score : Z;
  scoreDate : string;
  comment : option string;
  metadata : option Metadata.t
}.
End AssessmentResult.

(** The field [extensions] of the Caliper event of a solved
    problem. *)
Module Extensions.
Record t : Type := mk {
  mathOperation : string;
  problem : string;
  correctAnswer : Z;
  userAnswer : Z;
  isCorrect : bool;
  xpEarned : Z;
  rewardType : string;
  gameContext : string;
  playersAlive : Z;
  playerHealth : QArith_base.Q;
  survivalTime : Z
}.
End Extensions.

(** The Caliper event; [actor], [object] and [edApp] are objects of
    the fields [id] and [type]. *)
Module CaliperEvent.
Record t : Type := mk {
  context : string;
  type : string;
  id : string;
  actorId : string;
  actorType : string;
  action : string;
  objectId : string;
  objectType : string;
  eventTime : string;
  edAppId : string;
  edAppType : string;
  extensions : Extensions.t
}.
End CaliperEvent.

(** The value given to [JSON.stringify] for the body of a
    request. *)
Inductive Body : Type :=
| AssessmentBody (assessmentResult : AssessmentResult.t)
| EventBody (event : CaliperEvent.t).

(** A call of [fetch]: the address, the method, the two headers and
    the body. *)
Module Request.
Record t : Type := mk {
  url : string;
  method : string;
  authorization : string;
  contentType : string;
  body : Body
}.
End Request.

(** What awaiting [fetch] gives: a response, of which the client
    reads [ok], [status] and [statusText], or an exception. *)
Inductive FetchResult : Type :=
| Resolved (ok : bool) (status : Z) (statusText : string)
| Rejected.

(** The two addresses of an instance. *)
Record API : Type := mkAPI {
  baseUrl : string;
  caliperUrl : string
}.

Inductive Environment : Type := staging | production.

(** [new ServerTimeBackAPI(environment)] *)
Definition new (environment : Environment) : API :=
  {| baseUrl := match environment with
                | production => "https://api.alpha-1edtech.com"
                | staging => "https://api.staging.alpha-1edtech.com"
                end;
     caliperUrl := match environment with
                   | production => "https://caliper.alpha-1edtech.com"
                   | staging => "https://caliper-staging.alpha-1edtech.com"
                   end |}.

(** The exported instance, of the default environment. *)
Definition serverTimeBackAPI : API := new staging.

(** [getGamePhase], from the stage of the gas. *)
Definition getGamePhase (player : Player) : string :=
  if gasStage player =? 0 then "early_game"
  else if gasStage player <=? 3 then "mid_game"
  else if gasStage player <=? 6 then "late_game"
  else "final_circle".

Section WithOutside.

(** The outside of the server: the network behind [fetch], the clock
    and the random source.  [Outside] is its state; each of the
    functions below takes the state and returns its answer and the
    next state.  [randomPart] is
    [Math.random().toString(36).substring(2, 15)], [dateNow] is
    [Date.now()], [isoNow] is [new Date().toISOString()].
    [toLowerCase] is the method of strings.  What the methods write
    on the console is not part of the embedding. *)
Variable Outside : Type.
Variable fetch : Request.t -> Outside -> FetchResult * Outside.
Variable randomPart : Outside -> string * Outside.
Variable dateNow : Outside -> Z * Outside.
Variable isoNow : Outside -> string * Outside.
Variable toLowerCase : string -> string.

(** The outside and the requests made so far, oldest first. *)
Record World : Type := mkWorld {
  outside : Outside;
  requests : list Request.t
}.

Definition T (A : Type) : Type := World -> A * World.

Definition tret {A : Type} (a : A) : T A := fun w => (a, w).

Definition tbind {A B : Type} (m : T A) (k : A -> T B) : T B :=
  fun w => let (a, w') := m w in k a w'.

Notation "x <~ m ;; k" := (tbind m (fun x => k))
  (at level 62, m at next level, right associativity).
Notation "m ~;; k" := (tbind m (fun _ => k))
  (at level 62, right associativity).

Definition ask {A : Type} (f : Outside -> A * Outside) : T A := fun w =>
  let (a, o) := f (outside w) in
  (a, {| outside := o; requests := requests w |}).

(** [await fetch(url, { method, headers, body })] *)
Definition doFetch (request : Request.t) : T FetchResult := fun w =>
  let (r, o) := fetch request (outside w) in
  (r, {| outside := o; requests := (requests w ++ [request])%list |}).

Definition generateId : T string :=
  a <~ ask randomPart ;;
  b <~ ask randomPart ;;
  tret (a ++ b).

Definition trackMathProblemEvent (api : API) (player : Player)
    (problemData : ProblemData.t) (xpAwarded : Z)
    (gameContext : GameContext.t) : T unit :=
  if negb (truthy (authToken player)) || negb (truthy (studentId player))
  then tret tt
  else
    id <~ generateId ;;
    now <~ ask dateNow ;;
    eventTime <~ ask isoNow ;;
    let event :=
      {| CaliperEvent.context := "http://purl.imsglobal.org/ctx/caliper/v1p2";
         CaliperEvent.type := "AssessmentEvent";
         CaliperEvent.id := id;
         CaliperEvent.actorId := "urn:user:" ++ str (studentId player);
         CaliperEvent.actorType := "Person";
         CaliperEvent.action :=
           if ProblemData.isCorrect problemData then "Completed"
           else "Submitted";
         CaliperEvent.objectId :=
           "urn:assessment:suroi-math-" ++ MathProblemManager.show now;
         CaliperEvent.objectType := "Assessment";
         CaliperEvent.eventTime := eventTime;
         CaliperEvent.edAppId := "urn:app:suroi-battle-royale";
         CaliperEvent.edAppType := "SoftwareApplication";
         CaliperEvent.extensions :=
           {| Extensions.mathOperation := ProblemData.operation problemData;
              Extensions.problem := ProblemData.problem problemData;
              Extensions.correctAnswer :=
                ProblemData.correctAnswer problemData;
              Extensions.userAnswer := ProblemData.userAnswer problemData;
              Extensions.isCorrect := ProblemData.isCorrect problemData;
              Extensions.xpEarned := xpAwarded;
              Extensions.rewardType := ProblemData.rewardType problemData;
              Extensions.gameContext := "battle_royale";
              Extensions.playersAlive := GameContext.playersAlive gameContext;
              Extensions.playerHealth := GameContext.playerHealth gameContext;
              Extensions.survivalTime :=
                GameContext.survivalTime gameContext |} |} in
    (* the response is only reported on the console, an exception is
       caught and dropped *)
    doFetch {| Request.url := caliperUrl api ++ "/events";
               Request.method := "POST";
               Request.authorization := "Bearer " ++ str (authToken player);
               Request.contentType := "application/json";
               Request.body := EventBody event |} ~;;
    tret tt.

Definition submitMathProblemResult (api : API) (player : Player)
    (problemData : ProblemData.t) : T Z :=
  let authToken := authToken player in
  let studentId := studentId player in
  if negb (truthy authToken) || negb (truthy studentId) then tret 0
  else
    let baseXP := 5 in
    let attemptNumber := 1 in
    let multiplier :=
      if attemptNumber =? 1
      then (if ProblemData.isCorrect problemData
            then QArith_base.Qmake 5 4 else QArith_base.Qmake 0 1)
      else (if ProblemData.isCorrect problemData
            then QArith_base.Qmake 1 2 else QArith_base.Qmake 0 1) in
    let xpAwarded :=
      Qround.Qfloor
        (QArith_base.Qmult (QArith_base.inject_Z baseXP) multiplier) in
    now <~ ask dateNow ;;
    let gameContext :=
      {| GameContext.playersAlive := aliveCount player;
         GameContext.gamePhase := getGamePhase player;
         GameContext.playerHealth := health player;
         GameContext.survivalTime := now - joinTime player |} in
    sourcedId <~ generateId ;;
    dateLastModified <~ ask isoNow ;;
    scoreDate <~ ask isoNow ;;
    let assessmentResult :=
      {| AssessmentResult.sourcedId := sourcedId;
         AssessmentResult.status := "active";
         AssessmentResult.dateLastModified := dateLastModified;
         AssessmentResult.lineItem :=
           "suroi-math-" ++ toLowerCase (ProblemData.operation problemData);
         AssessmentResult.student := studentId;
         AssessmentResult.scoreStatus := "fullyGraded";
         AssessmentResult.score :=
           if ProblemData.isCorrect problemData then 100 else 0;
         AssessmentResult.scoreDate := scoreDate;
         AssessmentResult.comment :=
           Some ("Suroi math problem: " ++ ProblemData.problem problemData
                 ++ " = "
                 ++ MathProblemManager.show
                      (ProblemData.correctAnswer problemData));
         AssessmentResult.metadata :=
           Some {| Metadata.gameType := "suroi_battle_royale";
                   Metadata.mathOperation := ProblemData.operation problemData;
                   Metadata.problem := ProblemData.problem problemData;
                   Metadata.correctAnswer :=
                     ProblemData.correctAnswer problemData;
                   Metadata.userAnswer := ProblemData.userAnswer problemData;
                   Metadata.rewardType := ProblemData.rewardType problemData;
                   Metadata.rewardCount := ProblemData.rewardCount problemData;
                   Metadata.accuracy :=
                     if ProblemData.isCorrect problemData then 100 else 0;
                   Metadata.responseTime :=
                     ProblemData.responseTime problemData;
                   Metadata.attempts := attemptNumber;
                   Metadata.xp := xpAwarded;
                   Metadata.multiplier := multiplier;
                   Metadata.baseXP := baseXP;
                   Metadata.playersAlive :=
                     GameContext.playersAlive gameContext;
                   Metadata.gamePhase := GameContext.gamePhase gameContext;
                   Metadata.playerHealth :=
                     GameContext.playerHealth gameContext;
                   Metadata.survivalTime :=
                     GameContext.survivalTime gameContext |} |} in
    response <~ doFetch
      {| Request.url :=
           baseUrl api ++ "/ims/oneroster/gradebook/v1p2/assessmentResults";
         Request.method := "POST";
         Request.authorization := "Bearer " ++ str authToken;
         Request.contentType := "application/json";
         Request.body := AssessmentBody assessmentResult |} ;;
    match response with
    | Resolved ok _ _ =>
        if negb ok then tret xpAwarded
        else
          trackMathProblemEvent api player problemData xpAwarded
                                gameContext ~;;
          tret xpAwarded
    | Rejected => tret xpAwarded
    end.

End WithOutside.

End ServerTimeBackAPI.

(** ** The client's TimeBack user and authentication manager *)

Module SuroiTimeBackAPI.

#[local] Open Scope string_scope.

(** [a || b] for a string [a] that may be undefined: [b] when [a] is
    undefined or empty. *)
Definition orElse (a : option string) (b : string) : string :=
  match a with
  | Some s => if String.eqb s EmptyString then b else s
  | None => b
  end.

(** What [createUser] reads of the profile of an OIDC user. *)
Record Profile : Type := mkProfile {
  sub : string;
  email : option string;
  given_name : option string;
  family_name : option string
}.

(** What the client reads of an OIDC user; [createUser] takes any
    value and allows for a missing profile. *)
Record User : Type := mkUser {
  profile : option Profile;
  access_token : string;
  expired : bool
}.

Module SuroiTimeBackUser.
Record t : Type := mk {
  sourcedId : string;
  username : string;
  givenName : string;
  familyName : string;
  email : option string;
  role : string
}.
End SuroiTimeBackUser.

(** [createUser(authData)], [None] standing for [null] on both
    sides. *)
Definition createUser (authData : option User)
  : option SuroiTimeBackUser.t :=
  match authData with
  | None => None
  | Some authData =>
      match profile authData with
      | None => None
      | Some profile =>
          Some {| SuroiTimeBackUser.sourcedId := sub profile;
                  SuroiTimeBackUser.username :=
                    orElse (email profile) (sub profile);
                  SuroiTimeBackUser.givenName :=
                    orElse (given_name profile) "Player";
                  SuroiTimeBackUser.familyName :=
                    orElse (family_name profile) EmptyString;
                  SuroiTimeBackUser.email :=
                    Some (orElse (email profile) EmptyString);
                  SuroiTimeBackUser.role := "student" |}
      end
  end.

End SuroiTimeBackAPI.

Module SuroiAuthManager.

Import SuroiTimeBackAPI.
#[local] Open Scope Z_scope.

(** A callback is known by its identity.  A call of a callback is
    recorded with its argument; the callbacks are observers, they do
    not call the manager back. *)
Definition Callback : Type := nat.

(** The manager, the access token of the API instance it sets
    ([None] for the [null] of a new instance), and the calls of
    callbacks made so far, oldest first. *)
Record State : Type := mkState {
  currentUser : option SuroiTimeBackUser.t;
  authCallbacks : list Callback;
  accessToken : option string;
  calls : list (Callback * option SuroiTimeBackUser.t)
}.

(** A new manager beside a new API instance. *)
Definition new : State :=
  {| currentUser := None; authCallbacks := []; accessToken := None;
     calls := [] |}.

(** The calls of [callbacks.forEach(callback => callback(user))]. *)
Definition notifyAll (callbacks : list Callback)
    (user : option SuroiTimeBackUser.t)
  : list (Callback * option SuroiTimeBackUser.t) :=
  map (fun callback => (callback, user)) callbacks.

(** [this.currentUser = user] *)
Definition setCurrentUser (user : option SuroiTimeBackUser.t) (st : State)
  : State :=
  {| currentUser := user; authCallbacks := authCallbacks st;
     accessToken := accessToken st; calls := calls st |}.

(** [suroiTimeBackAPI.setAccessToken(token)] *)
Definition setAccessToken (token : string) (st : State) : State :=
  {| currentUser := currentUser st; authCallbacks := authCallbacks st;
     accessToken := Some token; calls := calls st |}.

(** [this.authCallbacks.forEach(callback => callback(user))] *)
Definition forEachCallback (user : option SuroiTimeBackUser.t) (st : State)
  : State :=
  {| currentUser := currentUser st; authCallbacks := authCallbacks st;
     accessToken := accessToken st;
     calls := calls st ++ notifyAll (authCallbacks st) user |}.

Definition handleUserAuthenticated (user : User) (st : State) : State :=
  let st := setCurrentUser (createUser (Some user)) st in
  let st := setAccessToken (access_token user) st in
  forEachCallback (currentUser st) st.

Definition handleUserSignedOut (st : State) : State :=
  let st := setCurrentUser None st in
  let st := setAccessToken EmptyString st in
  forEachCallback None st.

Definition getCurrentUser (st : State) : option SuroiTimeBackUser.t :=
  currentUser st.

Definition onAuthStateChanged (callback : Callback) (st : State) : State :=
  {| currentUser := currentUser st;
     authCallbacks := authCallbacks st ++ [callback];
     accessToken := accessToken st;
     calls := calls st ++ [(callback, currentUser st)] |}.

(** [array.indexOf(x)]: the first position of [x], or -1. *)
Fixpoint indexOf (x : Callback) (array : list Callback) : Z :=
  match array with
  | [] => -1
  | y :: r =>
      if Nat.eqb y x then 0
      else let i := indexOf x r in if i >? -1 then i + 1 else -1
  end.

(** [array.splice(index, 1)] for an index that is not negative. *)
Definition splice1 {A : Type} (index : Z) (array : list A) : list A :=
  firstn (Z.to_nat index) array ++ skipn (Z.to_nat index + 1) array.

Definition removeAuthStateCallback (callback : Callback) (st : State)
  : State :=
  let index := indexOf callback (authCallbacks st) in
  if index >? -1
  then {| currentUser := currentUser st;
          authCallbacks := splice1 index (authCallbacks st);
          accessToken := accessToken st;
          calls := calls st |}
  else st.

End SuroiAuthManager.

(** ** Vocabulary of the statements *)

(** The cursor of a stream lies within its buffer. *)
Definition wf (s : Stream) : Prop := (index s <= length (buffer s))%nat.

(** [writes m bs]: on every stream, [m] appends exactly the bytes [bs]
    at the cursor when they fit in the buffer, and fails with
    CapacityExceeded when they do not. *)
Definition writes (m : M unit) (bs : list byte) : Prop :=
  forall s, wf s ->
    if (index s + length bs <=? length (buffer s))%nat
    then exists s', m s = OK (tt, s')
                    /\ written s' = written s ++ bs
                    /\ length (buffer s') = length (buffer s)
                    /\ index s' = (index s + length bs)%nat
    else m s = Err CapacityExceeded.

(** [reads m bs a]: on every stream whose unread bytes start with
    [bs], [m] returns [a] and moves the cursor past [bs], reading
    nothing else. *)
Definition reads {A : Type} (m : M A) (bs : list byte) (a : A) : Prop :=
  forall s rest, wf s -> remaining s = bs ++ rest ->
    exists s', m s = OK (a, s')
               /\ buffer s' = buffer s
               /\ index s' = (index s + length bs)%nat.

(** The bytes of a string field: its length, then its bytes cut at
    [maxLength]. *)
Definition cut (maxLength : nat) (s : string) : list byte :=
  firstn maxLength (list_byte_of_string s).

Definition encString (maxLength : nat) (s : string) : list byte :=
  encodeBE (widthFor (Z.of_nat maxLength + 1)) (Z.of_nat (length (cut maxLength s)))
  ++ cut maxLength s.

(** What a string field decodes to: the string of its first
    [maxLength] bytes. *)
Definition truncate (maxLength : nat) (s : string) : string :=
  string_of_list_byte (cut maxLength s).

(** The bytes of an optional field: nothing when it is absent. *)
Definition encOpt {A : Type} (enc : A -> list byte) (o : option A) : list byte :=
  match o with
  | Some a => enc a
  | None => []
  end.


(** [advances m n]: whenever [m] succeeds it has left the buffer as it
    was and moved the cursor forward by [n] bytes at least, within the
    buffer. *)
Definition advances {A : Type} (m : M A) (n : nat) : Prop :=
  forall s a s', wf s -> m s = OK (a, s') ->
    buffer s' = buffer s /\ (index s + n <= index s')%nat /\ wf s'.

(** [truncOnly m]: the only error of [m] is Truncated. *)
Definition truncOnly {A : Type} (m : M A) : Prop :=
  forall s e, m s = Err e -> e = Truncated.

(** The position of a definition in a registry, as written on the
    wire. *)
Definition encDef (reg : Registry) (def : ObjectDefinition) : list byte :=
  match indexOf def reg with
  | Some i => encodeBE (registryWidth reg) (Z.of_nat i)
  | None => []
  end.

(** *** Wire layouts and decoded values of the packets *)

Module Layout.

Import MathProblemPacket MathAnswerPacket MathFeedbackPacket.

Definition mathProblem (d : MathProblemData) : list byte :=
  encString 32 (MathProblemPacket.problem d)
  ++ encString 32 (MathProblemPacket.rewardType d)
  ++ encodeBE 1 (MathProblemPacket.rewardCount d)
  ++ encodeBE 2 (MathProblemPacket.problemId d).

(** What the receiver gets for [d]: strings cut at their bound,
    integers modulo their width. *)
Definition mathProblemDecoded (d : MathProblemData) : MathProblemData :=
  {| MathProblemPacket.problem := truncate 32 (MathProblemPacket.problem d);
     MathProblemPacket.rewardType := truncate 32 (MathProblemPacket.rewardType d);
     MathProblemPacket.rewardCount := MathProblemPacket.rewardCount d mod 256;
     MathProblemPacket.problemId := MathProblemPacket.problemId d mod 65536 |}.

Definition mathProblemValid (d : MathProblemData) : Prop :=
  (String.length (MathProblemPacket.problem d) <= 32)%nat
  /\ (String.length (MathProblemPacket.rewardType d) <= 32)%nat
  /\ 0 <= MathProblemPacket.rewardCount d < 256
  /\ 0 <= MathProblemPacket.problemId d < 65536.

Definition mathAnswer (d : MathAnswerData) : list byte :=
  encodeBE 2 (MathAnswerPacket.answer d)
  ++ encodeBE 2 (MathAnswerPacket.problemId d).

(** A signed 16-bit field wraps around in two's complement. *)
Definition wrapInt16 (v : Z) : Z :=
  let u := v mod 65536 in if u <? 32768 then u else u - 65536.

Definition mathAnswerDecoded (d : MathAnswerData) : MathAnswerData :=
  {| MathAnswerPacket.answer := wrapInt16 (MathAnswerPacket.answer d);
     MathAnswerPacket.problemId := MathAnswerPacket.problemId d mod 65536 |}.

Definition mathAnswerValid (d : MathAnswerData) : Prop :=
  -32768 <= MathAnswerPacket.answer d < 32768
  /\ 0 <= MathAnswerPacket.problemId d < 65536.

Definition mathFeedback (d : MathFeedbackData) : list byte :=
  encodeBE 1 (packBits [ isCorrect d;
                         isSome (xpEarned d);
                         isSome (totalXP d) ])
  ++ encodeBE 2 (MathFeedbackPacket.problemId d)
  ++ encOpt (encodeBE 2) (xpEarned d)
  ++ encOpt (encodeBE 4) (totalXP d).

Definition mathFeedbackDecoded (d : MathFeedbackData) : MathFeedbackData :=
  {| isCorrect := isCorrect d;
     MathFeedbackPacket.problemId := MathFeedbackPacket.problemId d mod 65536;
     xpEarned := option_map (fun v => v mod 65536) (xpEarned d);
     totalXP := option_map (fun v => v mod 4294967296) (totalXP d) |}.

Definition inRange (bound : Z) (o : option Z) : Prop :=
  match o with
  | Some v => 0 <= v < bound
  | None => True
  end.

Definition mathFeedbackValid (d : MathFeedbackData) : Prop :=
  0 <= MathFeedbackPacket.problemId d < 65536
  /\ inRange 65536 (xpEarned d)
  /\ inRange 4294967296 (totalXP d).

Section Join.

Import JoinPacket.

Variables Loots Badges Emotes : Registry.
Variable protocolVersionConstant : Z.
Variable nameMaxLength : nat.

(** The ten flags of the join packet's boolean group, in order. *)
Definition joinFlags (d : JoinPacketCreation) : list bool :=
  [ isMobile d; isSome (badge d); isSome (authToken d);
    isSome (studentId d);
    isSome (at_ (emotes d) 0); isSome (at_ (emotes d) 1);
    isSome (at_ (emotes d) 2); isSome (at_ (emotes d) 3);
    isSome (at_ (emotes d) 4); isSome (at_ (emotes d) 5) ].

Definition join (d : JoinPacketCreation) : list byte :=
  encodeBE 2 (packBits (joinFlags d))
  ++ encodeBE 2 protocolVersionConstant
  ++ encString nameMaxLength (name d)
  ++ encDef Loots (skin d)
  ++ encOpt (encDef Badges) (badge d)
  ++ encOpt (encString 256) (authToken d)
  ++ encOpt (encString 64) (studentId d)
  ++ concat (map (fun i => encOpt (encDef Emotes) (at_ (emotes d) i))
                 (seq 0 6)).

(** What the receiver gets for [d]: the name cut at its bound and
    sanitized, the first six emotes in an array of eight. *)
Definition joinDecoded (d : JoinPacketCreation) : JoinData :=
  {| protocolVersion := protocolVersionConstant mod 65536;
     fields :=
       {| name := Sanitize.sanitize (truncate nameMaxLength (name d));
          isMobile := isMobile d;
          skin := skin d;
          badge := badge d;
          emotes := map (at_ (emotes d)) (seq 0 6) ++ [None; None];
          authToken := option_map (truncate 256) (authToken d);
          studentId := option_map (truncate 64) (studentId d) |} |}.

(** The registries are within the widest index of the stream and
    the name bound within the widest length. *)
Definition contentValid : Prop :=
  Z.of_nat (length Loots) <= 2 ^ 32
  /\ Z.of_nat (length Badges) <= 2 ^ 32
  /\ Z.of_nat (length Emotes) <= 2 ^ 32
  /\ Z.of_nat nameMaxLength < 2 ^ 32.

(** The definitions a payload refers to belong to their
    registries. *)
Definition joinMember (d : JoinPacketCreation) : Prop :=
  In (skin d) Loots
  /\ (forall b, badge d = Some b -> In b Badges)
  /\ (forall i e, (i < 6)%nat -> at_ (emotes d) i = Some e -> In e Emotes).

Definition fitsIn (maxLength : nat) (o : option string) : Prop :=
  match o with
  | Some s => (String.length s <= maxLength)%nat
  | None => True
  end.

Definition joinValid (d : JoinPacketCreation) : Prop :=
  joinMember d
  /\ (String.length (name d) <= nameMaxLength)%nat
  /\ fitsIn 256 (authToken d)
  /\ fitsIn 64 (studentId d).

(** The bytes of a decoded join packet, from its flags, the name as
    it was on the wire and the strings it carries: the group, the
    version, the name, the skin, and each optional field that its
    flag announces. *)
Definition joinConsumed (flags : list bool) (rawName : string)
    (d : JoinData) : nat :=
  (2 + 2 + (widthFor (Z.of_nat nameMaxLength + 1) + String.length rawName)
   + registryWidth Loots
   + (if flag 1 flags then registryWidth Badges else 0)
   + match authToken (fields d) with
     | Some t => widthFor (Z.of_nat 256 + 1) + String.length t
     | None => 0
     end
   + match studentId (fields d) with
     | Some t => widthFor (Z.of_nat 64 + 1) + String.length t
     | None => 0
     end
   + registryWidth Emotes
     * length (filter (fun i => flag (4 + i) flags) (seq 0 6)))%nat.

(** The shortest join packet: the boolean group, the version, an
    empty name and the skin. *)
Definition joinMinimum : nat :=
  (2 + 2 + widthFor (Z.of_nat nameMaxLength + 1) + registryWidth Loots)%nat.

End Join.

End Layout.

(** *** The reads of a decoding, one by one *)

Module Runs.

Import MathFeedbackPacket JoinPacket.

(** [optionally c m s o s']: the optional field that the flag [c]
    announces, from the stream [s].  When the flag is set the field
    is read by [m], which leaves [s'], and is present; when it is
    clear nothing is read, the stream stays as it is and the field
    is absent. *)
Definition optionally {A : Type} (c : bool) (m : M A) (s : Stream)
    (o : option A) (s' : Stream) : Prop :=
  if c then exists a, m s = OK (a, s') /\ o = Some a
  else o = None /\ s' = s.

(** A decoding of a feedback packet from [s] that returns [d] and
    leaves [s']: the boolean group, the identifier, then each
    optional field as its flag says. *)
Definition mathFeedback (s : Stream) (d : MathFeedbackData) (s' : Stream)
  : Prop :=
  exists flags s1 s2 s3,
    readBooleanGroup s = OK (flags, s1)
    /\ readUint16 s1 = OK (MathFeedbackPacket.problemId d, s2)
    /\ optionally (flag 1 flags) readUint16 s2 (xpEarned d) s3
    /\ optionally (flag 2 flags) readUint32 s3 (totalXP d) s'
    /\ isCorrect d = flag 0 flags.

(** The emote slots of [range], in order, from the array [arr] and
    the stream [s]: slot [i] is read and set when flag [4 + i] is
    set, and left alone, with the stream, when it is clear. *)
Fixpoint emoteSlots (Emotes : Registry) (flags : list bool)
    (range : list nat) (arr : list (option ObjectDefinition)) (s : Stream)
    (arr' : list (option ObjectDefinition)) (s' : Stream) : Prop :=
  match range with
  | [] => arr' = arr /\ s' = s
  | i :: r =>
      exists o s1,
        optionally (flag (4 + i) flags) (readFromStream Emotes) s o s1
        /\ emoteSlots Emotes flags r
             match o with
             | Some e => setAt i (Some e) arr
             | None => arr
             end s1 arr' s'
  end.

(** A decoding of a join packet from [s] that returns [d] and leaves
    [s']: the boolean group, the version, the name as it is on the
    wire, the skin, then the badge, the token, the student
    identifier and the six emotes, each as its flag says. *)
Definition join (Loots Badges Emotes : Registry) (nameMaxLength : nat)
    (s : Stream) (d : JoinData) (s' : Stream) : Prop :=
  exists flags s1 s2 rawName s3 s4 s5 s6 s7,
    readBooleanGroup2 s = OK (flags, s1)
    /\ readUint16 s1 = OK (protocolVersion d, s2)
    /\ readPlayerName nameMaxLength s2 = OK (rawName, s3)
    /\ name (fields d) = Sanitize.sanitize rawName
    /\ readFromStream Loots s3 = OK (skin (fields d), s4)
    /\ optionally (flag 1 flags) (readFromStream Badges) s4
                  (badge (fields d)) s5
    /\ optionally (flag 2 flags) (readString 256) s5
                  (authToken (fields d)) s6
    /\ optionally (flag 3 flags) (readString 64) s6
                  (studentId (fields d)) s7
    /\ emoteSlots Emotes flags (seq 0 6) (repeat None 8) s7
                  (emotes (fields d)) s'
    /\ isMobile (fields d) = flag 0 flags.

End Runs.


(** *** Markup and white space in a name *)

Module NameSpec.

#[local] Open Scope char_scope.

(** [cs] has a substring of the form ['<'], one character or more
    other than ['>'], ['>']. *)
Definition markupIn (cs : list ascii) : Prop :=
  exists pre mid post,
    cs = pre ++ "<" :: mid ++ ">" :: post /\ mid <> [] /\ ~ In ">" mid.

(** [cs] starts, or ends, with a white space character. *)
Definition leadingSpace (cs : list ascii) : Prop :=
  exists w r, In w Sanitize.whiteSpace /\ cs = w ++ r.

Definition trailingSpace (cs : list ascii) : Prop :=
  exists w r, In w Sanitize.whiteSpace /\ cs = r ++ w.

Definition hasMarkup (s : string) : Prop :=
  markupIn (list_ascii_of_string s).

Definition startsWithSpace (s : string) : Prop :=
  leadingSpace (list_ascii_of_string s).

Definition endsWithSpace (s : string) : Prop :=
  trailingSpace (list_ascii_of_string s).

(** A name that sanitizing leaves as it is. *)
Definition clean (s : string) : Prop :=
  ~ hasMarkup s /\ ~ startsWithSpace s /\ ~ endsWithSpace s.

(** Every ['<'] of [cs] is followed at once by a ['>'], or by no
    ['>'] at all: no tag can be matched in [cs]. *)
Definition settled (cs : list ascii) : Prop :=
  forall pre post, cs = pre ++ "<" :: post ->
    (exists r, post = ">" :: r) \/ ~ In ">" post.

End NameSpec.

(** *** The shape of a generated problem *)

Module ProblemSpec.

Import MathProblemManager.
#[local] Open Scope string_scope.
#[local] Open Scope Z_scope.

(** A problem is an addition, a subtraction of the smaller operand
    from the larger, a multiplication, or the division of a product
    by one of its factors; the operands are single digits. *)
Definition wellPosed (p : MathProblem) : Prop :=
  (exists a b, 1 <= a <= 9 /\ 1 <= b <= 9
               /\ problem p = show a ++ " + " ++ show b
               /\ answer p = a + b)
  \/ (exists a b, 1 <= b /\ b <= a /\ a <= 9
                  /\ problem p = show a ++ " - " ++ show b
                  /\ answer p = a - b)
  \/ (exists a b, 1 <= a <= 9 /\ 1 <= b <= 9
                  /\ problem p = show a ++ timesSign ++ show b
                  /\ answer p = a * b)
  \/ (exists q d, 1 <= q <= 9 /\ 1 <= d <= 9
                  /\ problem p = show (q * d) ++ divideSign ++ show d
                  /\ answer p = q
                  /\ (q * d) mod d = 0 /\ (q * d) / d = q).

End ProblemSpec.

(** *** Sample payloads *)

Module Samples.

#[local] Open Scope string_scope.

(** The math challenge and the feedback of the specification's
    concrete scenario. *)
Definition challenge : MathProblemPacket.MathProblemData :=
  {| MathProblemPacket.problem := "3 + 4";
     MathProblemPacket.rewardType := "gauze";
     MathProblemPacket.rewardCount := 3;
     MathProblemPacket.problemId := 7 |}.

Definition feedback (problemId : Z) : MathFeedbackPacket.MathFeedbackData :=
  {| MathFeedbackPacket.isCorrect := true;
     MathFeedbackPacket.problemId := problemId;
     MathFeedbackPacket.xpEarned := Some 2;
     MathFeedbackPacket.totalXP := None |}.

Definition reply : MathAnswerPacket.MathAnswerData :=
  {| MathAnswerPacket.answer := -7; MathAnswerPacket.problemId := 7 |}.

Definition registry : Registry := [mkDef "a"; mkDef "b"; mkDef "c"].

(** A join request whose name has a leading space. *)
Definition paddedJoin : JoinPacket.JoinPacketCreation :=
  {| JoinPacket.name := " a";
     JoinPacket.isMobile := false;
     JoinPacket.skin := mkDef "a";
     JoinPacket.badge := None;
     JoinPacket.emotes := [];
     JoinPacket.authToken := None;
     JoinPacket.studentId := None |}.

(** A join request with a clean name and some optional fields. *)
Definition fullJoin : JoinPacket.JoinPacketCreation :=
  {| JoinPacket.name := "bob";
     JoinPacket.isMobile := true;
     JoinPacket.skin := mkDef "b";
     JoinPacket.badge := Some (mkDef "c");
     JoinPacket.emotes := [None; Some (mkDef "a"); None; None; None;
                           Some (mkDef "c")];
     JoinPacket.authToken := Some "token";
     JoinPacket.studentId := None |}.

(** A received join packet: mobile, no optional field, version 1, the
    name ["<b>x</b> "] and the first skin. *)
Definition markedJoinBytes : list byte :=
  [x00; x01; x00; x01; x09; x3c; x62; x3e; x78; x3c; x2f; x62; x3e; x20; x00].

(** A generator that counts: the draw is the state reduced to the
    range. *)
Definition counter (lo hi : Z) (g : nat) : Z * nat :=
  (lo + Z.of_nat g mod (hi - lo + 1), S g).

Definition asked : MathProblemManager.MathProblem :=
  {| MathProblemManager.problem := "3 + 4";
     MathProblemManager.answer := 7;
     MathProblemManager.rewardType := "gauze";
     MathProblemManager.rewardCount := 3;
     MathProblemManager.problemId := 7 |}.

(** An item collection that answers with the amount of the latest
    call of [setItem] for the key, and with 1 for gauze and 0 for
    the rest before any. *)
Definition latest (calls : list (string * Z)) (key : string) : Z :=
  fold_left (fun amount call =>
               if String.eqb (fst call) key then snd call else amount)
            calls (if String.eqb key "gauze" then 1 else 0).

(** A world where player 4, holding one gauze, has been asked
    [asked]. *)
Definition world : MathProblemManager.World nat :=
  {| MathProblemManager.manager :=
       {| MathProblemManager.activeProblem :=
            stdpp.base.insert 4 asked stdpp.base.empty;
          MathProblemManager.nextProblemId := 8 |};
     MathProblemManager.player :=
       {| MathProblemManager.id := 4;
          MathProblemManager.items :=
            {| MathProblemManager.setCalls := [];
               MathProblemManager.answers := latest |};
          MathProblemManager.dirtyItems := false;
          MathProblemManager.sentPackets := [] |};
     MathProblemManager.rng := 5%nat |}.

End Samples.
(** *** The sizes of the math packets on the wire *)

Module Sizes.

Import MathProblemPacket MathAnswerPacket MathFeedbackPacket.

(** A string field of bound 32: a length byte and the bytes kept. *)
Definition mathProblem (d : MathProblemData) : nat :=
  (1 + Nat.min 32 (String.length (MathProblemPacket.problem d))
   + (1 + Nat.min 32 (String.length (MathProblemPacket.rewardType d)))
   + 1 + 2)%nat.

Definition mathAnswer : nat := 4%nat.

Definition mathFeedback (d : MathFeedbackData) : nat :=
  (1 + 2 + (if isSome (xpEarned d) then 2 else 0)
   + (if isSome (totalXP d) then 4 else 0))%nat.

End Sizes.

(** *** Statements about what sanitizing keeps *)

(** [subsequence a b]: [a] is [b] with some of its elements taken
    out, the others staying in their order. *)
Inductive subsequence {A : Type} : list A -> list A -> Prop :=
| subsequence_nil : subsequence [] []
| subsequence_drop x a b : subsequence a b -> subsequence a (x :: b)
| subsequence_keep x a b : subsequence a b -> subsequence (x :: a) (x :: b).

(** *** Statements about the math problem manager *)

Module ManagerSpec.

Import stdpp.base stdpp.gmap stdpp.strings.
Import MathProblemManager.
#[local] Open Scope string_scope.
#[local] Open Scope Z_scope.

(** The packet that carries a problem to its player, as
    [validateAnswer] and [initializeProblem] build it. *)
Definition packetOf (p : MathProblem) : MathProblemPacket.MathProblemData :=
  {| MathProblemPacket.problem := problem p;
     MathProblemPacket.rewardType := rewardType p;
     MathProblemPacket.rewardCount := rewardCount p;
     MathProblemPacket.problemId := problemId p |}.

(** Every active problem was numbered before the next number to give. *)
Definition idsBelowNext (m : Manager) : Prop :=
  forall k q, activeProblem m !! k = Some q -> problemId q < nextProblemId m.

(** How many items of a kind a solved problem gives. *)
Definition rewardTable (itemType : string) (count : Z) : Prop :=
  (itemType = "gauze" -> 2 <= count <= 5)
  /\ (itemType = "medikit" \/ itemType = "cola" \/ itemType = "tablets" ->
      count = 1)
  /\ (itemType = "12g" -> 5 <= count <= 15)
  /\ (itemType = "556mm" \/ itemType = "762mm" \/ itemType = "9mm" ->
      10 <= count <= 30)
  /\ (itemType = "frag_grenade" \/ itemType = "smoke_grenade" ->
      1 <= count <= 2).

(** No two players hold problems with the same identifier. *)
Definition distinctIds (m : Manager) : Prop :=
  forall k1 k2 q1 q2,
    activeProblem m !! k1 = Some q1 -> activeProblem m !! k2 = Some q2 ->
    problemId q1 = problemId q2 -> k1 = k2.

(** The reward of a problem is an item of the manager in a number
    its kind allows. *)
Definition rewardValid (p : MathProblem) : Prop :=
  In (rewardType p) consumableItems
  /\ rewardTable (rewardType p) (rewardCount p).

(** What holds of the manager of a running game: identifiers start
    at 1 and stay below the next one to give, no two players hold the
    same one, every active problem is well posed and its reward
    valid. *)
Definition sound (m : Manager) : Prop :=
  1 <= nextProblemId m
  /\ idsBelowNext m
  /\ distinctIds m
  /\ forall k q, activeProblem m !! k = Some q ->
       1 <= problemId q /\ ProblemSpec.wellPosed q /\ rewardValid q.

Section WithRandom.

Variable Rng : Type.
Variable random : Z -> Z -> Rng -> Z * Rng.

(** The calls a game makes on its manager, each for some player: a
    step runs one method, or lets another player (or the same one,
    with its inventory changed by the rest of the game) be the one
    the next call is for. *)
Inductive step : World Rng -> World Rng -> Prop :=
| step_generate w :
    step w (snd (generateProblem Rng random w))
| step_validate answer' problemId' w :
    step w (snd (validateAnswer Rng random answer' problemId' w))
| step_remove w :
    step w (snd (removeProblem Rng w))
| step_initialize w :
    step w (snd (initializeProblem Rng random w))
| step_player p w :
    step w {| manager := manager Rng w; player := p; rng := rng Rng w |}.

(** The worlds a game can be in: it starts with a new manager. *)
Inductive reachable : World Rng -> Prop :=
| reachable_new p g :
    reachable {| manager := newManager; player := p; rng := g |}
| reachable_step w w' :
    reachable w -> step w w' -> reachable w'.

End WithRandom.

End ManagerSpec.


(** *** A sample outside for the TimeBack client *)

Module TimeBackSamples.

Import ServerTimeBackAPI.
#[local] Open Scope string_scope.
#[local] Open Scope Z_scope.

(** An outside that counts the questions put to it; its network
    accepts every request. *)
Definition fetch (request : Request.t) (n : nat) : FetchResult * nat :=
  (Resolved true 200 "OK", S n).

(** A network that refuses every request. *)
Definition refuse (request : Request.t) (n : nat) : FetchResult * nat :=
  (Resolved false 403 "Forbidden", S n).

Definition randomPart (n : nat) : string * nat := ("k", S n).
Definition dateNow (n : nat) : Z * nat := (Z.of_nat n, S n).
Definition isoNow (n : nat) : string * nat := ("2025-01-01T00:00:00.000Z", S n).
Definition toLowerCase (s : string) : string := s.

Definition student : Player :=
  {| name := "bob"; authToken := Some "token"; studentId := Some "s-1";
     aliveCount := 10; gasStage := 2; health := QArith_base.Qmake 100 1;
     joinTime := 0 |}.

Definition guest : Player :=
  {| name := "eve"; authToken := None; studentId := None;
     aliveCount := 10; gasStage := 2; health := QArith_base.Qmake 100 1;
     joinTime := 0 |}.

Definition solved : ProblemData.t :=
  {| ProblemData.problem := "3 + 4"; ProblemData.correctAnswer := 7;
     ProblemData.userAnswer := 7; ProblemData.isCorrect := true;
     ProblemData.operation := "addition"; ProblemData.responseTime := None;
     ProblemData.rewardType := "gauze"; ProblemData.rewardCount := 3 |}.

Definition start : World nat := {| outside := 0%nat; requests := [] |}.

End TimeBackSamples.

(** *** Statements about the authentication manager *)

Module AuthSpec.

Import SuroiTimeBackAPI SuroiAuthManager.

(** A field of a profile holds the string [s], which is not empty. *)
Definition given (field : option string) (s : string) : Prop :=
  field = Some s /\ s <> EmptyString.

(** A field of a profile is undefined or empty. *)
Definition missing (field : option string) : Prop :=
  field = None \/ field = Some EmptyString.

(** The argument of the latest call of [callback], if it was ever
    called. *)
Fixpoint lastCall (callback : Callback)
    (calls : list (Callback * option SuroiTimeBackUser.t))
  : option (option SuroiTimeBackUser.t) :=
  match calls with
  | [] => None
  | (c, user) :: r =>
      match lastCall callback r with
      | Some later => Some later
      | None => if Nat.eqb c callback then Some user else None
      end
  end.

(** What happens to a manager: the OIDC library reports a user or
    the loss of the user, or the client registers or removes a
    callback. *)
Inductive step : State -> State -> Prop :=
| step_authenticated user st : step st (handleUserAuthenticated user st)
| step_signedOut st : step st (handleUserSignedOut st)
| step_registered callback st : step st (onAuthStateChanged callback st)
| step_removed callback st : step st (removeAuthStateCallback callback st).

Inductive reachable : State -> Prop :=
| reachable_new : reachable new
| reachable_step st st' : reachable st -> step st st' -> reachable st'.

(** Every registered callback has been told of the current user by
    its latest call; and the manager reports a user only once the API
    instance has a token. *)
Definition informed (st : State) : Prop :=
  (forall callback, In callback (authCallbacks st) ->
     lastCall callback (calls st) = Some (currentUser st))
  /\ (currentUser st <> None -> accessToken st <> None).

End AuthSpec.

(** ** The stream primitives *)

Section StreamFacts.

Lemma wf_alloc capacity : wf (alloc capacity).
Proof. unfold wf, alloc; simpl; lia. Qed.

Lemma wf_fromBytes bs : wf (fromBytes bs).
Proof. unfold wf, fromBytes; simpl; lia. Qed.

Lemma length_buffer_alloc capacity : length (buffer (alloc capacity)) = capacity.
Proof. simpl. apply repeat_length. Qed.

Lemma writes_writeBytes bs : writes (writeBytes bs) bs.
Proof.
  intros s Hwf. unfold wf in Hwf. unfold writeBytes.
  destruct (index s + length bs <=? length (buffer s))%nat eqn:Hfit; [|reflexivity].
  apply Nat.leb_le in Hfit.
  eexists; split; [reflexivity|].
  unfold written; simpl. repeat split.
  - rewrite firstn_app, length_firstn, Nat.min_l by lia.
    rewrite firstn_all2 by (rewrite length_firstn; lia).
    replace (index s + length bs - index s)%nat with (length bs) by lia.
    rewrite firstn_app, Nat.sub_diag, firstn_all; simpl.
    now rewrite app_nil_r.
  - rewrite !length_app, length_firstn, length_skipn. lia.
Qed.

Lemma writes_ret : writes (ret tt) [].
Proof.
  intros s Hwf. unfold wf in Hwf. simpl.
  rewrite Nat.add_0_r.
  destruct (index s <=? length (buffer s))%nat eqn:E;
    [|apply Nat.leb_gt in E; lia].
  exists s. rewrite app_nil_r. auto.
Qed.

(** Sequencing two writers concatenates what they write. *)
Lemma writes_seq m1 m2 b1 b2 :
  writes m1 b1 -> writes m2 b2 -> writes (m1 ;;; m2) (b1 ++ b2).
Proof.
  intros H1 H2 s Hwf. unfold bind.
  specialize (H1 s Hwf). rewrite length_app.
  destruct (index s + length b1 <=? length (buffer s))%nat eqn:E1.
  - destruct H1 as (s1 & -> & Hw1 & Hl1 & Hi1).
    apply Nat.leb_le in E1.
    assert (Hwf1 : wf s1) by (unfold wf; lia).
    specialize (H2 s1 Hwf1). rewrite Hl1, Hi1 in H2.
    rewrite Nat.add_assoc.
    destruct (index s + length b1 + length b2 <=? length (buffer s))%nat; [|exact H2].
    destruct H2 as (s2 & -> & Hw2 & Hl2 & Hi2).
    exists s2. rewrite Hw2, Hw1, app_assoc. repeat split; lia.
  - rewrite H1. apply Nat.leb_gt in E1.
    destruct (index s + (length b1 + length b2) <=? length (buffer s))%nat eqn:E;
      [apply Nat.leb_le in E; lia | reflexivity].
Qed.

Lemma writes_whenSome {A} (o : option A) (f : A -> M unit) (enc : A -> list byte) :
  (forall a, o = Some a -> writes (f a) (enc a)) ->
  writes (whenSome o f) (encOpt enc o).
Proof.
  intros H. destruct o; simpl; [now apply H | apply writes_ret].
Qed.

(** What a successful writer leaves, started on a fresh buffer. *)
Lemma writes_alloc m bs capacity r :
  writes m bs -> m (alloc capacity) = OK r ->
  written (snd r) = bs /\ (length bs <= capacity)%nat
  /\ length (buffer (snd r)) = capacity /\ index (snd r) = length bs.
Proof.
  intros H Hm. specialize (H _ (wf_alloc capacity)).
  rewrite length_buffer_alloc in H. simpl in H.
  destruct (length bs <=? capacity)%nat eqn:E.
  - destruct H as (s' & Hs & Hw & Hl & Hi). rewrite Hm in Hs.
    injection Hs as ->. simpl. apply Nat.leb_le in E. auto.
  - rewrite Hm in H. discriminate.
Qed.

Lemma writes_fits m bs capacity :
  writes m bs -> (length bs <= capacity)%nat ->
  exists s, m (alloc capacity) = OK (tt, s) /\ written s = bs.
Proof.
  intros H Hle. specialize (H _ (wf_alloc capacity)).
  rewrite length_buffer_alloc in H. simpl in H.
  apply Nat.leb_le in Hle. rewrite Hle in H.
  destruct H as (s' & Hs & Hw & _). eauto.
Qed.

Lemma reads_after bs s rest s' :
  wf s -> remaining s = bs ++ rest ->
  buffer s' = buffer s -> index s' = (index s + length bs)%nat ->
  wf s' /\ remaining s' = rest.
Proof.
  unfold wf, remaining. intros Hwf Hrem Hb Hi.
  assert (Hlen : (length (buffer s) - index s = length bs + length rest)%nat)
    by (rewrite <- length_skipn, Hrem, length_app; reflexivity).
  rewrite Hb, Hi. split; [lia|].
  rewrite Nat.add_comm, <- skipn_skipn, Hrem, skipn_app, Nat.sub_diag.
  rewrite skipn_all; reflexivity.
Qed.

Lemma reads_ret {A} (a : A) : reads (ret a) [] a.
Proof. intros s rest _ _. exists s. simpl. auto. Qed.

Lemma reads_readBytes bs : reads (readBytes (length bs)) bs bs.
Proof.
  intros s rest Hwf Hrem. unfold readBytes. unfold remaining in Hrem.
  assert (Hlen : (length (buffer s) - index s = length bs + length rest)%nat)
    by (rewrite <- length_skipn, Hrem, length_app; reflexivity).
  unfold wf in Hwf.
  destruct (index s + length bs <=? length (buffer s))%nat eqn:E;
    [|apply Nat.leb_gt in E; lia].
  rewrite Hrem, firstn_app, Nat.sub_diag, firstn_all. simpl.
  rewrite app_nil_r.
  eexists; split; [reflexivity | split; reflexivity].
Qed.

(** Sequencing two readers reads the concatenation. *)
Lemma reads_bind {A B} (m : M A) (k : A -> M B) b1 b2 a b :
  reads m b1 a -> reads (k a) b2 b -> reads (bind m k) (b1 ++ b2) b.
Proof.
  intros H1 H2 s rest Hwf Hrem. unfold bind.
  rewrite <- app_assoc in Hrem.
  destruct (H1 s _ Hwf Hrem) as (s1 & -> & Hb1 & Hi1).
  destruct (reads_after b1 s _ s1 Hwf Hrem Hb1 Hi1) as [Hwf1 Hrem1].
  destruct (H2 s1 _ Hwf1 Hrem1) as (s2 & -> & Hb2 & Hi2).
  exists s2. rewrite length_app. repeat split; [congruence | lia].
Qed.

Lemma reads_readIf_opt {A} (o : option A) (m : M A) (enc : A -> list byte)
    (g : A -> A) :
  (forall a, o = Some a -> reads m (enc a) (g a)) ->
  reads (readIf (isSome o) m) (encOpt enc o) (option_map g o).
Proof.
  intros H. destruct o as [a|]; simpl; [|apply reads_ret].
  rewrite <- (app_nil_r (enc a)).
  eapply reads_bind; [now apply H | apply reads_ret].
Qed.

Lemma reads_readIf_same {A} (o : option A) (m : M A) (enc : A -> list byte) :
  (forall a, o = Some a -> reads m (enc a) a) ->
  reads (readIf (isSome o) m) (encOpt enc o) o.
Proof.
  intros H. destruct o as [a|]; simpl; [|apply reads_ret].
  rewrite <- (app_nil_r (enc a)).
  eapply reads_bind; [now apply H | apply reads_ret].
Qed.

Lemma reads_map {A B} (m : M A) (f : A -> B) bs a :
  reads m bs a -> reads (x <- m ;; ret (f x)) bs (f a).
Proof.
  intros H. rewrite <- (app_nil_r bs).
  eapply reads_bind; [exact H | apply reads_ret].
Qed.

(** What a reader that consumes a whole received sequence returns. *)
Lemma reads_fromBytes {A} (m : M A) bs a :
  reads m bs a ->
  exists s', m (fromBytes bs) = OK (a, s')
             /\ buffer s' = bs /\ index s' = length bs.
Proof.
  intros H.
  destruct (H (fromBytes bs) [] (wf_fromBytes bs)) as (s' & Hs & Hb & Hi).
  - now rewrite app_nil_r.
  - exists s'. auto.
Qed.

End StreamFacts.

(** ** Fixed-width integers *)

Section IntegerFacts.

Lemma Z_of_byte_of_Z v : Z_of_byte (byte_of_Z v) = v mod 256.
Proof.
  unfold byte_of_Z, Z_of_byte.
  pose proof (Z.mod_pos_bound v 256 eq_refl) as Hr.
  destruct (Byte.of_N (Z.to_N (v mod 256))) as [b|] eqn:E.
  - apply Byte.to_of_N in E. rewrite E. lia.
  - apply Byte.of_N_None_iff in E. lia.
Qed.

Lemma length_encodeBE width v : length (encodeBE width v) = width.
Proof. induction width; simpl; congruence. Qed.

Lemma pow256_pos w : 0 < 256 ^ Z.of_nat w.
Proof. apply Z.pow_pos_nonneg; lia. Qed.

Lemma pow256_succ w : 256 ^ Z.of_nat (S w) = 256 ^ Z.of_nat w * 256.
Proof. rewrite Nat2Z.inj_succ, Z.pow_succ_r by lia. lia. Qed.

Lemma fold_encodeBE width v acc :
  fold_left (fun a b => a * 256 + Z_of_byte b) (encodeBE width v) acc
  = acc * 256 ^ Z.of_nat width + v mod 256 ^ Z.of_nat width.
Proof.
  revert acc. induction width as [|w IH]; intros acc.
  - simpl. rewrite Z.mod_1_r. lia.
  - cbn [encodeBE fold_left]. rewrite IH, Z_of_byte_of_Z, pow256_succ.
    pose proof (pow256_pos w) as Hp.
    rewrite (Z.rem_mul_r v (256 ^ Z.of_nat w) 256) by lia.
    lia.
Qed.

(** Reading back a written integer gives it modulo the width. *)
Lemma decodeBE_encodeBE width v :
  decodeBE (encodeBE width v) = v mod 256 ^ Z.of_nat width.
Proof. unfold decodeBE. rewrite fold_encodeBE. lia. Qed.

Lemma writes_writeUintN width v : writes (writeUintN width v) (encodeBE width v).
Proof. apply writes_writeBytes. Qed.

Lemma reads_readUintN width v :
  reads (readUintN width) (encodeBE width v) (v mod 256 ^ Z.of_nat width).
Proof.
  unfold readUintN. rewrite <- (app_nil_r (encodeBE width v)).
  eapply reads_bind.
  - rewrite <- (length_encodeBE width v) at 1. apply reads_readBytes.
  - rewrite decodeBE_encodeBE. apply reads_ret.
Qed.

Lemma reads_readUintN_small width v :
  0 <= v < 256 ^ Z.of_nat width ->
  reads (readUintN width) (encodeBE width v) v.
Proof.
  intros Hv. rewrite <- (Z.mod_small v (256 ^ Z.of_nat width)) at 2 by exact Hv.
  apply reads_readUintN.
Qed.

Lemma reads_readInt16 v :
  reads readInt16 (encodeBE 2 v) (Layout.wrapInt16 v).
Proof.
  unfold readInt16. rewrite <- (app_nil_r (encodeBE 2 v)).
  eapply reads_bind; [apply reads_readUintN|].
  apply reads_ret.
Qed.

(** A signed 16-bit value survives the trip through two bytes. *)
Lemma wrapInt16_small v : -32768 <= v < 32768 -> Layout.wrapInt16 v = v.
Proof.
  intros Hv. unfold Layout.wrapInt16.
  destruct (Z_lt_le_dec v 0) as [Hneg|Hpos].
  - replace (v mod 65536) with (v + 65536)
      by (apply Z.mod_unique with (-1); lia).
    destruct (v + 65536 <? 32768) eqn:E; [apply Z.ltb_lt in E; lia | lia].
  - rewrite Z.mod_small by lia.
    destruct (v <? 32768) eqn:E; [reflexivity | apply Z.ltb_ge in E; lia].
Qed.

Lemma log2_up_bound count : count <= 2 ^ Z.log2_up count.
Proof.
  destruct (Z_lt_le_dec 1 count) as [H|H].
  - apply Z.log2_up_spec; assumption.
  - pose proof (Z.log2_up_nonneg count).
    pose proof (Z.pow_pos_nonneg 2 (Z.log2_up count)). lia.
Qed.

(** The width chosen for [count] values can index all of them. *)
Lemma widthFor_bound count :
  count <= 2 ^ 32 -> count <= 256 ^ Z.of_nat (widthFor count).
Proof.
  intros Hc. unfold widthFor, bitsFor.
  pose proof (log2_up_bound count) as Hl.
  destruct (Z.max 1 (Z.log2_up count) <=? 8) eqn:E8.
  - apply Z.leb_le in E8.
    assert (2 ^ Z.log2_up count <= 2 ^ 8)
      by (apply Z.pow_le_mono_r; lia).
    change (256 ^ Z.of_nat 1) with (2 ^ 8). lia.
  - destruct (Z.max 1 (Z.log2_up count) <=? 16) eqn:E16.
    + apply Z.leb_le in E16.
      assert (2 ^ Z.log2_up count <= 2 ^ 16)
        by (apply Z.pow_le_mono_r; lia).
      change (256 ^ Z.of_nat 2) with (2 ^ 16). lia.
    + change (256 ^ Z.of_nat 4) with (2 ^ 32). exact Hc.
Qed.

End IntegerFacts.

(** ** Bounded strings *)

Section StringFacts.

Lemma length_cut maxLength s : (length (cut maxLength s) <= maxLength)%nat.
Proof. apply firstn_le_length. Qed.

Lemma length_list_byte_of_string s :
  length (list_byte_of_string s) = String.length s.
Proof.
  unfold list_byte_of_string. rewrite length_map.
  induction s; simpl; congruence.
Qed.

Lemma cut_short maxLength s :
  (String.length s <= maxLength)%nat -> cut maxLength s = list_byte_of_string s.
Proof.
  intros H. apply firstn_all2. now rewrite length_list_byte_of_string.
Qed.

Lemma truncate_short maxLength s :
  (String.length s <= maxLength)%nat -> truncate maxLength s = s.
Proof.
  intros H. unfold truncate. rewrite cut_short by exact H.
  apply string_of_list_byte_of_string.
Qed.

Lemma length_truncate maxLength s :
  String.length (truncate maxLength s) = Nat.min maxLength (String.length s).
Proof.
  unfold truncate. rewrite <- length_list_byte_of_string.
  rewrite list_byte_of_string_of_list_byte. unfold cut.
  now rewrite length_firstn, length_list_byte_of_string.
Qed.

Lemma writes_writeString maxLength s :
  writes (writeString maxLength s) (encString maxLength s).
Proof. apply writes_writeBytes. Qed.

Lemma reads_readString maxLength s :
  Z.of_nat maxLength < 2 ^ 32 ->
  reads (readString maxLength) (encString maxLength s) (truncate maxLength s).
Proof.
  intros Hmax. unfold readString, encString, truncate.
  pose proof (length_cut maxLength s) as Hlen.
  pose proof (widthFor_bound (Z.of_nat maxLength + 1) ltac:(lia)) as Hw.
  eapply reads_bind.
  - apply reads_readUintN_small. lia.
  - rewrite <- (app_nil_r (cut maxLength s)) at 2.
    eapply reads_bind; [|apply reads_ret].
    rewrite Nat2Z.id. apply reads_readBytes.
Qed.

End StringFacts.

(** ** Boolean groups *)

Section BooleanGroupFacts.

Lemma packBits_range flags : 0 <= packBits flags < 2 ^ Z.of_nat (length flags).
Proof.
  induction flags as [|b r IH].
  - simpl. lia.
  - cbn [packBits length]. rewrite Nat2Z.inj_succ, Z.pow_succ_r by lia.
    destruct b; simpl Z.b2z; lia.
Qed.

Lemma testbit_packBits flags k :
  Z.testbit (packBits flags) (Z.of_nat k) = nth k flags false.
Proof.
  revert k. induction flags as [|b r IH]; intros k.
  - simpl. rewrite Z.testbit_0_l. now destruct k.
  - cbn [packBits]. rewrite Z.add_comm. destruct k as [|k].
    + simpl Z.of_nat. apply Z.testbit_0_r.
    + rewrite Nat2Z.inj_succ, Z.testbit_succ_r by lia. apply IH.
Qed.

Lemma nth_unpackBits n v k :
  (k < n)%nat -> nth k (unpackBits n v) false = Z.testbit v (Z.of_nat k).
Proof.
  intros Hk. unfold unpackBits.
  rewrite (nth_indep _ false (Z.testbit v (Z.of_nat 0)))
    by (rewrite length_map, length_seq; exact Hk).
  rewrite (map_nth (fun k => Z.testbit v (Z.of_nat k))).
  rewrite seq_nth by exact Hk. reflexivity.
Qed.

(** A flag read back is the flag that was packed, at its position. *)
Lemma flag_unpack_pack n flags k :
  (k < n)%nat -> flag k (unpackBits n (packBits flags)) = nth k flags false.
Proof.
  intros Hk. unfold flag. rewrite nth_unpackBits by exact Hk.
  apply testbit_packBits.
Qed.

Lemma packBits_firstn_small n flags :
  0 <= packBits (firstn n flags) < 2 ^ Z.of_nat n.
Proof.
  pose proof (packBits_range (firstn n flags)) as H.
  pose proof (firstn_le_length n flags) as Hl.
  assert (2 ^ Z.of_nat (length (firstn n flags)) <= 2 ^ Z.of_nat n)
    by (apply Z.pow_le_mono_r; lia).
  lia.
Qed.

Lemma writes_writeBooleanGroup flags :
  writes (writeBooleanGroup flags) (encodeBE 1 (packBits (firstn 8 flags))).
Proof. apply writes_writeBytes. Qed.

Lemma writes_writeBooleanGroup2 flags :
  writes (writeBooleanGroup2 flags) (encodeBE 2 (packBits (firstn 16 flags))).
Proof. apply writes_writeBytes. Qed.

Lemma reads_readBooleanGroup flags :
  reads readBooleanGroup (encodeBE 1 (packBits (firstn 8 flags)))
        (unpackBits 8 (packBits (firstn 8 flags))).
Proof.
  unfold readBooleanGroup.
  rewrite <- (app_nil_r (encodeBE 1 _)).
  eapply reads_bind; [|apply reads_ret].
  apply reads_readUintN_small.
  pose proof (packBits_firstn_small 8 flags) as H.
  change (256 ^ Z.of_nat 1) with (2 ^ Z.of_nat 8). exact H.
Qed.

Lemma reads_readBooleanGroup2 flags :
  reads readBooleanGroup2 (encodeBE 2 (packBits (firstn 16 flags)))
        (unpackBits 16 (packBits (firstn 16 flags))).
Proof.
  unfold readBooleanGroup2.
  rewrite <- (app_nil_r (encodeBE 2 _)).
  eapply reads_bind; [|apply reads_ret].
  apply reads_readUintN_small.
  pose proof (packBits_firstn_small 16 flags) as H.
  change (256 ^ Z.of_nat 2) with (2 ^ Z.of_nat 16). exact H.
Qed.

End BooleanGroupFacts.

Arguments encodeBE : simpl never.
Arguments packBits : simpl never.
Arguments unpackBits : simpl never.
Arguments widthFor : simpl never.
Arguments encString : simpl never.
Arguments truncate : simpl never.

(** ** Registry references *)

Section RegistryFacts.

Lemma def_eqb_eq a b : def_eqb a b = true -> a = b.
Proof.
  unfold def_eqb. intros H. apply String.eqb_eq in H.
  destruct a, b. simpl in H. congruence.
Qed.

Lemma def_eqb_refl a : def_eqb a a = true.
Proof. unfold def_eqb. apply String.eqb_refl. Qed.

Lemma indexOf_nth_error def reg i :
  indexOf def reg = Some i -> nth_error reg i = Some def.
Proof.
  revert i. induction reg as [|d r IH]; intros i; simpl; [discriminate|].
  destruct (def_eqb def d) eqn:E.
  - intros [= <-]. simpl. f_equal. symmetry. now apply def_eqb_eq.
  - destruct (indexOf def r) as [j|]; simpl; [|discriminate].
    intros [= <-]. simpl. now apply IH.
Qed.

Lemma indexOf_In def reg : In def reg -> exists i, indexOf def reg = Some i.
Proof.
  induction reg as [|d r IH]; simpl; [tauto|].
  intros [->|Hin].
  - rewrite def_eqb_refl. eauto.
  - destruct (def_eqb def d); [eauto|].
    destruct (IH Hin) as [i ->]. simpl. eauto.
Qed.

Lemma indexOf_lt def reg i :
  indexOf def reg = Some i -> (i < length reg)%nat.
Proof.
  intros H. apply indexOf_nth_error in H.
  apply nth_error_Some. congruence.
Qed.

Lemma writes_writeToStream reg def :
  In def reg -> writes (writeToStream reg def) (encDef reg def).
Proof.
  intros Hin. destruct (indexOf_In _ _ Hin) as [i Hi].
  unfold writeToStream, encDef. rewrite Hi. apply writes_writeUintN.
Qed.

(** Every position of a registry survives the trip. *)
Lemma reads_readFromStream reg def :
  In def reg -> Z.of_nat (length reg) <= 2 ^ 32 ->
  reads (readFromStream reg) (encDef reg def) def.
Proof.
  intros Hin Hsize. destruct (indexOf_In _ _ Hin) as [i Hi].
  unfold readFromStream, encDef. rewrite Hi.
  pose proof (indexOf_lt _ _ _ Hi) as Hlt.
  pose proof (widthFor_bound _ Hsize) as Hw.
  rewrite <- (app_nil_r (encodeBE _ _)).
  eapply reads_bind.
  - apply reads_readUintN_small. unfold registryWidth. lia.
  - cbv beta. rewrite Nat2Z.id, (indexOf_nth_error _ _ _ Hi). apply reads_ret.
Qed.

End RegistryFacts.

(** ** The math-challenge packets on the wire *)

Section MathPacketFacts.

Import MathProblemPacket MathAnswerPacket MathFeedbackPacket.

Lemma mathProblem_writes d :
  writes (MathProblemPacket.serialize d) (Layout.mathProblem d).
Proof.
  unfold MathProblemPacket.serialize, Layout.mathProblem.
  repeat apply writes_seq;
    first [apply writes_writeString | apply writes_writeUintN].
Qed.

Lemma mathProblem_reads d :
  reads MathProblemPacket.deserialize (Layout.mathProblem d)
        (Layout.mathProblemDecoded d).
Proof.
  unfold MathProblemPacket.deserialize, Layout.mathProblem.
  eapply reads_bind; [apply reads_readString; reflexivity|].
  eapply reads_bind; [apply reads_readString; reflexivity|].
  eapply reads_bind; [apply (reads_readUintN 1)|].
  rewrite <- (app_nil_r (encodeBE 2 _)).
  eapply reads_bind; [apply (reads_readUintN 2)|].
  apply reads_ret.
Qed.

Lemma mathProblem_valid_decoded d :
  Layout.mathProblemValid d -> Layout.mathProblemDecoded d = d.
Proof.
  intros (Hp & Hr & Hc & Hi). destruct d as [p r c i]; simpl in *.
  unfold Layout.mathProblemDecoded; simpl.
  rewrite !truncate_short, !Z.mod_small by assumption. reflexivity.
Qed.

Lemma mathAnswer_writes d :
  writes (MathAnswerPacket.serialize d) (Layout.mathAnswer d).
Proof.
  unfold MathAnswerPacket.serialize, Layout.mathAnswer.
  apply writes_seq; apply writes_writeUintN.
Qed.

Lemma mathAnswer_reads d :
  reads MathAnswerPacket.deserialize (Layout.mathAnswer d)
        (Layout.mathAnswerDecoded d).
Proof.
  unfold MathAnswerPacket.deserialize, Layout.mathAnswer.
  eapply reads_bind; [apply reads_readInt16|].
  rewrite <- (app_nil_r (encodeBE 2 _)).
  eapply reads_bind; [apply (reads_readUintN 2)|].
  apply reads_ret.
Qed.

Lemma mathAnswer_valid_decoded d :
  Layout.mathAnswerValid d -> Layout.mathAnswerDecoded d = d.
Proof.
  intros [Ha Hi]. destruct d as [a i].
  unfold Layout.mathAnswerDecoded.
  cbn [MathAnswerPacket.answer MathAnswerPacket.problemId] in *.
  rewrite wrapInt16_small, Z.mod_small by assumption. reflexivity.
Qed.

Lemma mathFeedback_writes d :
  writes (MathFeedbackPacket.serialize d) (Layout.mathFeedback d).
Proof.
  unfold MathFeedbackPacket.serialize, Layout.mathFeedback.
  repeat apply writes_seq.
  - apply writes_writeBooleanGroup.
  - apply writes_writeUintN.
  - apply (writes_whenSome (xpEarned d) writeUint16 (encodeBE 2)).
    intros; apply writes_writeUintN.
  - apply (writes_whenSome (totalXP d) writeUint32 (encodeBE 4)).
    intros; apply writes_writeUintN.
Qed.

Lemma mathFeedback_reads d :
  reads MathFeedbackPacket.deserialize (Layout.mathFeedback d)
        (Layout.mathFeedbackDecoded d).
Proof.
  destruct d as [c i x t].
  unfold MathFeedbackPacket.deserialize, Layout.mathFeedback,
    Layout.mathFeedbackDecoded.
  cbn [isCorrect MathFeedbackPacket.problemId xpEarned totalXP].
  eapply reads_bind;
    [apply (reads_readBooleanGroup [c; isSome x; isSome t])|].
  cbv beta zeta. rewrite !flag_unpack_pack by lia. cbn [firstn nth].
  eapply reads_bind; [apply (reads_readUintN 2)|].
  eapply reads_bind.
  - apply (reads_readIf_opt x readUint16 (encodeBE 2) (fun v => v mod 65536)).
    intros a _. apply (reads_readUintN 2).
  - apply (reads_map _ (fun t => _)).
    apply (reads_readIf_opt t readUint32 (encodeBE 4)
                            (fun v => v mod 4294967296)).
    intros a _. apply (reads_readUintN 4).
Qed.

Lemma mathFeedback_valid_decoded d :
  Layout.mathFeedbackValid d -> Layout.mathFeedbackDecoded d = d.
Proof.
  intros (Hi & Hx & Ht). destruct d as [c i x t].
  unfold Layout.mathFeedbackDecoded.
  cbn [isCorrect MathFeedbackPacket.problemId xpEarned totalXP] in *.
  rewrite Z.mod_small by exact Hi.
  destruct x as [x|], t as [t|]; cbn [option_map Layout.inRange] in *;
    rewrite ?Z.mod_small by assumption; reflexivity.
Qed.

End MathPacketFacts.

(** ** The join packet on the wire *)

Section JoinPacketFacts.

Import JoinPacket.

Variables Loots Badges Emotes : Registry.
Variable protocolVersionConstant : Z.
Variable nameMaxLength : nat.

Lemma writes_forEach {A} (range : list A) (body : A -> M unit)
    (enc : A -> list byte) :
  (forall i, In i range -> writes (body i) (enc i)) ->
  writes (forEach range body) (concat (map enc range)).
Proof.
  induction range as [|i r IH]; intros H; cbn [forEach map concat].
  - apply writes_ret.
  - apply writes_seq; [apply H; now left|].
    apply IH. intros j Hj. apply H. now right.
Qed.

Lemma flag_skipn n k flags : flag k (skipn n flags) = flag (n + k) flags.
Proof.
  unfold flag. revert flags. induction n as [|n IH]; intros flags.
  - reflexivity.
  - destruct flags as [|b r]; cbn [skipn Nat.add nth].
    + now destruct k.
    + apply IH.
Qed.

Lemma in_seq_0_6 i :
  In i (seq 0 6) ->
  i = 0%nat \/ i = 1%nat \/ i = 2%nat \/ i = 3%nat \/ i = 4%nat \/ i = 5%nat.
Proof. cbn [seq In]. intuition auto. Qed.

Lemma join_writes d :
  Layout.joinMember Loots Badges Emotes d ->
  writes (serialize Loots Badges Emotes protocolVersionConstant nameMaxLength d)
         (Layout.join Loots Badges Emotes protocolVersionConstant nameMaxLength d).
Proof.
  intros (Hskin & Hbadge & Hemotes).
  unfold serialize, Layout.join. cbv zeta.
  apply writes_seq; [apply writes_writeBooleanGroup2|].
  apply writes_seq; [apply writes_writeUintN|].
  apply writes_seq; [apply writes_writeString|].
  apply writes_seq; [now apply writes_writeToStream|].
  apply writes_seq;
    [apply writes_whenSome; intros b Hb; apply writes_writeToStream; auto|].
  apply writes_seq;
    [apply writes_whenSome; intros a _; apply writes_writeString|].
  apply writes_seq;
    [apply writes_whenSome; intros a _; apply writes_writeString|].
  - apply (writes_forEach (seq 0 6)
             (fun i => whenSome (at_ (emotes d) i) (writeToStream Emotes))
             (fun i => encOpt (encDef Emotes) (at_ (emotes d) i))).
    intros i Hi. apply writes_whenSome. intros e He.
    apply writes_writeToStream. apply (Hemotes i); [|exact He].
    apply in_seq in Hi. lia.
Qed.

(** The loop that reads the emotes, on the bytes the loop that writes
    them produced. *)
Lemma reads_emotes (emotes : list (option ObjectDefinition)) flags range :
  Z.of_nat (length Emotes) <= 2 ^ 32 ->
  (forall i, In i range -> flag i flags = isSome (at_ emotes i)) ->
  (forall i e, In i range -> at_ emotes i = Some e -> In e Emotes) ->
  forall arr,
  reads (foldLoop range
           (fun arr i =>
              if flag i flags
              then e <- readFromStream Emotes ;; ret (setAt i (Some e) arr)
              else ret arr)
           arr)
        (concat (map (fun i => encOpt (encDef Emotes) (at_ emotes i)) range))
        (fold_left (fun arr i =>
                      match at_ emotes i with
                      | Some e => setAt i (Some e) arr
                      | None => arr
                      end) range arr).
Proof.
  intros Hsize. induction range as [|i r IH]; intros Hflag Hin arr.
  - apply reads_ret.
  - cbn [foldLoop map concat fold_left].
    assert (Hf' : forall j, In j r -> flag j flags = isSome (at_ emotes j))
      by (intros j Hj; apply Hflag; now right).
    assert (Hin' : forall j e', In j r -> at_ emotes j = Some e' -> In e' Emotes)
      by (intros j e' Hj; apply Hin; now right).
    rewrite (Hflag i) by now left.
    destruct (at_ emotes i) as [e|] eqn:He; cbn [isSome encOpt].
    + eapply reads_bind; [|apply (IH Hf' Hin')].
      apply (reads_map _ (fun e => setAt i (Some e) arr)).
      apply reads_readFromStream; [|exact Hsize].
      apply (Hin i); [now left | exact He].
    + eapply (reads_bind _ _ []); [apply reads_ret | apply (IH Hf' Hin')].
Qed.

Lemma join_emotes_array (emotes : list (option ObjectDefinition)) :
  fold_left (fun arr i =>
               match at_ emotes i with
               | Some e => setAt i (Some e) arr
               | None => arr
               end) (seq 0 6) (repeat None 8)
  = map (at_ emotes) (seq 0 6) ++ [None; None].
Proof.
  cbn [seq map fold_left repeat app].
  destruct (at_ emotes 0), (at_ emotes 1), (at_ emotes 2),
           (at_ emotes 3), (at_ emotes 4), (at_ emotes 5); reflexivity.
Qed.

Lemma join_reads d :
  Layout.contentValid Loots Badges Emotes nameMaxLength ->
  Layout.joinMember Loots Badges Emotes d ->
  reads (deserialize Loots Badges Emotes nameMaxLength)
        (Layout.join Loots Badges Emotes protocolVersionConstant nameMaxLength d)
        (Layout.joinDecoded protocolVersionConstant nameMaxLength d).
Proof.
  intros (HL & HB & HE & HN) (Hskin & Hbadge & Hemotes).
  unfold deserialize, Layout.join, Layout.joinDecoded.
  eapply reads_bind;
    [apply (reads_readBooleanGroup2 (Layout.joinFlags d))|].
  cbv beta zeta.
  change (firstn 16 (Layout.joinFlags d)) with (Layout.joinFlags d).
  set (flags := unpackBits 16 (packBits (Layout.joinFlags d))).
  assert (Hf : forall k, (k < 16)%nat ->
               flag k flags = nth k (Layout.joinFlags d) false)
    by (intros k Hk; apply flag_unpack_pack; exact Hk).
  rewrite (Hf 0%nat), (Hf 1%nat), (Hf 2%nat), (Hf 3%nat) by lia.
  cbn [Layout.joinFlags nth].
  eapply reads_bind; [apply (reads_readUintN 2)|].
  eapply reads_bind; [apply reads_readString; exact HN|].
  eapply reads_bind; [apply reads_readFromStream; assumption|].
  eapply reads_bind.
  { apply (reads_readIf_same (badge d) (readFromStream Badges) (encDef Badges)).
    intros b Hb. apply reads_readFromStream; auto. }
  eapply reads_bind.
  { apply (reads_readIf_opt (authToken d) (readString 256) (encString 256)
                            (truncate 256)).
    intros a _. apply reads_readString. reflexivity. }
  eapply reads_bind.
  { apply (reads_readIf_opt (studentId d) (readString 64) (encString 64)
                            (truncate 64)).
    intros a _. apply reads_readString. reflexivity. }
  rewrite <- (app_nil_r (concat _)).
  eapply reads_bind.
  { apply (reads_emotes (emotes d)); [exact HE | |].
    - intros i Hi. rewrite flag_skipn, Hf by (apply in_seq in Hi; lia).
      apply in_seq_0_6 in Hi.
      destruct Hi as [->|[->|[->|[->|[->| ->]]]]]; reflexivity.
    - intros i e Hi. apply Hemotes. apply in_seq in Hi. lia. }
  cbv beta. rewrite join_emotes_array. apply reads_ret.
Qed.

Lemma join_valid_decoded d :
  Layout.joinValid Loots Badges Emotes nameMaxLength d ->
  Layout.joinDecoded protocolVersionConstant nameMaxLength d
  = {| protocolVersion := protocolVersionConstant mod 65536;
       fields :=
         {| name := Sanitize.sanitize (name d);
            isMobile := isMobile d;
            skin := skin d;
            badge := badge d;
            emotes := map (at_ (emotes d)) (seq 0 6) ++ [None; None];
            authToken := authToken d;
            studentId := studentId d |} |}.
Proof.
  intros (_ & Hn & Ha & Hs). unfold Layout.joinDecoded.
  rewrite truncate_short by exact Hn.
  destruct (authToken d) as [a|], (studentId d) as [s|];
    cbn [option_map Layout.fitsIn] in *;
    rewrite ?truncate_short by assumption; reflexivity.
Qed.

End JoinPacketFacts.

(** ** Sanitizing a name *)

Module SanitizeFacts.

Import Sanitize NameSpec.
#[local] Open Scope char_scope.

Lemma settled_nil : settled [].
Proof. intros [|? ?] post H; discriminate. Qed.

Lemma settled_cons c t :
  settled t ->
  (c = "<" -> (exists r, t = ">" :: r) \/ ~ In ">" t) ->
  settled (c :: t).
Proof.
  intros Ht Hc [|p pre] post H; injection H as -> ->.
  - now apply Hc.
  - now apply (Ht pre).
Qed.

Lemma settled_app a b : settled (a ++ b) -> settled a /\ settled b.
Proof.
  intros H. split.
  - intros pre post ->.
    destruct (H pre (post ++ b)) as [[r Hr]|Hno].
    + now rewrite <- app_assoc.
    + destruct post as [|c post]; [right; tauto|].
      injection Hr as -> _. left. eauto.
    + right. intros Hin. apply Hno, in_or_app. now left.
  - intros pre post ->. apply (H (a ++ pre)). now rewrite <- app_assoc.
Qed.

Lemma settled_no_markup s : settled s -> ~ markupIn s.
Proof.
  intros Hs (pre & mid & post & -> & Hne & Hno).
  destruct (Hs pre _ eq_refl) as [[r Hr]|Hn].
  - destruct mid as [|c mid]; [congruence|].
    injection Hr as -> _. apply Hno. now left.
  - apply Hn, in_or_app. right. now left.
Qed.

Lemma afterGt_None s : afterGt s = None -> ~ In ">" s.
Proof.
  induction s as [|c r IH]; cbn [afterGt]; [tauto|].
  destruct (Ascii.eqb c ">") eqn:E; [discriminate|].
  apply Ascii.eqb_neq in E. intros H [Hc|Hin]; [congruence | now apply IH].
Qed.

Lemma afterGt_length s r : afterGt s = Some r -> (length r < length s)%nat.
Proof.
  revert r. induction s as [|c t IH]; cbn [afterGt]; intros r; [discriminate|].
  destruct (Ascii.eqb c ">").
  - intros [= ->]. simpl. lia.
  - intros H. apply IH in H. simpl. lia.
Qed.

Lemma no_gt_afterGt s : ~ In ">" s -> afterGt s = None.
Proof.
  induction s as [|c r IH]; cbn [afterGt]; [reflexivity|].
  intros H. destruct (Ascii.eqb c ">") eqn:E.
  - apply Ascii.eqb_eq in E. exfalso. apply H. now left.
  - apply IH. intros Hin. apply H. now right.
Qed.

Lemma matchTag_length s r : matchTag s = Some r -> (length r < length s)%nat.
Proof.
  destruct s as [|c [|d t]]; cbn [matchTag]; try discriminate.
  destruct (Ascii.eqb c "<" && negb (Ascii.eqb d ">")); [|discriminate].
  intros H. apply afterGt_length in H. simpl. lia.
Qed.

Lemma no_gt_matchTag s : ~ In ">" s -> matchTag s = None.
Proof.
  destruct s as [|c [|d t]]; cbn [matchTag]; try reflexivity.
  intros H. destruct (Ascii.eqb c "<" && negb (Ascii.eqb d ">")); [|reflexivity].
  apply no_gt_afterGt. intros Hin. apply H. right. now right.
Qed.

(** Where there is no ['>'] there is nothing to strip. *)
Lemma stripTagsFrom_no_gt n s : ~ In ">" s -> stripTagsFrom n s = s.
Proof.
  revert s. induction n as [|n IH]; intros s H; cbn [stripTagsFrom];
    [reflexivity|].
  rewrite no_gt_matchTag by exact H.
  destruct s as [|c r]; [reflexivity|].
  f_equal. apply IH. intros Hin. apply H. now right.
Qed.

Lemma stripTagsFrom_gt n r :
  exists t, stripTagsFrom (S n) (">" :: r) = ">" :: t.
Proof.
  cbn [stripTagsFrom]. destruct r as [|d t]; cbn [matchTag]; eauto.
Qed.

Lemma stripTagsFrom_settled n :
  forall s, (length s <= n)%nat -> settled (stripTagsFrom n s).
Proof.
  induction n as [|n IH]; intros s Hlen.
  - destruct s; [apply settled_nil | simpl in Hlen; lia].
  - cbn [stripTagsFrom]. destruct (matchTag s) as [rest|] eqn:Hm.
    + apply IH. apply matchTag_length in Hm. lia.
    + destruct s as [|c r]; [apply settled_nil|].
      simpl in Hlen. apply settled_cons; [apply IH; lia|].
      intros ->. destruct r as [|d t].
      * right. destruct n; simpl; tauto.
      * cbn [matchTag] in Hm. rewrite Ascii.eqb_refl in Hm.
        destruct (Ascii.eqb d ">") eqn:Ed; cbn [negb andb] in Hm.
        -- apply Ascii.eqb_eq in Ed. subst d. left.
           destruct n as [|n]; [simpl in Hlen; lia|].
           apply stripTagsFrom_gt.
        -- right. apply Ascii.eqb_neq in Ed. apply afterGt_None in Hm.
           assert (Hno : ~ In ">" (d :: t))
             by (intros [Hd|Hin]; [congruence | tauto]).
           now rewrite stripTagsFrom_no_gt.
Qed.

Lemma stripTags_settled s : settled (stripTags s).
Proof. apply stripTagsFrom_settled. lia. Qed.

(** *** Trimming *)

Lemma stripPrefix_Some p s r : stripPrefix p s = Some r -> s = p ++ r.
Proof.
  revert s. induction p as [|a p IH]; intros s; cbn [stripPrefix].
  - now intros [= ->].
  - destruct s as [|b s]; [discriminate|].
    destruct (Ascii.eqb a b) eqn:E; [|discriminate].
    apply Ascii.eqb_eq in E. subst b. intros H. simpl. f_equal. now apply IH.
Qed.

Lemma stripPrefix_app p r : stripPrefix p (p ++ r) = Some r.
Proof.
  induction p as [|a p IH]; cbn [stripPrefix app]; [reflexivity|].
  now rewrite Ascii.eqb_refl.
Qed.

Lemma stripOne_Some units s r :
  stripOne units s = Some r -> exists w, In w units /\ s = w ++ r.
Proof.
  induction units as [|u us IH]; cbn [stripOne]; [discriminate|].
  destruct (stripPrefix u s) as [r'|] eqn:E.
  - intros [= ->]. exists u. split; [now left | now apply stripPrefix_Some].
  - intros H. destruct (IH H) as (w & Hw & Hs). exists w. split; [now right | exact Hs].
Qed.

Lemma stripOne_None units s :
  stripOne units s = None -> forall w r, In w units -> s <> w ++ r.
Proof.
  induction units as [|u us IH]; cbn [stripOne]; intros H w r Hin Hs; [destruct Hin|].
  destruct (stripPrefix u s) as [r'|] eqn:E; [discriminate|].
  destruct Hin as [->|Hin].
  - rewrite Hs, stripPrefix_app in E. discriminate.
  - now apply (IH H w r).
Qed.

Lemma trimFrom_suffix units n s : exists pre, s = pre ++ trimFrom units n s.
Proof.
  revert s. induction n as [|n IH]; intros s; cbn [trimFrom].
  - now exists [].
  - destruct (stripOne units s) as [r|] eqn:E; [|now exists []].
    destruct (stripOne_Some _ _ _ E) as (w & _ & ->).
    destruct (IH r) as [pre Hpre]. exists (w ++ pre).
    rewrite <- app_assoc. now f_equal.
Qed.

Lemma trimFrom_done units :
  (forall w, In w units -> w <> []) ->
  forall n s, (length s <= n)%nat -> stripOne units (trimFrom units n s) = None.
Proof.
  intros Hne. induction n as [|n IH]; intros s Hlen; cbn [trimFrom].
  - destruct s; [|simpl in Hlen; lia].
    destruct (stripOne units []) as [r|] eqn:E; [|reflexivity].
    destruct (stripOne_Some _ _ _ E) as (w & Hw & Hs).
    destruct w; [now apply Hne in Hw | discriminate].
  - destruct (stripOne units s) as [r|] eqn:E; [|exact E].
    apply IH. destruct (stripOne_Some _ _ _ E) as (w & Hw & ->).
    rewrite length_app in Hlen.
    destruct w; [now apply Hne in Hw | simpl in Hlen; lia].
Qed.

Lemma whiteSpace_nonempty w : In w whiteSpace -> w <> [].
Proof.
  unfold whiteSpace. cbn [In].
  intros H; repeat (destruct H as [<-|H]; [discriminate|]); destruct H.
Qed.

Lemma rev_whiteSpace_nonempty w : In w (map (@rev ascii) whiteSpace) -> w <> [].
Proof.
  intros H. apply in_map_iff in H. destruct H as (u & <- & Hu).
  apply whiteSpace_nonempty in Hu. intros E. apply Hu.
  now rewrite <- (rev_involutive u), E.
Qed.

Lemma trimStart_suffix s : exists pre, s = pre ++ trimStart s.
Proof. apply trimFrom_suffix. Qed.

Lemma trimEnd_prefix s : exists post, s = trimEnd s ++ post.
Proof.
  unfold trimEnd.
  destruct (trimFrom_suffix (map (@rev ascii) whiteSpace) (length s) (rev s))
    as [pre Hpre].
  exists (rev pre). rewrite <- rev_app_distr, <- Hpre. now rewrite rev_involutive.
Qed.

Lemma trimStart_no_space s w r : In w whiteSpace -> trimStart s <> w ++ r.
Proof.
  intros Hw. refine (stripOne_None _ _ _ w r Hw). unfold trimStart.
  apply trimFrom_done; [exact whiteSpace_nonempty | lia].
Qed.

Lemma trimEnd_no_space s w r : In w whiteSpace -> trimEnd s <> r ++ w.
Proof.
  intros Hw E. unfold trimEnd in E.
  apply (f_equal (@rev ascii)) in E.
  rewrite rev_involutive, rev_app_distr in E.
  refine (stripOne_None _ _ _ (rev w) (rev r) _ E);
    [|apply (in_map (@rev ascii)); exact Hw].
  apply trimFrom_done; [exact rev_whiteSpace_nonempty | rewrite length_rev; lia].
Qed.

Lemma trim_no_leading_space s w r : In w whiteSpace -> trim s <> w ++ r.
Proof.
  intros Hw E. unfold trim in *.
  destruct (trimEnd_prefix (trimStart s)) as [post Hpost].
  rewrite E, <- app_assoc in Hpost.
  now apply (trimStart_no_space s w (r ++ post)).
Qed.

Lemma trim_no_trailing_space s w r : In w whiteSpace -> trim s <> r ++ w.
Proof. apply trimEnd_no_space. Qed.

Lemma trim_settled s : settled s -> settled (trim s).
Proof.
  intros H. unfold trim.
  destruct (trimStart_suffix s) as [pre Hpre].
  destruct (trimEnd_prefix (trimStart s)) as [post Hpost].
  rewrite Hpre in H. apply settled_app in H as [_ H].
  rewrite Hpost in H. now apply settled_app in H as [H _].
Qed.

(** The three properties of a sanitized name. *)
Lemma sanitize_clean name : clean (sanitize name).
Proof.
  unfold clean, hasMarkup, startsWithSpace, endsWithSpace, sanitize.
  rewrite list_ascii_of_string_of_list_ascii.
  repeat split.
  - apply settled_no_markup, trim_settled, stripTags_settled.
  - intros (w & r & Hw & E). exact (trim_no_leading_space _ w r Hw E).
  - intros (w & r & Hw & E). exact (trim_no_trailing_space _ w r Hw E).
Qed.

(** *** Clean names are left alone *)

Lemma afterGt_Some s r :
  afterGt s = Some r -> exists pre, s = pre ++ ">" :: r /\ ~ In ">" pre.
Proof.
  revert r. induction s as [|c t IH]; cbn [afterGt]; intros r; [discriminate|].
  destruct (Ascii.eqb c ">") eqn:E.
  - apply Ascii.eqb_eq in E. subst c. intros [= ->]. exists []. auto.
  - apply Ascii.eqb_neq in E. intros H.
    destruct (IH _ H) as (pre & -> & Hno). exists (c :: pre).
    split; [reflexivity|]. intros [Hc|Hin]; [congruence | tauto].
Qed.

Lemma matchTag_markup t rest : matchTag t = Some rest -> markupIn t.
Proof.
  destruct t as [|c [|d r]]; cbn [matchTag]; try discriminate.
  destruct (Ascii.eqb c "<") eqn:Ec; [|discriminate].
  destruct (Ascii.eqb d ">") eqn:Ed; cbn [negb andb]; [discriminate|].
  apply Ascii.eqb_eq in Ec. apply Ascii.eqb_neq in Ed. subst c.
  intros H. destruct (afterGt_Some _ _ H) as (pre & -> & Hno).
  exists [], (d :: pre), rest. repeat split; [discriminate|].
  intros [Hd|Hin]; [congruence | tauto].
Qed.

Lemma markupIn_cons c t : markupIn t -> markupIn (c :: t).
Proof.
  intros (pre & mid & post & -> & H). exists (c :: pre), mid, post.
  split; [reflexivity | exact H].
Qed.

Lemma stripTagsFrom_id n : forall t, ~ markupIn t -> stripTagsFrom n t = t.
Proof.
  induction n as [|n IH]; intros t H; cbn [stripTagsFrom]; [reflexivity|].
  destruct (matchTag t) as [rest|] eqn:E.
  - exfalso. apply H. exact (matchTag_markup _ _ E).
  - destruct t as [|c r]; [reflexivity|]. f_equal. apply IH.
    intros Hm. apply H. now apply markupIn_cons.
Qed.

Lemma stripOne_none units s :
  (forall w r, In w units -> s <> w ++ r) -> stripOne units s = None.
Proof.
  intros H. destruct (stripOne units s) as [r|] eqn:E; [|reflexivity].
  destruct (stripOne_Some _ _ _ E) as (w & Hw & Hs).
  exfalso. exact (H w r Hw Hs).
Qed.

Lemma trimFrom_id units n s : stripOne units s = None -> trimFrom units n s = s.
Proof. intros H. destruct n; cbn [trimFrom]; [reflexivity | now rewrite H]. Qed.

Lemma trim_id s : ~ leadingSpace s -> ~ trailingSpace s -> trim s = s.
Proof.
  intros Hl Ht. unfold trim, trimStart.
  rewrite trimFrom_id.
  - unfold trimEnd. rewrite trimFrom_id; [apply rev_involutive|].
    apply stripOne_none. intros w' r Hw' E.
    apply in_map_iff in Hw' as (w & <- & Hw).
    apply Ht. exists w, (rev r). split; [exact Hw|].
    now rewrite <- (rev_involutive s), E, rev_app_distr, rev_involutive.
  - apply stripOne_none. intros w r Hw E. apply Hl. now exists w, r.
Qed.

Lemma sanitize_id name : clean name -> sanitize name = name.
Proof.
  intros (Hm & Hl & Ht). unfold sanitize, stripTags.
  rewrite stripTagsFrom_id by exact Hm.
  rewrite trim_id by assumption.
  apply string_of_list_ascii_of_string.
Qed.

End SanitizeFacts.

(** ** Decoding arbitrary input *)

Section DecodeFacts.

Lemma bind_OK {A B} (m : M A) (k : A -> M B) s r :
  bind m k s = OK r -> exists a s1, m s = OK (a, s1) /\ k a s1 = OK r.
Proof.
  unfold bind. destruct (m s) as [[a s1]|e]; [eauto | discriminate].
Qed.

Lemma bind_Err {A B} (m : M A) (k : A -> M B) s e :
  bind m k s = Err e ->
  m s = Err e \/ exists a s1, m s = OK (a, s1) /\ k a s1 = Err e.
Proof.
  unfold bind. destruct (m s) as [[a s1]|e']; [eauto|].
  intros [= ->]. now left.
Qed.

Lemma readBytes_OK n s bs s' :
  readBytes n s = OK (bs, s') ->
  buffer s' = buffer s /\ index s' = (index s + n)%nat
  /\ (index s' <= length (buffer s'))%nat.
Proof.
  unfold readBytes.
  destruct (index s + n <=? length (buffer s))%nat eqn:E; [|discriminate].
  apply Nat.leb_le in E. intros [= _ <-]. simpl. auto.
Qed.

Lemma readUintN_OK width s v s' :
  readUintN width s = OK (v, s') ->
  buffer s' = buffer s /\ index s' = (index s + width)%nat
  /\ (index s' <= length (buffer s'))%nat.
Proof.
  unfold readUintN. intros H.
  apply bind_OK in H as (bs & s1 & Hb & Hr).
  injection Hr as _ <-. now apply readBytes_OK in Hb.
Qed.

Lemma readIf_OK {A} (c : bool) (m : M A) s o s' :
  readIf c m s = OK (o, s') ->
  isSome o = c
  /\ (if c then exists a, o = Some a /\ m s = OK (a, s')
      else o = None /\ s' = s).
Proof.
  unfold readIf. destruct c.
  - intros H. apply bind_OK in H as (a & s1 & Hm & Hr).
    injection Hr as <- <-. simpl. eauto.
  - intros [= <- <-]. auto.
Qed.

Lemma length_string_of_list_byte bs :
  String.length (string_of_list_byte bs) = length bs.
Proof.
  rewrite <- length_list_byte_of_string.
  now rewrite list_byte_of_string_of_list_byte.
Qed.

(** A string read moves the cursor by its length prefix and by its
    bytes. *)
Lemma readString_OK maxLength s str s' :
  readString maxLength s = OK (str, s') ->
  buffer s' = buffer s
  /\ index s' = (index s + widthFor (Z.of_nat maxLength + 1)
                 + String.length str)%nat.
Proof.
  unfold readString. intros H.
  apply bind_OK in H as (len & s1 & Hl & H).
  apply bind_OK in H as (bs & s2 & Hb & H).
  injection H as <- <-.
  apply readUintN_OK in Hl as (Hb1 & Hi1 & _).
  unfold readBytes in Hb.
  destruct (index s1 + Z.to_nat len <=? length (buffer s1))%nat eqn:E;
    [|discriminate].
  apply Nat.leb_le in E. injection Hb as <- <-. cbn [buffer index].
  rewrite length_string_of_list_byte, length_firstn, length_skipn.
  split; [exact Hb1 | lia].
Qed.

(** A reference read moves the cursor by the width of its registry. *)
Lemma readFromStream_OK reg s d s' :
  readFromStream reg s = OK (d, s') ->
  buffer s' = buffer s /\ index s' = (index s + registryWidth reg)%nat.
Proof.
  unfold readFromStream. intros H.
  apply bind_OK in H as (i & s1 & Hi & H).
  destruct (nth_error reg (Z.to_nat i)); [|discriminate].
  injection H as _ <-.
  apply readUintN_OK in Hi as (Hb & Hx & _). auto.
Qed.

Lemma advances_ret {A} (a : A) : advances (ret a) 0.
Proof. intros s a' s' Hwf [= _ <-]. repeat split; [lia | exact Hwf]. Qed.

Lemma advances_bind {A B} (m : M A) (k : A -> M B) n1 n2 :
  advances m n1 -> (forall a, advances (k a) n2) ->
  advances (bind m k) (n1 + n2).
Proof.
  intros H1 H2 s b s' Hwf H.
  apply bind_OK in H as (a & s1 & Hm & Hk).
  destruct (H1 _ _ _ Hwf Hm) as (Hb1 & Hi1 & Hwf1).
  destruct (H2 a _ _ _ Hwf1 Hk) as (Hb2 & Hi2 & Hwf2).
  repeat split; [congruence | lia | exact Hwf2].
Qed.

Lemma advances_weaken {A} (m : M A) n n' :
  advances m n -> (n' <= n)%nat -> advances m n'.
Proof.
  intros H Hle s a s' Hwf Hm.
  destruct (H _ _ _ Hwf Hm) as (Hb & Hi & Hw). repeat split; [exact Hb | lia | exact Hw].
Qed.

Lemma advances_readBytes n : advances (readBytes n) n.
Proof.
  intros s bs s' _ H. apply readBytes_OK in H as (Hb & Hi & Hw).
  unfold wf. repeat split; [exact Hb | lia | exact Hw].
Qed.

Lemma advances_readUintN width : advances (readUintN width) width.
Proof.
  intros s v s' _ H. apply readUintN_OK in H as (Hb & Hi & Hw).
  unfold wf. repeat split; [exact Hb | lia | exact Hw].
Qed.

Lemma advances_readInt16 : advances readInt16 2.
Proof.
  unfold readInt16. apply (advances_bind _ _ 2 0).
  - apply advances_readUintN.
  - intros u. apply advances_ret.
Qed.

Lemma advances_readString maxLength :
  advances (readString maxLength) (widthFor (Z.of_nat maxLength + 1)).
Proof.
  unfold readString.
  apply (advances_weaken _ (widthFor (Z.of_nat maxLength + 1) + 0)); [|lia].
  apply advances_bind; [apply advances_readUintN|].
  intros len. apply (advances_bind _ _ 0 0).
  - apply (advances_weaken _ (Z.to_nat len)); [apply advances_readBytes | lia].
  - intros bs. apply advances_ret.
Qed.

Lemma advances_readBooleanGroup : advances readBooleanGroup 1.
Proof.
  unfold readBooleanGroup. apply (advances_bind _ _ 1 0).
  - apply (advances_readUintN 1).
  - intros v. apply advances_ret.
Qed.

Lemma advances_readBooleanGroup2 : advances readBooleanGroup2 2.
Proof.
  unfold readBooleanGroup2. apply (advances_bind _ _ 2 0).
  - apply (advances_readUintN 2).
  - intros v. apply advances_ret.
Qed.

Lemma advances_readIf {A} (c : bool) (m : M A) n :
  advances m n -> advances (readIf c m) 0.
Proof.
  intros H. unfold readIf. destruct c; [|apply advances_ret].
  apply (advances_bind _ _ 0 0).
  - apply (advances_weaken _ n); [exact H | lia].
  - intros a. apply advances_ret.
Qed.

Lemma truncOnly_ret {A} (a : A) : truncOnly (ret a).
Proof. intros s e H. discriminate. Qed.

Lemma truncOnly_bind {A B} (m : M A) (k : A -> M B) :
  truncOnly m -> (forall a, truncOnly (k a)) -> truncOnly (bind m k).
Proof.
  intros H1 H2 s e H.
  apply bind_Err in H as [H|(a & s1 & _ & H)]; [now apply (H1 s) | now apply (H2 a s1)].
Qed.

Lemma truncOnly_readBytes n : truncOnly (readBytes n).
Proof.
  intros s e. unfold readBytes.
  destruct (index s + n <=? length (buffer s))%nat; [discriminate|].
  now intros [= <-].
Qed.

Lemma truncOnly_readUintN width : truncOnly (readUintN width).
Proof.
  apply truncOnly_bind; [apply truncOnly_readBytes|].
  intros bs. apply truncOnly_ret.
Qed.

Lemma truncOnly_readInt16 : truncOnly readInt16.
Proof.
  apply truncOnly_bind; [apply truncOnly_readUintN|].
  intros u. apply truncOnly_ret.
Qed.

Lemma truncOnly_readString maxLength : truncOnly (readString maxLength).
Proof.
  apply truncOnly_bind; [apply truncOnly_readUintN|].
  intros len. apply truncOnly_bind; [apply truncOnly_readBytes|].
  intros bs. apply truncOnly_ret.
Qed.

Lemma truncOnly_readBooleanGroup : truncOnly readBooleanGroup.
Proof.
  apply truncOnly_bind; [apply truncOnly_readUintN|].
  intros v. apply truncOnly_ret.
Qed.

Lemma truncOnly_readBooleanGroup2 : truncOnly readBooleanGroup2.
Proof.
  apply truncOnly_bind; [apply truncOnly_readUintN|].
  intros v. apply truncOnly_ret.
Qed.

Lemma truncOnly_readIf {A} (c : bool) (m : M A) :
  truncOnly m -> truncOnly (readIf c m).
Proof.
  intros H. unfold readIf. destruct c; [|apply truncOnly_ret].
  apply truncOnly_bind; [exact H|]. intros a. apply truncOnly_ret.
Qed.

(** A decoder that needs [n] bytes and knows no other error fails
    with Truncated on every shorter input. *)
Lemma short_input_truncated {A} (m : M A) n bs :
  advances m n -> truncOnly m -> (length bs < n)%nat ->
  m (fromBytes bs) = Err Truncated.
Proof.
  intros Ha Ht Hlen.
  destruct (m (fromBytes bs)) as [[a s']|e] eqn:E.
  - destruct (Ha _ _ _ (wf_fromBytes bs) E) as (Hb & Hi & Hw).
    unfold wf in Hw. rewrite Hb in Hw. simpl in *. lia.
  - f_equal. now apply (Ht (fromBytes bs)).
Qed.

Lemma mathProblem_advances : advances MathProblemPacket.deserialize 5.
Proof.
  unfold MathProblemPacket.deserialize.
  apply (advances_bind _ _ 1 4); [apply (advances_readString 32)|]. intros p.
  apply (advances_bind _ _ 1 3); [apply (advances_readString 32)|]. intros r.
  apply (advances_bind _ _ 1 2); [apply (advances_readUintN 1)|]. intros c.
  apply (advances_bind _ _ 2 0); [apply (advances_readUintN 2)|]. intros i.
  apply advances_ret.
Qed.

Lemma mathProblem_truncOnly : truncOnly MathProblemPacket.deserialize.
Proof.
  unfold MathProblemPacket.deserialize.
  repeat (apply truncOnly_bind;
          [first [apply truncOnly_readString | apply truncOnly_readUintN]|];
          intros ?).
  apply truncOnly_ret.
Qed.

Lemma mathAnswer_advances : advances MathAnswerPacket.deserialize 4.
Proof.
  unfold MathAnswerPacket.deserialize.
  apply (advances_bind _ _ 2 2); [apply advances_readInt16|]. intros a.
  apply (advances_bind _ _ 2 0); [apply (advances_readUintN 2)|]. intros i.
  apply advances_ret.
Qed.

Lemma mathAnswer_truncOnly : truncOnly MathAnswerPacket.deserialize.
Proof.
  unfold MathAnswerPacket.deserialize.
  apply truncOnly_bind; [apply truncOnly_readInt16|]. intros a.
  apply truncOnly_bind; [apply truncOnly_readUintN|]. intros i.
  apply truncOnly_ret.
Qed.

Lemma mathFeedback_advances : advances MathFeedbackPacket.deserialize 3.
Proof.
  unfold MathFeedbackPacket.deserialize.
  apply (advances_bind _ _ 1 2); [apply advances_readBooleanGroup|].
  intros flags. cbv zeta.
  apply (advances_bind _ _ 2 0); [apply (advances_readUintN 2)|]. intros i.
  apply (advances_bind _ _ 0 0);
    [apply (advances_readIf _ _ 2), (advances_readUintN 2)|]. intros x.
  apply (advances_bind _ _ 0 0);
    [apply (advances_readIf _ _ 4), (advances_readUintN 4)|]. intros t.
  apply advances_ret.
Qed.

Lemma mathFeedback_truncOnly : truncOnly MathFeedbackPacket.deserialize.
Proof.
  unfold MathFeedbackPacket.deserialize.
  apply truncOnly_bind; [apply truncOnly_readBooleanGroup|].
  intros flags. cbv zeta.
  apply truncOnly_bind; [apply truncOnly_readUintN|]. intros i.
  apply truncOnly_bind; [apply truncOnly_readIf, truncOnly_readUintN|]. intros x.
  apply truncOnly_bind; [apply truncOnly_readIf, truncOnly_readUintN|]. intros t.
  apply truncOnly_ret.
Qed.

(** The feedback decoder reads its boolean group first, then the
    fields the flags announce, and nothing else. *)
Lemma mathFeedback_deserialize_inv s d s' :
  MathFeedbackPacket.deserialize s = OK (d, s') ->
  exists flags s1,
    readBooleanGroup s = OK (flags, s1)
    /\ MathFeedbackPacket.isCorrect d = flag 0 flags
    /\ isSome (MathFeedbackPacket.xpEarned d) = flag 1 flags
    /\ isSome (MathFeedbackPacket.totalXP d) = flag 2 flags
    /\ index s' = (index s + 1 + 2
                   + (if flag 1 flags then 2 else 0)
                   + (if flag 2 flags then 4 else 0))%nat.
Proof.
  unfold MathFeedbackPacket.deserialize. intros H.
  apply bind_OK in H as (flags & s1 & Hf & H). cbv zeta in H.
  apply bind_OK in H as (i & s2 & Hi & H).
  apply bind_OK in H as (x & s3 & Hx & H).
  apply bind_OK in H as (t & s4 & Ht & H).
  injection H as <- <-. cbn [MathFeedbackPacket.isCorrect
    MathFeedbackPacket.xpEarned MathFeedbackPacket.totalXP].
  exists flags, s1. split; [exact Hf|].
  pose proof Hf as Hf'. unfold readBooleanGroup in Hf'.
  apply bind_OK in Hf' as (v & s1' & Hv & Hr). injection Hr as _ <-.
  apply readUintN_OK in Hv as (_ & Hi1 & _).
  apply readUintN_OK in Hi as (_ & Hi2 & _).
  apply readIf_OK in Hx as (Hx1 & Hx2).
  apply readIf_OK in Ht as (Ht1 & Ht2).
  repeat split; try assumption.
  destruct (flag 1 flags), (flag 2 flags).
  - destruct Hx2 as (a & _ & Ha), Ht2 as (b & _ & Hb).
    apply readUintN_OK in Ha as (_ & Ha & _).
    apply readUintN_OK in Hb as (_ & Hb & _). lia.
  - destruct Hx2 as (a & _ & Ha), Ht2 as (_ & Hb). subst s4.
    apply readUintN_OK in Ha as (_ & Ha & _). lia.
  - destruct Hx2 as (_ & Ha), Ht2 as (b & _ & Hb). subst s3.
    apply readUintN_OK in Hb as (_ & Hb & _). lia.
  - destruct Hx2 as (_ & Ha), Ht2 as (_ & Hb). subst. lia.
Qed.

End DecodeFacts.

Section JoinDecodeFacts.

Import JoinPacket.

Variables Loots Badges Emotes : Registry.
Variable nameMaxLength : nat.

Lemma emoteStep_inv flags i (arr : list (option ObjectDefinition)) s arr' s' :
  (if flag i flags
   then e <- readFromStream Emotes ;; ret (setAt i (Some e) arr)
   else ret arr) s = OK (arr', s') ->
  exists o, isSome o = flag i flags
            /\ arr' = match o with
                      | Some e => setAt i (Some e) arr
                      | None => arr
                      end
            /\ index s' = (index s + if flag i flags
                                     then registryWidth Emotes else 0)%nat.
Proof.
  destruct (flag i flags).
  - intros H. apply bind_OK in H as (e & s1 & He & H).
    injection H as <- <-. apply readFromStream_OK in He as (_ & He).
    now exists (Some e).
  - intros [= <- <-]. exists None. repeat split. lia.
Qed.

(** The emotes of a decoded join packet: an array of eight, the
    first six present as their flags say, the last two absent. *)
Lemma emoteLoop_inv flags s arr s' :
  foldLoop (seq 0 6)
    (fun arr i =>
       if flag i flags
       then e <- readFromStream Emotes ;; ret (setAt i (Some e) arr)
       else ret arr)
    (repeat None 8) s = OK (arr, s') ->
  length arr = 8%nat
  /\ (forall i, (i < 6)%nat -> isSome (at_ arr i) = flag i flags)
  /\ at_ arr 6 = None /\ at_ arr 7 = None
  /\ index s' = (index s + registryWidth Emotes
                           * length (filter (fun i => flag i flags)
                                            (seq 0 6)))%nat.
Proof.
  cbn [seq foldLoop filter]. intros H.
  apply bind_OK in H as (a1 & s1 & H0 & H).
  apply bind_OK in H as (a2 & s2 & H1 & H).
  apply bind_OK in H as (a3 & s3 & H2 & H).
  apply bind_OK in H as (a4 & s4 & H3 & H).
  apply bind_OK in H as (a5 & s5 & H4 & H).
  apply bind_OK in H as (a6 & s6 & H5 & H).
  injection H as <- <-.
  apply emoteStep_inv in H0 as (o0 & F0 & -> & I0).
  apply emoteStep_inv in H1 as (o1 & F1 & -> & I1).
  apply emoteStep_inv in H2 as (o2 & F2 & -> & I2).
  apply emoteStep_inv in H3 as (o3 & F3 & -> & I3).
  apply emoteStep_inv in H4 as (o4 & F4 & -> & I4).
  apply emoteStep_inv in H5 as (o5 & F5 & -> & I5).
  match goal with
  | |- length ?a = _ /\ _ => replace a with [o0; o1; o2; o3; o4; o5; None; None]
      by (destruct o0, o1, o2, o3, o4, o5; reflexivity)
  end.
  split; [reflexivity|]. split; [|split; [reflexivity|split; [reflexivity|]]].
  - intros i Hi.
    destruct i as [|[|[|[|[|[|i]]]]]]; cbn [at_ nth]; try assumption; lia.
  - rewrite I5, I4, I3, I2, I1, I0. clear.
    destruct (flag 0 flags), (flag 1 flags), (flag 2 flags),
             (flag 3 flags), (flag 4 flags), (flag 5 flags);
      cbn [length]; lia.
Qed.

(** What a decoded join packet owes to the boolean group read
    first. *)
Lemma join_deserialize_inv s d s' :
  deserialize Loots Badges Emotes nameMaxLength s = OK (d, s') ->
  exists flags s1 rawName,
    readBooleanGroup2 s = OK (flags, s1)
    /\ isMobile (fields d) = flag 0 flags
    /\ isSome (badge (fields d)) = flag 1 flags
    /\ isSome (authToken (fields d)) = flag 2 flags
    /\ isSome (studentId (fields d)) = flag 3 flags
    /\ length (emotes (fields d)) = 8%nat
    /\ (forall i, (i < 6)%nat ->
          isSome (at_ (emotes (fields d)) i) = flag (4 + i) flags)
    /\ at_ (emotes (fields d)) 6 = None
    /\ at_ (emotes (fields d)) 7 = None
    /\ name (fields d) = Sanitize.sanitize rawName
    /\ index s' = (index s + Layout.joinConsumed Loots Badges Emotes
                                nameMaxLength flags rawName d)%nat.
Proof.
  unfold deserialize. intros H.
  apply bind_OK in H as (flags & s1 & Hf & H). cbv zeta in H.
  apply bind_OK in H as (version & s2 & Hv & H).
  apply bind_OK in H as (rawName & s3 & Hn & H).
  apply bind_OK in H as (skin & s4 & Hk & H).
  apply bind_OK in H as (badge & s5 & Hb & H).
  apply bind_OK in H as (token & s6 & Ht & H).
  apply bind_OK in H as (student & s7 & Hs & H).
  apply bind_OK in H as (arr & s8 & He & H).
  injection H as <- <-. unfold Layout.joinConsumed.
  cbn [fields name isMobile JoinPacket.badge authToken studentId emotes].
  pose proof Hf as Hf'. unfold readBooleanGroup2 in Hf'.
  apply bind_OK in Hf' as (v & s1' & Hi1 & Hr). injection Hr as _ ->.
  apply readUintN_OK in Hi1 as (_ & Hi1 & _).
  apply readUintN_OK in Hv as (_ & Hi2 & _).
  apply readString_OK in Hn as (_ & Hi3).
  apply readFromStream_OK in Hk as (_ & Hi4).
  apply readIf_OK in Hb as (Hb & Hi5).
  apply readIf_OK in Ht as (Ht & Hi6).
  apply readIf_OK in Hs as (Hs & Hi7).
  apply emoteLoop_inv in He as (Hlen & Hpres & H6 & H7 & Hi8).
  exists flags, s1, rawName.
  repeat split; try assumption.
  - intros i Hi. rewrite (Hpres i Hi). apply flag_skipn.
  - assert (E5 : index s5 = (index s4 + if flag 1 flags
                                        then registryWidth Badges else 0)%nat).
    { destruct (flag 1 flags).
      - destruct Hi5 as (a & _ & Ha).
        now apply readFromStream_OK in Ha as (_ & Ha).
      - destruct Hi5 as (_ & ->). lia. }
    assert (E6 : index s6 = (index s5 + match token with
                                        | Some t => widthFor (Z.of_nat 256 + 1)
                                                    + String.length t
                                        | None => 0
                                        end)%nat).
    { destruct (flag 2 flags).
      - destruct Hi6 as (a & -> & Ha).
        apply readString_OK in Ha as (_ & Ha). lia.
      - destruct Hi6 as (-> & ->). lia. }
    assert (E7 : index s7 = (index s6 + match student with
                                        | Some t => widthFor (Z.of_nat 64 + 1)
                                                    + String.length t
                                        | None => 0
                                        end)%nat).
    { destruct (flag 3 flags).
      - destruct Hi7 as (a & -> & Ha).
        apply readString_OK in Ha as (_ & Ha). lia.
      - destruct Hi7 as (-> & ->). lia. }
    assert (E8 : filter (fun i => flag i (skipn 4 flags)) (seq 0 6)
                 = filter (fun i => flag (4 + i) flags) (seq 0 6)).
    { apply filter_ext. intros i. apply flag_skipn. }
    rewrite <- E8. unfold readPlayerName in *. lia.
Qed.

Lemma join_short_input bs :
  (length bs < Layout.joinMinimum Loots nameMaxLength)%nat ->
  deserialize Loots Badges Emotes nameMaxLength (fromBytes bs) = Err Truncated.
Proof.
  unfold Layout.joinMinimum. intros Hlen. unfold deserialize.
  pose proof (wf_fromBytes bs) as Hwf0.
  unfold bind at 1.
  destruct (readBooleanGroup2 (fromBytes bs)) as [[flags s1]|e] eqn:E1;
    [|f_equal; exact (truncOnly_readBooleanGroup2 _ _ E1)].
  destruct (advances_readBooleanGroup2 _ _ _ Hwf0 E1) as (Hb1 & Hi1 & Hwf1).
  cbv zeta. unfold bind at 1.
  destruct (readUint16 s1) as [[version s2]|e] eqn:E2;
    [|f_equal; exact (truncOnly_readUintN 2 _ _ E2)].
  destruct (advances_readUintN 2 _ _ _ Hwf1 E2) as (Hb2 & Hi2 & Hwf2).
  unfold bind at 1.
  destruct (readPlayerName nameMaxLength s2) as [[rawName s3]|e] eqn:E3;
    [|f_equal; exact (truncOnly_readString _ _ _ E3)].
  destruct (advances_readString nameMaxLength _ _ _ Hwf2 E3) as (Hb3 & Hi3 & Hwf3).
  unfold bind at 1. unfold readFromStream at 1. unfold bind at 1.
  destruct (readUintN (registryWidth Loots) s3) as [[i s4]|e] eqn:E4;
    [|f_equal; exact (truncOnly_readUintN _ _ _ E4)].
  destruct (advances_readUintN _ _ _ _ Hwf3 E4) as (Hb4 & Hi4 & Hwf4).
  exfalso. unfold wf in Hwf4.
  rewrite Hb4, Hb3, Hb2, Hb1 in Hwf4. simpl in *. lia.
Qed.

End JoinDecodeFacts.

(** ** A decoding and its reads *)

Section RunFacts.

Import JoinPacket.

Lemma bind_OK_iff {A B} (m : M A) (k : A -> M B) s r :
  bind m k s = OK r <-> exists a s1, m s = OK (a, s1) /\ k a s1 = OK r.
Proof.
  split; [apply bind_OK|].
  intros (a & s1 & Hm & Hk). unfold bind. now rewrite Hm.
Qed.

Lemma readIf_optionally {A} (c : bool) (m : M A) s o s' :
  readIf c m s = OK (o, s') <-> Runs.optionally c m s o s'.
Proof.
  unfold readIf, Runs.optionally. destruct c.
  - rewrite bind_OK_iff. split.
    + intros (a & s1 & Hm & [= <- <-]). eauto.
    + intros (a & Hm & ->). exists a, s'. auto.
  - unfold ret. split; [intros [= <- <-]; auto | intros [-> ->]; reflexivity].
Qed.

Lemma mathFeedback_run s d s' :
  MathFeedbackPacket.deserialize s = OK (d, s') <-> Runs.mathFeedback s d s'.
Proof.
  unfold MathFeedbackPacket.deserialize, Runs.mathFeedback. split.
  - intros H.
    apply bind_OK in H as (flags & s1 & Hf & H). cbv zeta in H.
    apply bind_OK in H as (i & s2 & Hi & H).
    apply bind_OK in H as (x & s3 & Hx & H).
    apply bind_OK in H as (t & s4 & Ht & H).
    injection H as <- <-.
    cbn [MathFeedbackPacket.isCorrect MathFeedbackPacket.problemId
         MathFeedbackPacket.xpEarned MathFeedbackPacket.totalXP].
    apply readIf_optionally in Hx, Ht.
    exists flags, s1, s2, s3. auto.
  - intros (flags & s1 & s2 & s3 & Hf & Hi & Hx & Ht & Hc).
    apply readIf_optionally in Hx, Ht.
    unfold bind at 1. rewrite Hf. cbv zeta.
    unfold bind at 1. rewrite Hi.
    unfold bind at 1. rewrite Hx.
    unfold bind at 1. rewrite Ht.
    unfold ret. rewrite <- Hc. now destruct d.
Qed.

Lemma emoteLoop_run Emotes flags range arr s arr' s' :
  foldLoop range
    (fun arr i =>
       if flag i (skipn 4 flags)
       then e <- readFromStream Emotes ;; ret (setAt i (Some e) arr)
       else ret arr)
    arr s = OK (arr', s')
  <-> Runs.emoteSlots Emotes flags range arr s arr' s'.
Proof.
  revert arr s. induction range as [|i r IH]; intros arr s.
  - cbn [foldLoop Runs.emoteSlots]. unfold ret.
    split; [intros [= <- <-]; auto | intros [-> ->]; reflexivity].
  - cbn [foldLoop Runs.emoteSlots]. rewrite bind_OK_iff.
    rewrite <- (flag_skipn 4 i flags). unfold Runs.optionally.
    destruct (flag i (skipn 4 flags)).
    + split.
      * intros (a1 & s1 & H1 & H2).
        apply bind_OK in H1 as (e & s1' & He & [= <- <-]).
        exists (Some e), s1'. split; [eauto|]. now apply IH.
      * intros (o & s1 & (e & He & ->) & H2).
        exists (setAt i (Some e) arr), s1.
        split; [unfold bind; now rewrite He | now apply IH].
    + split.
      * intros (a1 & s1 & [= <- <-] & H2).
        exists None, s. split; [auto|]. now apply IH.
      * intros (o & s1 & (-> & ->) & H2).
        exists arr, s. split; [reflexivity | now apply IH].
Qed.

Lemma join_run Loots Badges Emotes nameMaxLength s d s' :
  deserialize Loots Badges Emotes nameMaxLength s = OK (d, s')
  <-> Runs.join Loots Badges Emotes nameMaxLength s d s'.
Proof.
  unfold deserialize, Runs.join. split.
  - intros H.
    apply bind_OK in H as (flags & s1 & Hf & H). cbv zeta in H.
    apply bind_OK in H as (version & s2 & Hv & H).
    apply bind_OK in H as (rawName & s3 & Hn & H).
    apply bind_OK in H as (skin & s4 & Hk & H).
    apply bind_OK in H as (badge & s5 & Hb & H).
    apply bind_OK in H as (token & s6 & Ht & H).
    apply bind_OK in H as (student & s7 & Hs & H).
    apply bind_OK in H as (arr & s8 & He & H).
    injection H as <- <-.
    cbn [protocolVersion fields name isMobile JoinPacket.skin
         JoinPacket.badge authToken studentId emotes].
    apply readIf_optionally in Hb, Ht, Hs. apply emoteLoop_run in He.
    exists flags, s1, s2, rawName, s3, s4, s5, s6, s7. auto 12.
  - intros (flags & s1 & s2 & rawName & s3 & s4 & s5 & s6 & s7
            & Hf & Hv & Hn & Hname & Hk & Hb & Ht & Hs & He & Hm).
    apply readIf_optionally in Hb, Ht, Hs. apply emoteLoop_run in He.
    unfold bind at 1. rewrite Hf. cbv zeta.
    unfold bind at 1. rewrite Hv.
    unfold bind at 1. rewrite Hn.
    unfold bind at 1. rewrite Hk.
    unfold bind at 1. rewrite Hb.
    unfold bind at 1. rewrite Ht.
    unfold bind at 1. rewrite Hs.
    unfold bind at 1. rewrite He.
    unfold ret. rewrite <- Hname, <- Hm.
    destruct d as [v [n m k b e a t]]. reflexivity.
Qed.

(** A read of [width] bytes returns when they are there. *)
Lemma readUintN_enough width s :
  (index s + width <= length (buffer s))%nat ->
  exists v, readUintN width s
            = OK (v, {| buffer := buffer s; index := (index s + width)%nat |}).
Proof.
  intros H. unfold readUintN, bind, readBytes.
  apply Nat.leb_le in H. rewrite H. eexists. reflexivity.
Qed.

Lemma readUintN_after width s v s' :
  readUintN width s = OK (v, s') ->
  s' = {| buffer := buffer s; index := (index s + width)%nat |}.
Proof.
  unfold readUintN, bind, readBytes.
  destruct (index s + width <=? length (buffer s))%nat; [|discriminate].
  now intros [= _ <-].
Qed.

(** The feedback decoder returns whenever the bytes its flags
    announce are there. *)
Lemma mathFeedback_enough s flags s1 :
  readBooleanGroup s = OK (flags, s1) ->
  (index s + 1 + 2 + (if flag 1 flags then 2 else 0)
   + (if flag 2 flags then 4 else 0) <= length (buffer s))%nat ->
  exists d s', MathFeedbackPacket.deserialize s = OK (d, s').
Proof.
  intros Hf Hlen.
  pose proof Hf as Hf'. unfold readBooleanGroup in Hf'.
  apply bind_OK in Hf' as (v & s1' & Hv & Hr). injection Hr as _ ->.
  apply readUintN_after in Hv. subst s1.
  destruct (readUintN_enough 2 {| buffer := buffer s;
                                  index := (index s + 1)%nat |})
    as (i & Hi); [cbn [buffer index]; lia|].
  cbn [buffer index] in Hi.
  set (s2 := {| buffer := buffer s; index := (index s + 1 + 2)%nat |}) in *.
  assert (Hx : exists x s3,
             Runs.optionally (flag 1 flags) readUint16 s2 x s3
             /\ buffer s3 = buffer s
             /\ index s3 = (index s + 1 + 2
                            + if flag 1 flags then 2 else 0)%nat).
  { unfold Runs.optionally. destruct (flag 1 flags).
    - destruct (readUintN_enough 2 s2) as (x & Hx);
        [subst s2; cbn [buffer index]; lia|].
      exists (Some x), {| buffer := buffer s2; index := (index s2 + 2)%nat |}.
      split; [eauto|]. split; reflexivity.
    - exists None, s2. split; [auto|]. split; [reflexivity|].
      subst s2. cbn [index]. lia. }
  destruct Hx as (x & s3 & Hx & Hb3 & Hi3).
  assert (Ht : exists t s4, Runs.optionally (flag 2 flags) readUint32 s3 t s4).
  { unfold Runs.optionally. destruct (flag 2 flags).
    - destruct (readUintN_enough 4 s3) as (t & Ht); [rewrite Hb3, Hi3; lia|].
      exists (Some t), {| buffer := buffer s3; index := (index s3 + 4)%nat |}.
      eauto.
    - exists None, s3. auto. }
  destruct Ht as (t & s4 & Ht).
  exists {| MathFeedbackPacket.isCorrect := flag 0 flags;
            MathFeedbackPacket.problemId := i;
            MathFeedbackPacket.xpEarned := x;
            MathFeedbackPacket.totalXP := t |}, s4.
  apply mathFeedback_run.
  exists flags, {| buffer := buffer s; index := (index s + 1)%nat |}, s2, s3.
  split; [exact Hf|]. split; [exact Hi|]. split; [exact Hx|].
  split; [exact Ht | reflexivity].
Qed.

(** What a decoded join packet owes to each of its reads: the group,
    the version and the name are read from the start, and the cursor
    ends where those, the skin and the flagged fields end. *)
Lemma join_deserialize_reads Loots Badges Emotes nameMaxLength s d s' :
  deserialize Loots Badges Emotes nameMaxLength s = OK (d, s') ->
  exists flags s1 s2 rawName s3,
    readBooleanGroup2 s = OK (flags, s1)
    /\ readUint16 s1 = OK (protocolVersion d, s2)
    /\ readPlayerName nameMaxLength s2 = OK (rawName, s3)
    /\ name (fields d) = Sanitize.sanitize rawName
    /\ index s' = (index s + Layout.joinConsumed Loots Badges Emotes
                                nameMaxLength flags rawName d)%nat
    /\ buffer s' = buffer s.
Proof.
  intros H. pose proof H as Hrun. apply join_run in Hrun.
  destruct Hrun as (flags & s1 & s2 & rawName & s3 & s4 & s5 & s6 & s7
                    & Hf & Hv & Hn & Hname & Hk & Hb & Ht & Hs & He & Hm).
  exists flags, s1, s2, rawName, s3.
  split; [exact Hf|]. split; [exact Hv|]. split; [exact Hn|].
  split; [exact Hname|].
  apply readIf_optionally in Hb, Ht, Hs. apply emoteLoop_run in He.
  unfold Layout.joinConsumed.
  pose proof Hf as Hf'. unfold readBooleanGroup2 in Hf'.
  apply bind_OK in Hf' as (v & s1' & Hi1 & Hr). injection Hr as _ ->.
  apply readUintN_OK in Hi1 as (B1 & Hi1 & _).
  apply readUintN_OK in Hv as (B2 & Hi2 & _).
  apply readString_OK in Hn as (B3 & Hi3).
  apply readFromStream_OK in Hk as (B4 & Hi4).
  apply readIf_OK in Hb as (Hb & Hi5).
  apply readIf_OK in Ht as (Ht & Hi6).
  apply readIf_OK in Hs as (Hs & Hi7).
  assert (B8 : buffer s' = buffer s7).
  { clear - He. revert He.
    generalize (repeat (@None ObjectDefinition) 8) as arr.
    revert s7. generalize (seq 0 6) as range.
    induction range as [|i r IH]; intros s7 arr; cbn [foldLoop].
    - now intros [= _ <-].
    - intros H. apply bind_OK in H as (a1 & s1 & H1 & H2).
      apply IH in H2. rewrite H2.
      destruct (flag i (skipn 4 flags)).
      + apply bind_OK in H1 as (e & s1' & He & [= _ <-]).
        now apply readFromStream_OK in He as (He & _).
      + now injection H1 as _ <-. }
  apply (emoteLoop_inv Emotes) in He as (Hlen & Hpres & H6 & H7 & Hi8).
  assert (E5 : index s5 = (index s4 + if flag 1 flags
                                      then registryWidth Badges else 0)%nat
               /\ buffer s5 = buffer s4).
  { destruct (flag 1 flags).
    - destruct Hi5 as (a & _ & Ha).
      apply readFromStream_OK in Ha as (Hx & Ha). auto.
    - destruct Hi5 as (_ & ->). split; [lia | reflexivity]. }
  assert (E6 : index s6 = (index s5 + match authToken (fields d) with
                                      | Some t => widthFor (Z.of_nat 256 + 1)
                                                  + String.length t
                                      | None => 0
                                      end)%nat
               /\ buffer s6 = buffer s5).
  { destruct (flag 2 flags).
    - destruct Hi6 as (a & -> & Ha).
      apply readString_OK in Ha as (Hx & Ha). split; [lia | exact Hx].
    - destruct Hi6 as (-> & ->). split; [lia | reflexivity]. }
  assert (E7 : index s7 = (index s6 + match studentId (fields d) with
                                      | Some t => widthFor (Z.of_nat 64 + 1)
                                                  + String.length t
                                      | None => 0
                                      end)%nat
               /\ buffer s7 = buffer s6).
  { destruct (flag 3 flags).
    - destruct Hi7 as (a & -> & Ha).
      apply readString_OK in Ha as (Hx & Ha). split; [lia | exact Hx].
    - destruct Hi7 as (-> & ->). split; [lia | reflexivity]. }
  assert (E8 : filter (fun i => flag i (skipn 4 flags)) (seq 0 6)
               = filter (fun i => flag (4 + i) flags) (seq 0 6)).
  { apply filter_ext. intros i. apply flag_skipn. }
  destruct E5 as [E5 B5], E6 as [E6 B6], E7 as [E7 B7].
  split; [|congruence].
  rewrite <- E8. unfold readPlayerName in *. lia.
Qed.

End RunFacts.

(** ** The math problem manager *)

Module ManagerFacts.

Import stdpp.base stdpp.gmap stdpp.strings.
Import MathProblemManager.
#[local] Open Scope string_scope.
#[local] Open Scope Z_scope.

Section WithRandom.

Variable Rng : Type.
Variable random : Z -> Z -> Rng -> Z * Rng.
Hypothesis random_range :
  forall lo hi g, lo <= hi -> lo <= fst (random lo hi g) <= hi.

Lemma rand_range lo hi (w : World Rng) v w' :
  lo <= hi -> rand Rng random lo hi w = (v, w') -> lo <= v <= hi.
Proof.
  intros Hle. unfold rand.
  pose proof (random_range lo hi (rng Rng w) Hle) as H.
  destruct (random lo hi (rng Rng w)) as [v0 g]. simpl in H.
  intros [= <- _]. exact H.
Qed.

(** The operands, the operator and the answer of a generated
    problem. *)
Lemma generateProblem_wellPosed (w : World Rng) :
  ProblemSpec.wellPosed (fst (generateProblem Rng random w)).
Proof.
  unfold generateProblem, wbind.
  destruct (rand Rng random 1 9 w) as [num1 w1] eqn:E1.
  destruct (rand Rng random 1 9 w1) as [num2 w2] eqn:E2.
  destruct (rand Rng random 0 3 w2) as [operation w3] eqn:E3.
  apply rand_range in E1; [|lia].
  apply rand_range in E2; [|lia].
  apply rand_range in E3; [|lia].
  assert (Hop : operation = 0 \/ operation = 1 \/ operation = 2 \/ operation = 3)
    by lia.
  destruct Hop as [->|[->|[->| ->]]].
  - unfold wret at 1.
    repeat match goal with
           | |- context [let (_, _) := ?m in _] => destruct m as [? ?]
           end.
    left. exists num1, num2. cbn. auto.
  - destruct (num1 >=? num2) eqn:Ecmp; unfold wret at 1;
      repeat match goal with
             | |- context [let (_, _) := ?m in _] => destruct m as [? ?]
             end;
      right; left.
    + exists num1, num2. cbn. repeat split; lia.
    + exists num2, num1. cbn. repeat split; lia.
  - unfold wret at 1.
    repeat match goal with
           | |- context [let (_, _) := ?m in _] => destruct m as [? ?]
           end.
    right; right; left. exists num1, num2. cbn. auto.
  - destruct (rand Rng random 1 9 w3) as [result w4] eqn:E4.
    destruct (rand Rng random 1 9 w4) as [divisor w5] eqn:E5.
    apply rand_range in E4; [|lia].
    apply rand_range in E5; [|lia].
    unfold wret at 1.
    repeat match goal with
           | |- context [let (_, _) := ?m in _] => destruct m as [? ?]
           end.
    right; right; right. exists result, divisor. cbn.
    repeat split; try lia.
    + apply Z.mod_mul. lia.
    + apply Z.div_mul. lia.
Qed.

Lemma wellPosed_answer_range p :
  ProblemSpec.wellPosed p -> 0 <= answer p <= 81.
Proof.
  intros [(a & b & Ha & Hb & _ & ->)
         |[(a & b & Hb & Hab & Ha & _ & ->)
          |[(a & b & Ha & Hb & _ & ->)
           |(q & d & Hq & Hd & _ & -> & _)]]]; nia.
Qed.

(** [validateAnswer] on a world: its verdict and what it leaves. *)
Lemma validateAnswer_spec (w : World Rng) answer' problemId' r w' :
  validateAnswer Rng random answer' problemId' w = (r, w') ->
  (r = true <->
   exists p, activeProblem (manager Rng w) !! id (player Rng w) = Some p
             /\ problemId p = problemId' /\ answer p = answer')
  /\ (r = false -> w' = w).
Proof.
  unfold validateAnswer, wbind, getManager, getPlayer.
  destruct (activeProblem (manager Rng w) !! id (player Rng w))
    as [active|] eqn:Ea.
  - destruct (problemId active =? problemId') eqn:Ei; cbn [negb].
    + apply Z.eqb_eq in Ei.
      destruct (answer active =? answer') eqn:Ec.
      * apply Z.eqb_eq in Ec.
        match goal with
        | |- (let (_, _) := ?m in _) = _ -> _ => destruct m as [? ?]
        end.
        unfold wret. intros [= <- _]. split; [|discriminate].
        split; [|reflexivity]. intros _. exists active. auto.
      * apply Z.eqb_neq in Ec. unfold wret. intros [= <- <-].
        split; [|reflexivity]. split; [discriminate|].
        intros (p & [= <-] & _ & Hp). contradiction.
    + apply Z.eqb_neq in Ei. unfold wret. intros [= <- <-].
      split; [|reflexivity]. split; [discriminate|].
      intros (p & [= <-] & Hp & _). contradiction.
  - unfold wret. intros [= <- <-].
    split; [|reflexivity]. split; [discriminate|].
    intros (p & Hp & _). discriminate.
Qed.

End WithRandom.

End ManagerFacts.

(** * The claims *)

(** What a receiver decodes from what a sender wrote on a fresh
    buffer. *)
Lemma roundtrip {A} (ser : M unit) (de : M A) bs a capacity s :
  writes ser bs -> reads de bs a ->
  ser (alloc capacity) = OK (tt, s) ->
  exists s', de (fromBytes (written s)) = OK (a, s')
             /\ index s' = length (buffer s').
Proof.
  intros Hw Hr Hs.
  destruct (writes_alloc _ _ _ _ Hw Hs) as (Hwr & _). cbn [snd] in Hwr.
  destruct (reads_fromBytes _ _ _ Hr) as (s' & Hd & Hb & Hi).
  exists s'. rewrite Hwr. split; [exact Hd | congruence].
Qed.

Section Claims.

Import JoinPacket.

(** C1, as amended.  For the math-challenge, answer and feedback
    packets, decoding what [serialize] wrote for a valid payload
    gives the payload back, field for field, absent optional fields
    staying absent.  For the join packet it gives the payload back
    except for two fields: the name comes back sanitized (and then
    unchanged when it was clean), and the emotes come back as an
    array of eight slots holding the first six of the source. *)
Theorem packets_roundtrip :
  (forall d capacity s,
      Layout.mathProblemValid d ->
      MathProblemPacket.serialize d (alloc capacity) = OK (tt, s) ->
      exists s', MathProblemPacket.deserialize (fromBytes (written s))
                 = OK (d, s'))
  /\ (forall d capacity s,
         Layout.mathAnswerValid d ->
         MathAnswerPacket.serialize d (alloc capacity) = OK (tt, s) ->
         exists s', MathAnswerPacket.deserialize (fromBytes (written s))
                    = OK (d, s'))
  /\ (forall d capacity s,
         Layout.mathFeedbackValid d ->
         MathFeedbackPacket.serialize d (alloc capacity) = OK (tt, s) ->
         exists s', MathFeedbackPacket.deserialize (fromBytes (written s))
                    = OK (d, s'))
  /\ (forall Loots Badges Emotes version nameMaxLength d capacity s,
         Layout.contentValid Loots Badges Emotes nameMaxLength ->
         Layout.joinValid Loots Badges Emotes nameMaxLength d ->
         serialize Loots Badges Emotes version nameMaxLength d (alloc capacity)
         = OK (tt, s) ->
         exists s',
           deserialize Loots Badges Emotes nameMaxLength (fromBytes (written s))
           = OK ({| protocolVersion := version mod 65536;
                    fields :=
                      {| name := Sanitize.sanitize (name d);
                         isMobile := isMobile d;
                         skin := skin d;
                         badge := badge d;
                         emotes := map (at_ (emotes d)) (seq 0 6)
                                   ++ [None; None];
                         authToken := authToken d;
                         studentId := studentId d |} |}, s'))
  /\ (forall n, NameSpec.clean n -> Sanitize.sanitize n = n).
Proof.
  repeat split.
  - intros d capacity s Hv Hs.
    destruct (roundtrip _ _ _ _ _ _ (mathProblem_writes d) (mathProblem_reads d) Hs)
      as (s' & Hd & _).
    rewrite (mathProblem_valid_decoded d Hv) in Hd. eauto.
  - intros d capacity s Hv Hs.
    destruct (roundtrip _ _ _ _ _ _ (mathAnswer_writes d) (mathAnswer_reads d) Hs)
      as (s' & Hd & _).
    rewrite (mathAnswer_valid_decoded d Hv) in Hd. eauto.
  - intros d capacity s Hv Hs.
    destruct (roundtrip _ _ _ _ _ _ (mathFeedback_writes d) (mathFeedback_reads d) Hs)
      as (s' & Hd & _).
    rewrite (mathFeedback_valid_decoded d Hv) in Hd. eauto.
  - intros Loots Badges Emotes version nameMaxLength d capacity s Hc Hv Hs.
    pose proof Hv as (Hm & _).
    destruct (roundtrip _ _ _ _ _ _
                (join_writes Loots Badges Emotes version nameMaxLength d Hm)
                (join_reads Loots Badges Emotes version nameMaxLength d Hc Hm) Hs)
      as (s' & Hd & _).
    rewrite (join_valid_decoded Loots Badges Emotes version nameMaxLength d Hv) in Hd.
    eauto.
  - apply SanitizeFacts.sanitize_id.
Qed.

Lemma sample_content_valid :
  Layout.contentValid Samples.registry Samples.registry Samples.registry 16.
Proof. unfold Layout.contentValid. cbn. lia. Qed.

Lemma fullJoin_valid :
  Layout.joinValid Samples.registry Samples.registry Samples.registry 16
                   Samples.fullJoin.
Proof.
  unfold Layout.joinValid, Layout.joinMember. cbn.
  repeat split; try lia; auto.
  - intros b [= <-]. auto.
  - intros i e Hi.
    destruct i as [|[|[|[|[|[|i]]]]]]; cbn; try discriminate; try lia;
      intros [= <-]; auto.
Qed.

Lemma packets_roundtrip_witness :
  (exists s,
      MathProblemPacket.serialize Samples.challenge (alloc 32) = OK (tt, s)
      /\ exists s', MathProblemPacket.deserialize (fromBytes (written s))
                    = OK (Samples.challenge, s'))
  /\ (exists s,
         MathAnswerPacket.serialize Samples.reply (alloc 32) = OK (tt, s)
         /\ exists s', MathAnswerPacket.deserialize (fromBytes (written s))
                       = OK (Samples.reply, s'))
  /\ (exists s,
         MathFeedbackPacket.serialize (Samples.feedback 7) (alloc 32) = OK (tt, s)
         /\ exists s', MathFeedbackPacket.deserialize (fromBytes (written s))
                       = OK (Samples.feedback 7, s'))
  /\ (exists s,
         serialize Samples.registry Samples.registry Samples.registry 1 16
                   Samples.fullJoin (alloc 32) = OK (tt, s)
         /\ exists s',
             deserialize Samples.registry Samples.registry Samples.registry 16
                         (fromBytes (written s))
             = OK ({| protocolVersion := 1;
                      fields :=
                        {| name := "bob";
                           isMobile := true;
                           skin := mkDef "b";
                           badge := Some (mkDef "c");
                           emotes := [None; Some (mkDef "a"); None; None; None;
                                      Some (mkDef "c"); None; None];
                           authToken := Some "token"%string;
                           studentId := None |} |}, s')).
Proof.
  destruct packets_roundtrip as (H1 & H2 & H3 & H4 & _).
  repeat split.
  - destruct (MathProblemPacket.serialize Samples.challenge (alloc 32))
      as [[[] s]|e] eqn:E; [|vm_compute in E; discriminate E].
    exists s. split; [reflexivity|].
    apply (H1 Samples.challenge 32%nat s); [|exact E].
    unfold Layout.mathProblemValid. cbn. lia.
  - destruct (MathAnswerPacket.serialize Samples.reply (alloc 32))
      as [[[] s]|e] eqn:E; [|vm_compute in E; discriminate E].
    exists s. split; [reflexivity|].
    apply (H2 Samples.reply 32%nat s); [|exact E].
    unfold Layout.mathAnswerValid. cbn. lia.
  - destruct (MathFeedbackPacket.serialize (Samples.feedback 7) (alloc 32))
      as [[[] s]|e] eqn:E; [|vm_compute in E; discriminate E].
    exists s. split; [reflexivity|].
    apply (H3 (Samples.feedback 7) 32%nat s); [|exact E].
    unfold Layout.mathFeedbackValid. cbn. lia.
  - destruct (serialize Samples.registry Samples.registry Samples.registry
                        1 16 Samples.fullJoin (alloc 32))
      as [[[] s]|e] eqn:E; [|vm_compute in E; discriminate E].
    exists s. split; [reflexivity|].
    destruct (H4 Samples.registry Samples.registry Samples.registry 1 16%nat
                 Samples.fullJoin 32%nat s sample_content_valid fullJoin_valid E)
      as (s' & Hd).
    exists s'. rewrite Hd. vm_compute. reflexivity.
Defined.

(** C1, as stated, fails on the join packet: a valid join request
    whose name starts with a space is decoded with another name. *)
Lemma join_roundtrip_changes_name :
  Layout.joinValid Samples.registry Samples.registry Samples.registry 16
                   Samples.paddedJoin
  /\ exists s d' s',
       serialize Samples.registry Samples.registry Samples.registry 1 16
                 Samples.paddedJoin (alloc 32) = OK (tt, s)
       /\ deserialize Samples.registry Samples.registry Samples.registry 16
                      (fromBytes (written s)) = OK (d', s')
       /\ name (fields d') = "a"%string
       /\ name (fields d') <> name Samples.paddedJoin.
Proof.
  split.
  - unfold Layout.joinValid, Layout.joinMember. cbn.
    repeat split; try lia; auto; try discriminate.
    intros i e _. destruct i as [|[|[|[|[|[|i]]]]]]; discriminate.
  - do 3 eexists. split; [vm_compute; reflexivity|].
    split; [vm_compute; reflexivity|].
    split; [reflexivity | discriminate].
Qed.

(** C2.  The math challenge "3 + 4" for 3 gauze with identifier 7,
    written on any buffer of 15 bytes or more and read back, is the
    same payload; a feedback with correctness true, 2 XP earned and
    no total XP is read back with correctness true, XP earned 2 and
    the total XP absent, which is not a total of zero. *)
Theorem concrete_scenario capacity problemId :
  (15 <= capacity)%nat ->
  (exists s s',
      MathProblemPacket.serialize Samples.challenge (alloc capacity) = OK (tt, s)
      /\ MathProblemPacket.deserialize (fromBytes (written s))
         = OK ({| MathProblemPacket.problem := "3 + 4";
                  MathProblemPacket.rewardType := "gauze";
                  MathProblemPacket.rewardCount := 3;
                  MathProblemPacket.problemId := 7 |}, s'))
  /\ (exists s s' d',
         MathFeedbackPacket.serialize (Samples.feedback problemId)
                                      (alloc capacity) = OK (tt, s)
         /\ MathFeedbackPacket.deserialize (fromBytes (written s)) = OK (d', s')
         /\ MathFeedbackPacket.isCorrect d' = true
         /\ MathFeedbackPacket.xpEarned d' = Some 2
         /\ MathFeedbackPacket.totalXP d' = None
         /\ MathFeedbackPacket.totalXP d' <> Some 0).
Proof.
  intros Hcap. split.
  - destruct (writes_fits _ _ capacity (mathProblem_writes Samples.challenge))
      as (s & Hs & _); [exact Hcap|].
    destruct (roundtrip _ _ _ _ _ _ (mathProblem_writes Samples.challenge)
                (mathProblem_reads Samples.challenge) Hs) as (s' & Hd & _).
    exists s, s'. split; [exact Hs | exact Hd].
  - destruct (writes_fits _ _ capacity
                (mathFeedback_writes (Samples.feedback problemId)))
      as (s & Hs & _).
    { unfold Layout.mathFeedback. cbn [Samples.feedback
        MathFeedbackPacket.xpEarned MathFeedbackPacket.totalXP encOpt].
      rewrite !length_app, !length_encodeBE. simpl. lia. }
    destruct (roundtrip _ _ _ _ _ _
                (mathFeedback_writes (Samples.feedback problemId))
                (mathFeedback_reads (Samples.feedback problemId)) Hs)
      as (s' & Hd & _).
    exists s, s', (Layout.mathFeedbackDecoded (Samples.feedback problemId)).
    repeat split; try assumption; discriminate.
Qed.

Lemma concrete_scenario_witness :
  (exists s s',
      MathProblemPacket.serialize Samples.challenge (alloc 15) = OK (tt, s)
      /\ MathProblemPacket.deserialize (fromBytes (written s))
         = OK (Samples.challenge, s'))
  /\ (exists s s' d',
         MathFeedbackPacket.serialize (Samples.feedback 7) (alloc 15)
         = OK (tt, s)
         /\ MathFeedbackPacket.deserialize (fromBytes (written s)) = OK (d', s')
         /\ MathFeedbackPacket.isCorrect d' = true
         /\ MathFeedbackPacket.xpEarned d' = Some 2
         /\ MathFeedbackPacket.totalXP d' = None
         /\ MathFeedbackPacket.totalXP d' <> Some 0).
Proof. apply (concrete_scenario 15 7). lia. Defined.

(** C3.  The math-challenge packet is, on the wire, the puzzle as a
    string of at most 32 bytes, the reward kind as a string of at
    most 32 bytes, the reward count on 8 bits and the problem
    identifier on 16 bits, with no boolean group; the answer packet
    is the answer on 16 bits, signed, and the problem identifier on
    16 bits.  Each deserializer reads these fields back in this
    order, whatever follows them in the buffer. *)
Theorem math_packets_layout :
  (forall d,
      writes (MathProblemPacket.serialize d)
             (encString 32 (MathProblemPacket.problem d)
              ++ encString 32 (MathProblemPacket.rewardType d)
              ++ encodeBE 1 (MathProblemPacket.rewardCount d)
              ++ encodeBE 2 (MathProblemPacket.problemId d))
      /\ reads MathProblemPacket.deserialize
               (encString 32 (MathProblemPacket.problem d)
                ++ encString 32 (MathProblemPacket.rewardType d)
                ++ encodeBE 1 (MathProblemPacket.rewardCount d)
                ++ encodeBE 2 (MathProblemPacket.problemId d))
               {| MathProblemPacket.problem :=
                    truncate 32 (MathProblemPacket.problem d);
                  MathProblemPacket.rewardType :=
                    truncate 32 (MathProblemPacket.rewardType d);
                  MathProblemPacket.rewardCount :=
                    MathProblemPacket.rewardCount d mod 2 ^ 8;
                  MathProblemPacket.problemId :=
                    MathProblemPacket.problemId d mod 2 ^ 16 |})
  /\ (forall d,
         writes (MathAnswerPacket.serialize d)
                (encodeBE 2 (MathAnswerPacket.answer d)
                 ++ encodeBE 2 (MathAnswerPacket.problemId d))
         /\ reads MathAnswerPacket.deserialize
                  (encodeBE 2 (MathAnswerPacket.answer d)
                   ++ encodeBE 2 (MathAnswerPacket.problemId d))
                  {| MathAnswerPacket.answer :=
                       Layout.wrapInt16 (MathAnswerPacket.answer d);
                     MathAnswerPacket.problemId :=
                       MathAnswerPacket.problemId d mod 2 ^ 16 |})
  /\ (forall v, -32768 <= v < 32768 -> Layout.wrapInt16 v = v).
Proof.
  split; [|split].
  - intros d. split; [apply mathProblem_writes | apply mathProblem_reads].
  - intros d. split; [apply mathAnswer_writes | apply mathAnswer_reads].
  - apply wrapInt16_small.
Qed.

Lemma math_packets_layout_witness : Layout.wrapInt16 (-7) = -7.
Proof. apply (proj2 (proj2 math_packets_layout)). lia. Defined.

(** C4.  The join packet is, on the wire, one boolean group of two
    bytes with ten flags (mobile device, badge present, auth token
    present, student identifier present, each of six emotes
    present), the protocol version, the name, the skin, and then
    the badge, the auth token (at most 256 bytes), the student
    identifier (at most 64 bytes) and the six emotes, each only
    when present.  The deserializer reads this layout back, and on
    any input the optional fields it returns are those whose flags
    are set. *)
Theorem join_layout Loots Badges Emotes version nameMaxLength :
  (forall d,
      Layout.joinMember Loots Badges Emotes d ->
      writes (serialize Loots Badges Emotes version nameMaxLength d)
             (encodeBE 2 (packBits
                [ isMobile d; isSome (badge d); isSome (authToken d);
                  isSome (studentId d);
                  isSome (at_ (emotes d) 0); isSome (at_ (emotes d) 1);
                  isSome (at_ (emotes d) 2); isSome (at_ (emotes d) 3);
                  isSome (at_ (emotes d) 4); isSome (at_ (emotes d) 5) ])
              ++ encodeBE 2 version
              ++ encString nameMaxLength (name d)
              ++ encDef Loots (skin d)
              ++ encOpt (encDef Badges) (badge d)
              ++ encOpt (encString 256) (authToken d)
              ++ encOpt (encString 64) (studentId d)
              ++ concat (map (fun i => encOpt (encDef Emotes) (at_ (emotes d) i))
                             (seq 0 6))))
  /\ (forall d,
         Layout.contentValid Loots Badges Emotes nameMaxLength ->
         Layout.joinMember Loots Badges Emotes d ->
         reads (deserialize Loots Badges Emotes nameMaxLength)
               (Layout.join Loots Badges Emotes version nameMaxLength d)
               (Layout.joinDecoded version nameMaxLength d))
  /\ (forall s d s',
         deserialize Loots Badges Emotes nameMaxLength s = OK (d, s') ->
         exists flags s1,
           readBooleanGroup2 s = OK (flags, s1)
           /\ isMobile (fields d) = flag 0 flags
           /\ isSome (badge (fields d)) = flag 1 flags
           /\ isSome (authToken (fields d)) = flag 2 flags
           /\ isSome (studentId (fields d)) = flag 3 flags
           /\ forall i, (i < 6)%nat ->
                isSome (at_ (emotes (fields d)) i) = flag (4 + i) flags).
Proof.
  split; [|split].
  - intros d Hm. apply (join_writes Loots Badges Emotes version nameMaxLength d Hm).
  - intros d Hc Hm. now apply join_reads.
  - intros s d s' H.
    destruct (join_deserialize_inv _ _ _ _ _ _ _ H)
      as (flags & s1 & raw & Hf & H0 & H1 & H2 & H3 & _ & He & _).
    exists flags, s1. auto 10.
Qed.

Lemma fullJoin_member :
  Layout.joinMember Samples.registry Samples.registry Samples.registry
                    Samples.fullJoin.
Proof. apply fullJoin_valid. Qed.

Lemma join_layout_witness :
  exists s',
    deserialize Samples.registry Samples.registry Samples.registry 16
      (fromBytes (Layout.join Samples.registry Samples.registry
                              Samples.registry 1 16 Samples.fullJoin))
    = OK (Layout.joinDecoded 1 16 Samples.fullJoin, s').
Proof.
  destruct (join_layout Samples.registry Samples.registry Samples.registry
                        1 16%nat) as (_ & Hr & _).
  destruct (reads_fromBytes _ _ _
              (Hr Samples.fullJoin sample_content_valid fullJoin_member))
    as (s' & Hd & _).
  exists s'. exact Hd.
Defined.

(** C5.  Whatever the input, the name of a decoded join packet has
    no substring made of a ['<'], one character or more other than
    ['>'] and a ['>'], and neither starts nor ends with white
    space. *)
Theorem join_name_sanitized Loots Badges Emotes nameMaxLength s d s' :
  deserialize Loots Badges Emotes nameMaxLength s = OK (d, s') ->
  ~ NameSpec.hasMarkup (name (fields d))
  /\ ~ NameSpec.startsWithSpace (name (fields d))
  /\ ~ NameSpec.endsWithSpace (name (fields d)).
Proof.
  intros H.
  destruct (join_deserialize_inv _ _ _ _ _ _ _ H)
    as (flags & s1 & raw & _ & _ & _ & _ & _ & _ & _ & _ & _ & Hn & _).
  rewrite Hn. apply SanitizeFacts.sanitize_clean.
Qed.

Lemma join_name_sanitized_witness :
  exists d s',
    deserialize Samples.registry Samples.registry Samples.registry 16
                (fromBytes Samples.markedJoinBytes) = OK (d, s')
    /\ name (fields d) = "x"%string
    /\ ~ NameSpec.hasMarkup (name (fields d))
    /\ ~ NameSpec.startsWithSpace (name (fields d))
    /\ ~ NameSpec.endsWithSpace (name (fields d)).
Proof.
  do 2 eexists. split; [vm_compute; reflexivity|]. split; [reflexivity|].
  eapply (join_name_sanitized Samples.registry Samples.registry
            Samples.registry 16%nat (fromBytes Samples.markedJoinBytes)).
  vm_compute. reflexivity.
Defined.

(** C6.  A string longer than the bound of its field, written with
    [writeString] and read back with [readString], is the string
    of its first [maxLength] bytes, exactly [maxLength] of them;
    the writer stays within the capacity of its buffer and the
    reader stops at the end of what was written.  So it is for the
    strings of the math-challenge packet, of bound 32, and for the
    auth token and the student identifier of the join packet, of
    bounds 256 and 64. *)
Theorem bounded_string_truncation :
  (forall maxLength str capacity s,
      Z.of_nat maxLength < 2 ^ 32 ->
      (maxLength < String.length str)%nat ->
      writeString maxLength str (alloc capacity) = OK (tt, s) ->
      exists s',
        readString maxLength (fromBytes (written s))
        = OK (truncate maxLength str, s')
        /\ list_byte_of_string (truncate maxLength str)
           = firstn maxLength (list_byte_of_string str)
        /\ String.length (truncate maxLength str) = maxLength
        /\ (index s <= length (buffer s))%nat
        /\ length (buffer s) = capacity
        /\ index s' = length (buffer s'))
  /\ (forall d capacity s,
         MathProblemPacket.serialize d (alloc capacity) = OK (tt, s) ->
         exists d' s',
           MathProblemPacket.deserialize (fromBytes (written s)) = OK (d', s')
           /\ MathProblemPacket.problem d'
              = truncate 32 (MathProblemPacket.problem d)
           /\ MathProblemPacket.rewardType d'
              = truncate 32 (MathProblemPacket.rewardType d)
           /\ (String.length (MathProblemPacket.problem d') <= 32)%nat
           /\ (String.length (MathProblemPacket.rewardType d') <= 32)%nat)
  /\ (forall Loots Badges Emotes version nameMaxLength d capacity s,
         Layout.contentValid Loots Badges Emotes nameMaxLength ->
         Layout.joinMember Loots Badges Emotes d ->
         serialize Loots Badges Emotes version nameMaxLength d (alloc capacity)
         = OK (tt, s) ->
         exists d' s',
           deserialize Loots Badges Emotes nameMaxLength (fromBytes (written s))
           = OK (d', s')
           /\ authToken (fields d') = option_map (truncate 256) (authToken d)
           /\ studentId (fields d') = option_map (truncate 64) (studentId d)).
Proof.
  split; [|split].
  - intros maxLength str capacity s Hmax Hlong Hs.
    destruct (roundtrip _ _ _ _ _ _ (writes_writeString maxLength str)
                (reads_readString maxLength str Hmax) Hs) as (s' & Hd & Hi).
    destruct (writes_alloc _ _ _ _ (writes_writeString maxLength str) Hs)
      as (_ & Hfit & Hcap & Hidx). cbn [snd] in *.
    exists s'. repeat split; try assumption.
    + unfold truncate. apply list_byte_of_string_of_list_byte.
    + rewrite length_truncate. lia.
    + lia.
  - intros d capacity s Hs.
    destruct (roundtrip _ _ _ _ _ _ (mathProblem_writes d)
                (mathProblem_reads d) Hs) as (s' & Hd & _).
    exists (Layout.mathProblemDecoded d), s'.
    cbn [Layout.mathProblemDecoded MathProblemPacket.problem
         MathProblemPacket.rewardType].
    repeat split; try assumption; rewrite length_truncate; lia.
  - intros Loots Badges Emotes version nameMaxLength d capacity s Hc Hm Hs.
    destruct (roundtrip _ _ _ _ _ _
                (join_writes Loots Badges Emotes version nameMaxLength d Hm)
                (join_reads Loots Badges Emotes version nameMaxLength d Hc Hm) Hs)
      as (s' & Hd & _).
    exists (Layout.joinDecoded version nameMaxLength d), s'.
    split; [exact Hd|]. split; reflexivity.
Qed.

Lemma bounded_string_truncation_witness :
  exists s,
    writeString 4 "gauze and more" (alloc 8) = OK (tt, s)
    /\ exists s',
         readString 4 (fromBytes (written s)) = OK ("gauz"%string, s').
Proof.
  destruct (writeString 4 "gauze and more" (alloc 8)) as [[[] s]|e] eqn:E;
    [|vm_compute in E; discriminate E].
  exists s. split; [reflexivity|].
  destruct (proj1 bounded_string_truncation 4%nat "gauze and more"%string
              8%nat s) as (s' & Hd & _);
    [reflexivity | simpl; lia | exact E |].
  exists s'. exact Hd.
Defined.

(** C7.  On any input, the feedback and the join deserializers read
    their boolean group first and then the fields whose flags are
    set, and only those.  A decoding returns a payload exactly when
    its reads, taken one by one, succeed: the group, the fields
    every packet has, and each optional field as its flag says, a
    field whose flag is clear being skipped without a read and left
    absent (not a default value).  So an optional field of the
    payload is present exactly when its flag is set, the buffer is
    left as it was, and the cursor ends where the group, the fields
    every packet has and the flagged fields end, the name counting
    as it is on the wire.  The feedback decoder returns whenever the
    bytes its flags announce are there, and the join decoder on the
    bytes of any payload of its registries, whatever follows them,
    which it leaves unread; the join deserializer leaves the last
    two of its eight emote slots absent. *)
Theorem deserialize_follows_flags :
  (forall s d s',
      MathFeedbackPacket.deserialize s = OK (d, s')
      <-> Runs.mathFeedback s d s')
  /\ (forall s d s',
         MathFeedbackPacket.deserialize s = OK (d, s') ->
         exists flags s1,
           readBooleanGroup s = OK (flags, s1)
           /\ MathFeedbackPacket.isCorrect d = flag 0 flags
           /\ (MathFeedbackPacket.xpEarned d = None <-> flag 1 flags = false)
           /\ (MathFeedbackPacket.totalXP d = None <-> flag 2 flags = false)
           /\ index s' = (index s + 1 + 2
                          + (if flag 1 flags then 2 else 0)
                          + (if flag 2 flags then 4 else 0))%nat)
  /\ (forall s flags s1,
         readBooleanGroup s = OK (flags, s1) ->
         (index s + 1 + 2 + (if flag 1 flags then 2 else 0)
          + (if flag 2 flags then 4 else 0) <= length (buffer s))%nat ->
         exists d s', MathFeedbackPacket.deserialize s = OK (d, s'))
  /\ (forall Loots Badges Emotes nameMaxLength s d s',
         deserialize Loots Badges Emotes nameMaxLength s = OK (d, s')
         <-> Runs.join Loots Badges Emotes nameMaxLength s d s')
  /\ (forall Loots Badges Emotes nameMaxLength s d s',
         deserialize Loots Badges Emotes nameMaxLength s = OK (d, s') ->
         exists flags s1 s2 rawName s3,
           readBooleanGroup2 s = OK (flags, s1)
           /\ readUint16 s1 = OK (protocolVersion d, s2)
           /\ readPlayerName nameMaxLength s2 = OK (rawName, s3)
           /\ name (fields d) = Sanitize.sanitize rawName
           /\ isMobile (fields d) = flag 0 flags
           /\ (badge (fields d) = None <-> flag 1 flags = false)
           /\ (authToken (fields d) = None <-> flag 2 flags = false)
           /\ (studentId (fields d) = None <-> flag 3 flags = false)
           /\ (forall i, (i < 6)%nat ->
                 at_ (emotes (fields d)) i = None <-> flag (4 + i) flags = false)
           /\ at_ (emotes (fields d)) 6 = None
           /\ at_ (emotes (fields d)) 7 = None
           /\ index s' = (index s + Layout.joinConsumed Loots Badges Emotes
                                       nameMaxLength flags rawName d)%nat
           /\ buffer s' = buffer s)
  /\ (forall Loots Badges Emotes version nameMaxLength d rest,
         Layout.contentValid Loots Badges Emotes nameMaxLength ->
         Layout.joinMember Loots Badges Emotes d ->
         exists s',
           deserialize Loots Badges Emotes nameMaxLength
             (fromBytes (Layout.join Loots Badges Emotes version
                                     nameMaxLength d ++ rest))
           = OK (Layout.joinDecoded version nameMaxLength d, s')
           /\ remaining s' = rest).
Proof.
  assert (Habs : forall {A} (o : option A) b,
             isSome o = b -> (o = None <-> b = false)).
  { intros A [a|] b <-; cbn; split; congruence. }
  split; [exact mathFeedback_run|].
  split; [|split; [exact mathFeedback_enough|split; [exact join_run|split]]].
  - intros s d s' H.
    destruct (mathFeedback_deserialize_inv _ _ _ H)
      as (flags & s1 & Hf & Hc & Hx & Ht & Hi).
    exists flags, s1. repeat split; auto; now apply Habs.
  - intros Loots Badges Emotes nameMaxLength s d s' H.
    destruct (join_deserialize_reads _ _ _ _ _ _ _ H)
      as (flags & s1 & s2 & raw & s3 & Hf & Hv & Hn & Hname & Hi & Hbuf).
    destruct (join_deserialize_inv _ _ _ _ _ _ _ H)
      as (flags' & s1' & raw' & Hf' & H0 & H1 & H2 & H3 & _ & He & H6 & H7 & _).
    rewrite Hf in Hf'. injection Hf' as <- <-.
    exists flags, s1, s2, raw, s3.
    split; [exact Hf|]. split; [exact Hv|]. split; [exact Hn|].
    split; [exact Hname|]. split; [exact H0|].
    split; [now apply Habs|]. split; [now apply Habs|].
    split; [now apply Habs|].
    split; [intros i Hlt; apply Habs, He, Hlt|].
    split; [exact H6|]. split; [exact H7|].
    split; [exact Hi | exact Hbuf].
  - intros Loots Badges Emotes version nameMaxLength d rest Hc Hm.
    destruct (join_reads Loots Badges Emotes version nameMaxLength d Hc Hm
                (fromBytes (Layout.join Loots Badges Emotes version
                                        nameMaxLength d ++ rest))
                rest (wf_fromBytes _) eq_refl)
      as (s' & Hd & Hb & Hi).
    exists s'. split; [exact Hd|].
    exact (proj2 (reads_after _ _ rest s' (wf_fromBytes _) eq_refl Hb Hi)).
Qed.

Lemma deserialize_follows_flags_witness :
  (exists d s',
      MathFeedbackPacket.deserialize (fromBytes [x01; x00; x07; xff])
      = OK (d, s')
      /\ MathFeedbackPacket.xpEarned d = None
      /\ MathFeedbackPacket.totalXP d = None
      /\ index s' = 3%nat)
  /\ (exists d s',
         deserialize Samples.registry Samples.registry Samples.registry 16
                     (fromBytes (Samples.markedJoinBytes ++ [xff; xff]))
         = OK (d, s')
         /\ isMobile (fields d) = true
         /\ badge (fields d) = None
         /\ authToken (fields d) = None
         /\ studentId (fields d) = None
         /\ index s' = 15%nat).
Proof.
  destruct deserialize_follows_flags
    as (_ & Hfeed & Henough & _ & Hjoin & _).
  split.
  - destruct (Henough (fromBytes [x01; x00; x07; xff])
                (unpackBits 8 1) {| buffer := [x01; x00; x07; xff];
                                    index := 1 |})
      as (d & s' & E); [reflexivity | vm_compute; lia |].
    exists d, s'. split; [exact E|].
    destruct (Hfeed _ _ _ E) as (flags & s1 & Hf & _ & Hx & Ht & Hi).
    vm_compute in Hf. injection Hf as <- _.
    split; [now apply Hx | split; [now apply Ht | exact Hi]].
  - destruct (deserialize Samples.registry Samples.registry Samples.registry
                16 (fromBytes (Samples.markedJoinBytes ++ [xff; xff])))
      as [[d s']|e] eqn:E; [|vm_compute in E; discriminate E].
    exists d, s'. split; [reflexivity|].
    destruct (Hjoin _ _ _ _ _ _ _ E)
      as (flags & s1 & s2 & raw & s3 & Hf & Hv & Hn & _ & Hm & Hb & Ha & Hs
          & _ & _ & _ & Hi & _).
    vm_compute in Hf. injection Hf as <- <-.
    assert (Hb' : badge (fields d) = None) by now apply Hb.
    assert (Ha' : authToken (fields d) = None) by now apply Ha.
    assert (Hs' : studentId (fields d) = None) by now apply Hs.
    split; [exact Hm|]. split; [exact Hb'|]. split; [exact Ha'|].
    split; [exact Hs'|].
    apply readUintN_after in Hv. subst s2.
    vm_compute in Hn. injection Hn as <- _.
    rewrite Hi. unfold Layout.joinConsumed. rewrite Ha', Hs'.
    reflexivity.
Defined.

(** C8.  A byte sequence shorter than the shortest encoding of a
    packet (5 bytes for the math challenge, 4 for the answer, 3 for
    the feedback; the group, the version, an empty name and the
    skin for the join packet) is decoded to the error Truncated, not
    to a payload; an error of a read is the error of the whole
    decoding that follows it; the math packets know no other error,
    and a payload they return was read within the buffer. *)
Theorem short_input_is_truncated :
  (forall bs, (length bs < 5)%nat ->
              MathProblemPacket.deserialize (fromBytes bs) = Err Truncated)
  /\ (forall bs, (length bs < 4)%nat ->
                 MathAnswerPacket.deserialize (fromBytes bs) = Err Truncated)
  /\ (forall bs, (length bs < 3)%nat ->
                 MathFeedbackPacket.deserialize (fromBytes bs) = Err Truncated)
  /\ (forall Loots Badges Emotes nameMaxLength bs,
         (length bs < Layout.joinMinimum Loots nameMaxLength)%nat ->
         deserialize Loots Badges Emotes nameMaxLength (fromBytes bs)
         = Err Truncated)
  /\ (forall (A B : Type) (m : M A) (k : A -> M B) s e,
         m s = Err e -> bind m k s = Err e)
  /\ (truncOnly MathProblemPacket.deserialize
      /\ advances MathProblemPacket.deserialize 5)
  /\ (truncOnly MathAnswerPacket.deserialize
      /\ advances MathAnswerPacket.deserialize 4)
  /\ (truncOnly MathFeedbackPacket.deserialize
      /\ advances MathFeedbackPacket.deserialize 3).
Proof.
  split; [|split; [|split; [|split; [|split; [|split; [|split]]]]]].
  - intros bs H.
    exact (short_input_truncated _ 5 bs mathProblem_advances
             mathProblem_truncOnly H).
  - intros bs H.
    exact (short_input_truncated _ 4 bs mathAnswer_advances
             mathAnswer_truncOnly H).
  - intros bs H.
    exact (short_input_truncated _ 3 bs mathFeedback_advances
             mathFeedback_truncOnly H).
  - intros Loots Badges Emotes nameMaxLength bs H.
    now apply join_short_input.
  - intros A B m k s e H. unfold bind. now rewrite H.
  - split; [apply mathProblem_truncOnly | apply mathProblem_advances].
  - split; [apply mathAnswer_truncOnly | apply mathAnswer_advances].
  - split; [apply mathFeedback_truncOnly | apply mathFeedback_advances].
Qed.

Lemma short_input_is_truncated_witness :
  MathProblemPacket.deserialize (fromBytes [x01; x33; x00; x03]) = Err Truncated
  /\ MathFeedbackPacket.deserialize (fromBytes [x07; x00]) = Err Truncated.
Proof.
  destruct short_input_is_truncated as (H1 & _ & H3 & _).
  split; [apply H1 | apply H3]; simpl; lia.
Defined.

End Claims.

Module ManagerClaims.

Import stdpp.base stdpp.gmap stdpp.strings.
Import MathProblemManager.
#[local] Open Scope string_scope.
#[local] Open Scope Z_scope.

(** C9.  Whatever the draws of a generator that respects its bounds,
    the problem returned by [generateProblem] is an addition, a
    subtraction of the smaller operand from the larger, a
    multiplication, or an exact division of single digits; its
    answer lies between 0 and 81, and is the answer decoded from an
    answer packet that carries it. *)
Theorem generateProblem_answer_range
    (Rng : Type) (random : Z -> Z -> Rng -> Z * Rng) (w : World Rng) :
  (forall lo hi g, lo <= hi -> lo <= fst (random lo hi g) <= hi) ->
  let p := fst (generateProblem Rng random w) in
  0 <= answer p <= 81
  /\ ProblemSpec.wellPosed p
  /\ -32768 <= answer p < 32768
  /\ forall problemId' capacity s,
       MathAnswerPacket.serialize
         {| MathAnswerPacket.answer := answer p;
            MathAnswerPacket.problemId := problemId' |} (alloc capacity)
       = OK (tt, s) ->
       exists d s',
         MathAnswerPacket.deserialize (fromBytes (written s)) = OK (d, s')
         /\ MathAnswerPacket.answer d = answer p.
Proof.
  intros Hrange p.
  pose proof (ManagerFacts.generateProblem_wellPosed Rng random Hrange w) as Hw.
  fold p in Hw.
  pose proof (ManagerFacts.wellPosed_answer_range p Hw) as Ha.
  repeat split; try lia; try assumption.
  intros problemId' capacity s Hs.
  destruct (roundtrip _ _ _ _ _ _ (mathAnswer_writes _) (mathAnswer_reads _) Hs)
    as (s' & Hd & _).
  eexists _, s'. split; [exact Hd|].
  cbn [Layout.mathAnswerDecoded MathAnswerPacket.answer].
  apply wrapInt16_small. lia.
Qed.

Lemma counter_range lo hi (g : nat) :
  lo <= hi -> lo <= fst (Samples.counter lo hi g) <= hi.
Proof.
  intros H. unfold Samples.counter. cbn [fst].
  pose proof (Z.mod_pos_bound (Z.of_nat g) (hi - lo + 1)). lia.
Qed.

Lemma generateProblem_answer_range_witness :
  0 <= answer (fst (generateProblem nat Samples.counter Samples.world)) <= 81.
Proof.
  apply (generateProblem_answer_range nat Samples.counter Samples.world
           counter_range).
Defined.

(** C10.  [validateAnswer] returns true exactly when the player has
    an active problem with the submitted identifier and the
    submitted answer; when it returns false, the manager, the
    player and its inventory are as they were. *)
Theorem validateAnswer_verdict
    (Rng : Type) (random : Z -> Z -> Rng -> Z * Rng) (w : World Rng)
    (answer' problemId' : Z) (r : bool) (w' : World Rng) :
  validateAnswer Rng random answer' problemId' w = (r, w') ->
  (r = true <->
   exists p, activeProblem (manager Rng w) !! id (player Rng w) = Some p
             /\ problemId p = problemId' /\ answer p = answer')
  /\ (r = false ->
      w' = w
      /\ items (player Rng w') = items (player Rng w)
      /\ activeProblem (manager Rng w') !! id (player Rng w')
         = activeProblem (manager Rng w) !! id (player Rng w)).
Proof.
  intros H.
  destruct (ManagerFacts.validateAnswer_spec Rng random w _ _ _ _ H)
    as [Hiff Hsame].
  split; [exact Hiff|]. intros Hr. specialize (Hsame Hr). subst w'. auto.
Qed.

Lemma validateAnswer_verdict_witness :
  exists w',
    validateAnswer nat Samples.counter 8 7 Samples.world = (false, w')
    /\ w' = Samples.world.
Proof.
  destruct (validateAnswer nat Samples.counter 8 7 Samples.world)
    as [r w'] eqn:E.
  assert (Hr : r = false) by (apply (f_equal fst) in E; vm_compute in E; congruence).
  subst r. exists w'. split; [reflexivity|].
  apply (validateAnswer_verdict nat Samples.counter Samples.world 8 7 false w' E).
  reflexivity.
Defined.

End ManagerClaims.

(** * Further properties *)

(** ** What the readers can return *)

Section ReaderFacts.

Lemma Z_of_byte_range b : 0 <= Z_of_byte b < 256.
Proof.
  unfold Z_of_byte. pose proof (Byte.to_N_bounded b). lia.
Qed.

Lemma fold_decode_range bs acc :
  0 <= acc ->
  acc * 256 ^ Z.of_nat (length bs)
  <= fold_left (fun a b => a * 256 + Z_of_byte b) bs acc
  < (acc + 1) * 256 ^ Z.of_nat (length bs).
Proof.
  revert acc. induction bs as [|b bs IH]; intros acc Hacc.
  - cbn [fold_left length]. change (256 ^ Z.of_nat 0) with 1. lia.
  - cbn [fold_left length]. rewrite pow256_succ.
    pose proof (Z_of_byte_range b) as Hb.
    pose proof (pow256_pos (length bs)) as Hp.
    specialize (IH (acc * 256 + Z_of_byte b) ltac:(lia)). nia.
Qed.

Lemma decodeBE_range bs : 0 <= decodeBE bs < 256 ^ Z.of_nat (length bs).
Proof.
  unfold decodeBE. pose proof (fold_decode_range bs 0 ltac:(lia)). lia.
Qed.

Lemma readBytes_length n s bs s' :
  readBytes n s = OK (bs, s') -> length bs = n.
Proof.
  unfold readBytes.
  destruct (index s + n <=? length (buffer s))%nat eqn:E; [|discriminate].
  apply Nat.leb_le in E. intros [= <- _].
  rewrite length_firstn, length_skipn. lia.
Qed.

(** An unsigned read of [width] bytes returns a number of [width]
    bytes. *)
Lemma readUintN_range width s v s' :
  readUintN width s = OK (v, s') -> 0 <= v < 256 ^ Z.of_nat width.
Proof.
  unfold readUintN. intros H.
  apply bind_OK in H as (bs & s1 & Hb & Hr).
  apply readBytes_length in Hb. injection Hr as <- _.
  rewrite <- Hb. apply decodeBE_range.
Qed.

Lemma mathAnswer_decoded_range s d s' :
  MathAnswerPacket.deserialize s = OK (d, s') ->
  Layout.mathAnswerValid d.
Proof.
  unfold MathAnswerPacket.deserialize, readInt16, readUint16. intros H.
  apply bind_OK in H as (a & s1 & Ha & H).
  apply bind_OK in Ha as (u & s0 & Hu & Ha).
  apply bind_OK in H as (i & s2 & Hi & H).
  apply readUintN_range in Hu, Hi.
  change (256 ^ Z.of_nat 2) with 65536 in Hu, Hi.
  injection Ha as <- _. injection H as <- _.
  unfold Layout.mathAnswerValid.
  cbn [MathAnswerPacket.answer MathAnswerPacket.problemId].
  destruct (u <? 32768) eqn:E;
    [apply Z.ltb_lt in E | apply Z.ltb_ge in E]; lia.
Qed.

End ReaderFacts.

(** ** The math problem manager: state, rewards and identifiers *)

Module ManagerEffects.

Import stdpp.base stdpp.gmap stdpp.strings.
Import MathProblemManager ManagerSpec.
#[local] Open Scope string_scope.
#[local] Open Scope Z_scope.

Lemma length_append (s1 s2 : string) :
  String.length (s1 ++ s2) = (String.length s1 + String.length s2)%nat.
Proof.
  induction s1 as [|c s1 IH]; [reflexivity|].
  change (String.length (String c (s1 ++ s2))
          = S (String.length s1 + String.length s2)).
  cbn [String.length]. now rewrite IH.
Qed.

Lemma length_show_small (k : nat) :
  (k <= 81)%nat -> (String.length (show (Z.of_nat k)) <= 2)%nat.
Proof.
  intros Hk.
  do 82 (destruct k as [|k]; [vm_compute; lia|]). lia.
Qed.

Lemma length_show n : 0 <= n <= 81 -> (String.length (show n) <= 2)%nat.
Proof.
  intros Hn. rewrite <- (Z2Nat.id n) by lia. apply length_show_small. lia.
Qed.

(** The text of a well-posed problem has at most 13 bytes. *)
Lemma wellPosed_length p :
  ProblemSpec.wellPosed p -> (String.length (problem p) <= 13)%nat.
Proof.
  intros [(a & b & Ha & Hb & -> & _)
         |[(a & b & Hb & Hab & Ha & -> & _)
          |[(a & b & Ha & Hb & -> & _)
           |(q & d & Hq & Hd & -> & _)]]];
    rewrite !length_append;
    change (String.length " + ") with 3%nat;
    change (String.length " - ") with 3%nat;
    change (String.length timesSign) with 7%nat;
    change (String.length divideSign) with 8%nat.
  - pose proof (length_show a). pose proof (length_show b). lia.
  - pose proof (length_show a). pose proof (length_show b). lia.
  - pose proof (length_show a). pose proof (length_show b). lia.
  - pose proof (length_show (q * d)). pose proof (length_show d). nia.
Qed.

Lemma consumableItems_length item :
  In item consumableItems -> (String.length item <= 13)%nat.
Proof.
  unfold consumableItems. cbn [In].
  intros H; repeat (destruct H as [<-|H]; [vm_compute; lia|]); destruct H.
Qed.

Section WithRandom.

Variable Rng : Type.
Variable random : Z -> Z -> Rng -> Z * Rng.
Hypothesis random_range :
  forall lo hi g, lo <= hi -> lo <= fst (random lo hi g) <= hi.

Lemma rand_frame lo hi (w : World Rng) v w' :
  rand Rng random lo hi w = (v, w') ->
  manager Rng w' = manager Rng w /\ player Rng w' = player Rng w.
Proof.
  unfold rand. destruct (random lo hi (rng Rng w)) as [v0 g].
  intros [= _ <-]. auto.
Qed.

Lemma rand_both lo hi (w : World Rng) v w' :
  lo <= hi -> rand Rng random lo hi w = (v, w') ->
  lo <= v <= hi
  /\ manager Rng w' = manager Rng w /\ player Rng w' = player Rng w.
Proof.
  intros Hle H. split.
  - exact (ManagerFacts.rand_range Rng random random_range lo hi w v w' Hle H).
  - exact (rand_frame lo hi w v w' H).
Qed.

(** The reward count of an item lies within the bounds of its kind,
    and the draw touches neither the manager nor the player. *)
Lemma getRewardCount_spec itemType (w : World Rng) c w' :
  getRewardCount Rng random itemType w = (c, w') ->
  1 <= c <= 30
  /\ rewardTable itemType c
  /\ manager Rng w' = manager Rng w /\ player Rng w' = player Rng w.
Proof.
  unfold getRewardCount, rewardTable, wret.
  destruct (String.eqb itemType "gauze") eqn:E1;
    [|destruct (String.eqb itemType "medikit") eqn:E2;
      [|destruct (String.eqb itemType "cola") eqn:E3;
        [|destruct (String.eqb itemType "tablets") eqn:E4;
          [|destruct (String.eqb itemType "12g") eqn:E5;
            [|destruct (String.eqb itemType "556mm") eqn:E6;
              [|destruct (String.eqb itemType "762mm") eqn:E7;
                [|destruct (String.eqb itemType "9mm") eqn:E8;
                  [|destruct (String.eqb itemType "frag_grenade") eqn:E9;
                    [|destruct (String.eqb itemType "smoke_grenade")
                        eqn:E10]]]]]]]]];
    cbn [orb]; intros H;
    first [ apply rand_both in H; [|lia]; destruct H as (Hr & Hm & Hp)
          | injection H as <- <- ];
    repeat match goal with
           | E : String.eqb _ _ = true |- _ =>
               apply String.eqb_eq in E; subst itemType
           | E : String.eqb _ _ = false |- _ => apply String.eqb_neq in E
           end;
    (split; [lia|]); (split; [|split; [assumption || reflexivity
                                      |assumption || reflexivity]]);
    repeat split; intros;
    repeat match goal with
           | H : _ \/ _ |- _ => destruct H
           end;
    first [lia | congruence].
Qed.

Lemma consumableItems_nth k :
  0 <= k <= Z.of_nat (length consumableItems) - 1 ->
  In (nth (Z.to_nat k) consumableItems EmptyString) consumableItems.
Proof.
  intros Hk. apply nth_In. lia.
Qed.

(** What [generateProblem] returns and what it leaves behind. *)
Lemma generateProblem_effect (w : World Rng) p w' :
  generateProblem Rng random w = (p, w') ->
  ProblemSpec.wellPosed p
  /\ In (rewardType p) consumableItems
  /\ 1 <= rewardCount p <= 30
  /\ rewardTable (rewardType p) (rewardCount p)
  /\ problemId p = nextProblemId (manager Rng w)
  /\ manager Rng w'
     = {| activeProblem := <[id (player Rng w) := p]>
                             (activeProblem (manager Rng w));
          nextProblemId := nextProblemId (manager Rng w) + 1 |}
  /\ player Rng w' = player Rng w.
Proof.
  intros H.
  pose proof (ManagerFacts.generateProblem_wellPosed Rng random random_range w)
    as Hwp.
  rewrite H in Hwp. cbn [fst] in Hwp. split; [exact Hwp|]. clear Hwp.
  revert H. unfold generateProblem, wbind.
  destruct (rand Rng random 1 9 w) as [num1 w1] eqn:E1.
  destruct (rand Rng random 1 9 w1) as [num2 w2] eqn:E2.
  destruct (rand Rng random 0 3 w2) as [operation w3] eqn:E3.
  apply rand_frame in E1 as (M1 & P1).
  apply rand_frame in E2 as (M2 & P2).
  apply rand_frame in E3 as (M3 & P3).
  match goal with
  | |- (let (_, _) := ?m w3 in _) = _ -> _ =>
      destruct (m w3) as [pa w4] eqn:E4
  end.
  assert (F4 : manager Rng w4 = manager Rng w3 /\ player Rng w4 = player Rng w3).
  { revert E4.
    destruct operation as [|[[|[]|]|[]|]|]; unfold wret;
      try (intros [= _ <-]; auto);
      try (destruct (num1 >=? num2); intros [= _ <-]; auto).
    destruct (rand Rng random 1 9 w3) as [result w3a] eqn:Ea.
    destruct (rand Rng random 1 9 w3a) as [divisor w3b] eqn:Eb.
    apply rand_frame in Ea as (Ma & Pa). apply rand_frame in Eb as (Mb & Pb).
    intros [= _ <-]. split; congruence. }
  destruct F4 as (M4 & P4).
  destruct (rand Rng random 0 (Z.of_nat (length consumableItems) - 1) w4)
    as [k w5] eqn:E5.
  apply rand_both in E5 as (Hk & M5 & P5); [|simpl; lia].
  destruct (getRewardCount Rng random
              (nth (Z.to_nat k) consumableItems EmptyString) w5)
    as [rc w6] eqn:E6.
  apply getRewardCount_spec in E6 as (Hrc & Htab & M6 & P6).
  unfold getManager, getPlayer, setManager, wret.
  intros [= <- <-]. cbn [rewardType rewardCount problemId manager player].
  split; [now apply consumableItems_nth|].
  split; [exact Hrc|]. split; [exact Htab|].
  repeat split; congruence.
Qed.

(** A generated problem becomes the current problem of its player and
    takes the next identifier; the counter moves by one, the player
    and the problems of the other players are left as they were. *)
Theorem generateProblem_stores (w : World Rng) p w' :
  generateProblem Rng random w = (p, w') ->
  getCurrentProblem Rng w' = (Some p, w')
  /\ problemId p = nextProblemId (manager Rng w)
  /\ nextProblemId (manager Rng w') = nextProblemId (manager Rng w) + 1
  /\ player Rng w' = player Rng w
  /\ forall k, k <> id (player Rng w) ->
       activeProblem (manager Rng w') !! k
       = activeProblem (manager Rng w) !! k.
Proof.
  intros H.
  destruct (generateProblem_effect w p w' H)
    as (_ & _ & _ & _ & Hid & Hm & Hp).
  unfold getCurrentProblem, wbind, getManager, getPlayer, wret.
  rewrite Hm, Hp. cbn [activeProblem nextProblemId].
  rewrite lookup_insert_eq. repeat split; auto.
  intros k Hk. now rewrite lookup_insert_ne by congruence.
Qed.

Lemma isConsumable_consumableItems item :
  In item consumableItems -> isConsumable item = true.
Proof.
  unfold consumableItems. cbn [In].
  intros H; repeat (destruct H as [<-|H]; [reflexivity|]); destruct H.
Qed.

(** The reward of a generated problem is one of the ten items of the
    manager, an item that [isConsumable] accepts, in a number within
    the bounds of its kind and between 1 and 30 in any case. *)
Theorem generateProblem_reward (w : World Rng) p w' :
  generateProblem Rng random w = (p, w') ->
  In (rewardType p) consumableItems
  /\ isConsumable (rewardType p) = true
  /\ rewardTable (rewardType p) (rewardCount p)
  /\ 1 <= rewardCount p <= 30.
Proof.
  intros H.
  destruct (generateProblem_effect w p w' H)
    as (_ & Hin & Hc & Ht & _).
  split; [exact Hin|].
  split; [now apply isConsumable_consumableItems|].
  split; [exact Ht | exact Hc].
Qed.

Lemma jsAdd_exact a b : Z.abs (a + b) <= 2 ^ 53 -> jsAdd a b = a + b.
Proof.
  intros H. unfold jsAdd, roundDouble.
  destruct (Z.abs (a + b) <=? 2 ^ 53) eqn:E; [reflexivity|].
  apply Z.leb_gt in E. lia.
Qed.

(** Beyond 2^53 a sum is rounded: three more than 2^53 is stored
    as four more. *)
Lemma jsAdd_rounds : jsAdd (2 ^ 53) 3 = 2 ^ 53 + 4.
Proof. reflexivity. Qed.

(** What a correct answer does: the verdict is [true] only for the
    player's current problem, and then the world after is the world
    before with one call of [setItem] more, the flag raised, the
    problem replaced by a fresh one and that one sent. *)
Lemma validateAnswer_correct_effect (w : World Rng) answer' problemId' w' :
  validateAnswer Rng random answer' problemId' w = (true, w') ->
  exists active fresh,
    activeProblem (manager Rng w) !! id (player Rng w) = Some active
    /\ problemId active = problemId' /\ answer active = answer'
    /\ manager Rng w'
       = {| activeProblem :=
              <[id (player Rng w) := fresh]>
                (delete (id (player Rng w)) (activeProblem (manager Rng w)));
            nextProblemId := nextProblemId (manager Rng w) + 1 |}
    /\ player Rng w'
       = {| id := id (player Rng w);
            items :=
              {| setCalls :=
                   (setCalls (items (player Rng w))
                    ++ [(rewardType active,
                         jsAdd (fst (getItem Rng (rewardType active) w))
                               (rewardCount active))])%list;
                 answers := answers (items (player Rng w)) |};
            dirtyItems := true;
            sentPackets := (sentPackets (player Rng w) ++ [packetOf fresh])%list |}
    /\ problemId fresh = nextProblemId (manager Rng w)
    /\ ProblemSpec.wellPosed fresh
    /\ rewardValid fresh
    /\ 1 <= rewardCount fresh <= 30.
Proof.
  unfold validateAnswer, wbind, getManager, getPlayer.
  destruct (activeProblem (manager Rng w) !! id (player Rng w))
    as [active|] eqn:Ea; [|unfold wret; discriminate].
  destruct (problemId active =? problemId') eqn:Ei; cbn [negb];
    [|unfold wret; discriminate].
  destruct (answer active =? answer') eqn:Ec; [|unfold wret; discriminate].
  apply Z.eqb_eq in Ei, Ec.
  unfold getItem, setItem, setDirtyItems, setManager, setPlayer, sendPacket,
    wbind, getPlayer, getManager, wret.
  cbn [manager player rng id items dirtyItems sentPackets].
  match goal with
  | |- context [generateProblem Rng random ?w0] =>
      destruct (generateProblem Rng random w0) as [fresh w1] eqn:Eg
  end.
  apply generateProblem_effect in Eg
    as (Hwp & Hin & Hrc & Ht & Hid & Hm & Hp).
  cbn [manager player rng id activeProblem nextProblemId] in Hid, Hm, Hp.
  intros [= <-]. exists active, fresh.
  cbn [manager player]. rewrite Hm, Hp.
  cbn [id items dirtyItems sentPackets].
  split; [reflexivity|]. split; [exact Ei|]. split; [exact Ec|].
  split; [reflexivity|]. split; [reflexivity|]. split; [exact Hid|].
  split; [exact Hwp|]. split; [split; assumption | exact Hrc].
Qed.

(** The player who answers the current problem correctly is
    rewarded by one call of [setItem] on the item collection, for
    the reward item of the solved problem, with the amount [getItem]
    answered for that item plus the reward count, added as doubles
    are (the exact sum as long as it stays within 2^53); no other
    call of [setItem] is made.  The inventory is flagged as changed,
    and the player is sent exactly one packet, the one of the fresh
    problem that replaces the solved one. *)
Theorem validateAnswer_rewards (w : World Rng) answer' problemId' w' :
  validateAnswer Rng random answer' problemId' w = (true, w') ->
  exists active fresh amount,
    getCurrentProblem Rng w = (Some active, w)
    /\ getCurrentProblem Rng w' = (Some fresh, w')
    /\ getItem Rng (rewardType active) w = (amount, w)
    /\ setCalls (items (player Rng w'))
       = (setCalls (items (player Rng w))
          ++ [(rewardType active, jsAdd amount (rewardCount active))])%list
    /\ answers (items (player Rng w')) = answers (items (player Rng w))
    /\ (Z.abs (amount + rewardCount active) <= 2 ^ 53 ->
        jsAdd amount (rewardCount active) = amount + rewardCount active)
    /\ dirtyItems (player Rng w') = true
    /\ sentPackets (player Rng w')
       = (sentPackets (player Rng w) ++ [packetOf fresh])%list
    /\ id (player Rng w') = id (player Rng w)
    /\ problemId fresh = nextProblemId (manager Rng w)
    /\ ProblemSpec.wellPosed fresh.
Proof.
  intros H.
  destruct (validateAnswer_correct_effect w answer' problemId' w' H)
    as (active & fresh & Ha & _ & _ & Hm & Hp & Hid & Hwp & _).
  exists active, fresh, (fst (getItem Rng (rewardType active) w)).
  unfold getCurrentProblem, wbind, getManager, getPlayer, wret.
  rewrite Hm, Hp, Ha.
  cbn [id items dirtyItems sentPackets activeProblem setCalls answers].
  rewrite lookup_insert_eq.
  split; [reflexivity|]. split; [reflexivity|]. split; [reflexivity|].
  split; [reflexivity|]. split; [reflexivity|].
  split; [apply jsAdd_exact|].
  repeat split; auto.
Qed.

Lemma removeProblem_effect (w : World Rng) :
  removeProblem Rng w
  = (tt, {| manager :=
              {| activeProblem :=
                   delete (id (player Rng w)) (activeProblem (manager Rng w));
                 nextProblemId := nextProblemId (manager Rng w) |};
            player := player Rng w; rng := rng Rng w |}).
Proof. reflexivity. Qed.

Lemma initializeProblem_effect (w : World Rng) u w' :
  initializeProblem Rng random w = (u, w') ->
  exists fresh w1,
    generateProblem Rng random w = (fresh, w1)
    /\ manager Rng w' = manager Rng w1
    /\ player Rng w'
       = {| id := id (player Rng w); items := items (player Rng w);
            dirtyItems := dirtyItems (player Rng w);
            sentPackets := (sentPackets (player Rng w) ++ [packetOf fresh])%list |}.
Proof.
  unfold initializeProblem, wbind.
  destruct (generateProblem Rng random w) as [fresh w1] eqn:Eg.
  pose proof (generateProblem_effect w fresh w1 Eg)
    as (_ & _ & _ & _ & _ & _ & Hp).
  unfold sendPacket, wbind, getPlayer, setPlayer.
  intros [= _ <-]. exists fresh, w1. cbn [manager player].
  rewrite Hp. auto.
Qed.

Lemma sound_insert m k p :
  sound m -> ProblemSpec.wellPosed p -> rewardValid p ->
  problemId p = nextProblemId m ->
  sound {| activeProblem := <[k := p]> (activeProblem m);
           nextProblemId := nextProblemId m + 1 |}.
Proof.
  intros (Hn & Hb & Hd & Ha) Hwp Hrv Hid.
  unfold sound, idsBelowNext, distinctIds. cbn [activeProblem nextProblemId].
  split; [lia|]. split; [|split].
  - intros k' q Hq. apply lookup_insert_Some in Hq as [[_ <-]|[_ Hq]].
    + lia.
    + specialize (Hb _ _ Hq). lia.
  - intros k1 k2 q1 q2 H1 H2 He.
    apply lookup_insert_Some in H1 as [[<- <-]|[N1 H1]];
      apply lookup_insert_Some in H2 as [[<- <-]|[N2 H2]].
    + reflexivity.
    + specialize (Hb _ _ H2). lia.
    + specialize (Hb _ _ H1). lia.
    + eapply Hd; eauto.
  - intros k' q Hq. apply lookup_insert_Some in Hq as [[_ <-]|[_ Hq]].
    + split; [lia|]. split; assumption.
    + eapply Ha; eauto.
Qed.

Lemma sound_delete m k :
  sound m ->
  sound {| activeProblem := delete k (activeProblem m);
           nextProblemId := nextProblemId m |}.
Proof.
  intros (Hn & Hb & Hd & Ha).
  unfold sound, idsBelowNext, distinctIds. cbn [activeProblem nextProblemId].
  split; [lia|]. split; [|split].
  - intros k' q Hq. apply lookup_delete_Some in Hq as [_ Hq]. eauto.
  - intros k1 k2 q1 q2 H1 H2.
    apply lookup_delete_Some in H1 as [_ H1].
    apply lookup_delete_Some in H2 as [_ H2]. eauto.
  - intros k' q Hq. apply lookup_delete_Some in Hq as [_ Hq]. eauto.
Qed.

Lemma generateProblem_sound (w : World Rng) p w' :
  sound (manager Rng w) -> generateProblem Rng random w = (p, w') ->
  sound (manager Rng w').
Proof.
  intros Hs H.
  destruct (generateProblem_effect w p w' H)
    as (Hwp & Hin & _ & Ht & Hid & Hm & _).
  rewrite Hm. apply sound_insert; auto. split; auto.
Qed.

Lemma step_sound (w w' : World Rng) :
  sound (manager Rng w) -> step Rng random w w' -> sound (manager Rng w').
Proof.
  intros Hs Hst. revert Hs.
  destruct Hst as [w|answer' problemId' w|w|w|p w]; intros Hs.
  - destruct (generateProblem Rng random w) as [p w1] eqn:E.
    cbn [snd]. eapply generateProblem_sound; eauto.
  - destruct (validateAnswer Rng random answer' problemId' w) as [r w1] eqn:E.
    cbn [snd]. destruct r.
    + destruct (validateAnswer_correct_effect w _ _ _ E)
        as (active & fresh & _ & _ & _ & Hm & _ & Hid & Hwp & Hrv & _).
      rewrite Hm.
      exact (sound_insert
               {| activeProblem := delete (id (player Rng w))
                                          (activeProblem (manager Rng w));
                  nextProblemId := nextProblemId (manager Rng w) |}
               (id (player Rng w)) fresh
               (sound_delete _ _ Hs) Hwp Hrv Hid).
    + apply (ManagerFacts.validateAnswer_spec Rng random) in E as [_ E].
      now rewrite (E eq_refl).
  - rewrite removeProblem_effect. cbn [snd manager]. now apply sound_delete.
  - destruct (initializeProblem Rng random w) as [u w1] eqn:E. cbn [snd].
    destruct (initializeProblem_effect w u w1 E) as (fresh & w2 & Eg & Hm & _).
    rewrite Hm. eapply generateProblem_sound; eauto.
  - exact Hs.
Qed.

(** A reward is granted once: under the manager's numbering of
    problems, after a correct answer the same problem identifier is
    refused, whatever the answer sent with it, and the refusal
    changes nothing. *)
Theorem validateAnswer_once (w : World Rng) answer' problemId' w' :
  idsBelowNext (manager Rng w) ->
  validateAnswer Rng random answer' problemId' w = (true, w') ->
  forall again, validateAnswer Rng random again problemId' w' = (false, w').
Proof.
  intros Hb H again.
  destruct (validateAnswer_correct_effect w answer' problemId' w' H)
    as (active & fresh & Ha & Hi & _ & Hm & Hp & Hid & _).
  specialize (Hb _ _ Ha).
  unfold validateAnswer, wbind, getManager, getPlayer.
  rewrite Hm, Hp. cbn [activeProblem id].
  rewrite lookup_insert_eq.
  destruct (problemId fresh =? problemId') eqn:E; [|reflexivity].
  apply Z.eqb_eq in E. lia.
Qed.

(** After [removeProblem] the player has no current problem and any
    answer is refused; the player, the counter and the problems of
    the other players are as before, and removing again changes
    nothing. *)
Theorem removeProblem_clears (w : World Rng) :
  let w' := snd (removeProblem Rng w) in
  getCurrentProblem Rng w' = (None, w')
  /\ (forall answer' problemId',
        validateAnswer Rng random answer' problemId' w' = (false, w'))
  /\ player Rng w' = player Rng w
  /\ nextProblemId (manager Rng w') = nextProblemId (manager Rng w)
  /\ (forall k, k <> id (player Rng w) ->
        activeProblem (manager Rng w') !! k
        = activeProblem (manager Rng w) !! k)
  /\ removeProblem Rng w' = (tt, w').
Proof.
  rewrite removeProblem_effect. cbn [snd].
  unfold getCurrentProblem, validateAnswer, wbind, getManager, getPlayer, wret.
  cbn [manager player activeProblem nextProblemId].
  rewrite lookup_delete_eq.
  repeat split.
  - intros k Hk. now rewrite lookup_delete_ne by congruence.
  - rewrite removeProblem_effect.
    cbn [manager player rng activeProblem nextProblemId].
    rewrite (delete_id (delete _ _)) by apply lookup_delete_eq.
    reflexivity.
Qed.

(** The problem of a new player travels whole.  [initializeProblem]
    makes a fresh problem the player's current one and sends one
    packet for it, touching nothing else of the player; while the
    counter is below 65536 that packet fits in 32 bytes and the
    client decodes from it the very text, reward and identifier the
    manager has stored. *)
Theorem initializeProblem_delivers (w : World Rng) u w' :
  0 <= nextProblemId (manager Rng w) < 65536 ->
  initializeProblem Rng random w = (u, w') ->
  exists fresh,
    getCurrentProblem Rng w' = (Some fresh, w')
    /\ sentPackets (player Rng w')
       = (sentPackets (player Rng w) ++ [packetOf fresh])%list
    /\ items (player Rng w') = items (player Rng w)
    /\ dirtyItems (player Rng w') = dirtyItems (player Rng w)
    /\ (forall capacity, (32 <= capacity)%nat ->
          exists s, MathProblemPacket.serialize (packetOf fresh) (alloc capacity)
                    = OK (tt, s))
    /\ (forall capacity s,
          MathProblemPacket.serialize (packetOf fresh) (alloc capacity)
          = OK (tt, s) ->
          exists s', MathProblemPacket.deserialize (fromBytes (written s))
                     = OK (packetOf fresh, s')).
Proof.
  intros Hn H.
  destruct (initializeProblem_effect w u w' H) as (fresh & w1 & Eg & Hm & Hp).
  destruct (generateProblem_effect w fresh w1 Eg)
    as (Hwp & Hin & Hrc & _ & Hid & Hm1 & Hp1).
  exists fresh.
  assert (Hv : Layout.mathProblemValid (packetOf fresh)).
  { unfold Layout.mathProblemValid, packetOf.
    cbn [MathProblemPacket.problem MathProblemPacket.rewardType
         MathProblemPacket.rewardCount MathProblemPacket.problemId].
    pose proof (wellPosed_length fresh Hwp).
    pose proof (consumableItems_length _ Hin).
    repeat split; lia. }
  unfold getCurrentProblem, wbind, getManager, getPlayer, wret.
  rewrite Hm, Hp, Hm1. cbn [activeProblem id items dirtyItems sentPackets].
  rewrite lookup_insert_eq.
  split; [reflexivity|]. split; [reflexivity|].
  split; [reflexivity|]. split; [reflexivity|]. split.
  - intros capacity Hc.
    pose proof (mathProblem_writes (packetOf fresh) (alloc capacity)
                  (wf_alloc capacity)) as Hw.
    rewrite length_buffer_alloc in Hw. cbn [index alloc] in Hw.
    assert (Hl : (length (Layout.mathProblem (packetOf fresh)) <= 32)%nat).
    { unfold Layout.mathProblem, encString, packetOf.
      cbn [MathProblemPacket.problem MathProblemPacket.rewardType
           MathProblemPacket.rewardCount MathProblemPacket.problemId].
      rewrite !length_app, !length_encodeBE.
      unfold cut. rewrite !length_firstn, !length_list_byte_of_string.
      pose proof (wellPosed_length fresh Hwp).
      pose proof (consumableItems_length _ Hin).
      change (widthFor (Z.of_nat 32 + 1)) with 1%nat. lia. }
    destruct (0 + length (Layout.mathProblem (packetOf fresh)) <=? capacity)%nat
      eqn:E.
    + destruct Hw as (s & Hs & _). eauto.
    + apply Nat.leb_gt in E. lia.
  - intros capacity s Hs.
    destruct (roundtrip _ _ _ _ _ _ (mathProblem_writes (packetOf fresh))
                (mathProblem_reads (packetOf fresh)) Hs) as (s' & Hd & _).
    rewrite (mathProblem_valid_decoded _ Hv) in Hd. eauto.
Qed.

(** Whatever calls a game makes on its manager, for whatever
    players, identifiers start at 1 and stay below the next one to
    give, no two players hold problems with the same identifier, and
    every active problem is well posed with a valid reward. *)
Theorem reachable_sound (w : World Rng) :
  reachable Rng random w -> sound (manager Rng w).
Proof.
  induction 1 as [p g|w w' _ IH Hst].
  - unfold sound, idsBelowNext, distinctIds, newManager.
    cbn [manager activeProblem nextProblemId].
    split; [lia|].
    split; [|split]; intros *; rewrite lookup_empty; discriminate.
  - eapply step_sound; eauto.
Qed.

(** The current problem of a player can be solved over the wire:
    when its identifier is below 65536, the answer packet carrying
    its answer and identifier is decoded by the server into a pair
    that [validateAnswer] accepts. *)
Theorem current_problem_answerable (w : World Rng) p capacity s :
  sound (manager Rng w) ->
  getCurrentProblem Rng w = (Some p, w) ->
  problemId p < 65536 ->
  MathAnswerPacket.serialize
    {| MathAnswerPacket.answer := answer p;
       MathAnswerPacket.problemId := problemId p |} (alloc capacity)
  = OK (tt, s) ->
  exists d s',
    MathAnswerPacket.deserialize (fromBytes (written s)) = OK (d, s')
    /\ fst (validateAnswer Rng random (MathAnswerPacket.answer d)
                           (MathAnswerPacket.problemId d) w) = true.
Proof.
  intros (_ & _ & _ & Ha) Hc Hlt Hs.
  unfold getCurrentProblem, wbind, getManager, getPlayer, wret in Hc.
  injection Hc as Hc.
  destruct (Ha _ _ Hc) as (Hid & Hwp & _).
  pose proof (ManagerFacts.wellPosed_answer_range p Hwp) as Hr.
  set (d := {| MathAnswerPacket.answer := answer p;
               MathAnswerPacket.problemId := problemId p |}) in *.
  destruct (roundtrip _ _ _ _ _ _ (mathAnswer_writes d) (mathAnswer_reads d) Hs)
    as (s' & Hd & _).
  rewrite (mathAnswer_valid_decoded d) in Hd
    by (unfold Layout.mathAnswerValid; cbn; lia).
  exists d, s'. split; [exact Hd|].
  destruct (validateAnswer Rng random (MathAnswerPacket.answer d)
              (MathAnswerPacket.problemId d) w) as [r w'] eqn:E.
  apply (ManagerFacts.validateAnswer_spec Rng random) in E as [Hiff _].
  cbn [fst]. apply Hiff. exists p. auto.
Qed.

(** A problem numbered 65536 or more cannot be solved over the wire:
    whatever bytes the client sends, the answer packet decoded from
    them is refused and the world stays as it is. *)
Theorem wide_identifier_unanswerable (w : World Rng) p bs d s' :
  getCurrentProblem Rng w = (Some p, w) ->
  65536 <= problemId p ->
  MathAnswerPacket.deserialize (fromBytes bs) = OK (d, s') ->
  validateAnswer Rng random (MathAnswerPacket.answer d)
                 (MathAnswerPacket.problemId d) w = (false, w).
Proof.
  intros Hc Hge Hd.
  unfold getCurrentProblem, wbind, getManager, getPlayer, wret in Hc.
  injection Hc as Hc.
  apply mathAnswer_decoded_range in Hd as [_ Hi].
  unfold validateAnswer, wbind, getManager, getPlayer. rewrite Hc.
  destruct (problemId p =? MathAnswerPacket.problemId d) eqn:E;
    [|reflexivity].
  apply Z.eqb_eq in E. lia.
Qed.

End WithRandom.

Lemma generateProblem_stores_witness :
  exists p w',
    generateProblem nat Samples.counter Samples.world = (p, w')
    /\ getCurrentProblem nat w' = (Some p, w')
    /\ problemId p = 8.
Proof.
  destruct (generateProblem nat Samples.counter Samples.world)
    as [p w'] eqn:E.
  exists p, w'. split; [reflexivity|].
  destruct (generateProblem_stores nat Samples.counter
              ManagerClaims.counter_range Samples.world p w' E)
    as (Hc & Hid & _).
  split; [exact Hc | exact Hid].
Defined.

Lemma generateProblem_reward_witness :
  exists p w',
    generateProblem nat Samples.counter Samples.world = (p, w')
    /\ isConsumable (rewardType p) = true
    /\ 1 <= rewardCount p <= 30.
Proof.
  destruct (generateProblem nat Samples.counter Samples.world)
    as [p w'] eqn:E.
  exists p, w'. split; [reflexivity|].
  destruct (generateProblem_reward nat Samples.counter
              ManagerClaims.counter_range Samples.world p w' E)
    as (_ & Hc & _ & Hr).
  split; [exact Hc | exact Hr].
Defined.

Lemma sample_world_sound : sound (manager nat Samples.world).
Proof.
  unfold sound, idsBelowNext, distinctIds, Samples.world.
  cbn [manager activeProblem nextProblemId].
  split; [lia|]. split; [|split].
  - intros k q Hq. apply lookup_insert_Some in Hq as [[_ <-]|[_ Hq]].
    + cbn. lia.
    + rewrite lookup_empty in Hq. discriminate.
  - intros k1 k2 q1 q2 H1 H2 _.
    apply lookup_insert_Some in H1 as [[<- _]|[_ H1]];
      [|rewrite lookup_empty in H1; discriminate].
    apply lookup_insert_Some in H2 as [[<- _]|[_ H2]];
      [|rewrite lookup_empty in H2; discriminate].
    reflexivity.
  - intros k q Hq. apply lookup_insert_Some in Hq as [[_ <-]|[_ Hq]];
      [|rewrite lookup_empty in Hq; discriminate].
    split; [cbn; lia|]. split.
    + left. exists 3, 4. cbn. repeat split; lia.
    + split; [cbn; auto|].
      unfold rewardTable. cbn [Samples.asked rewardType rewardCount].
      repeat split; try lia; intros; repeat
        match goal with
        | H : _ \/ _ |- _ => destruct H
        end; discriminate.
Qed.

Lemma validateAnswer_rewards_witness :
  exists w',
    validateAnswer nat Samples.counter 7 7 Samples.world = (true, w')
    /\ setCalls (items (player nat w')) = [("gauze", 4)]
    /\ dirtyItems (player nat w') = true
    /\ length (sentPackets (player nat w')) = 1%nat.
Proof.
  destruct (validateAnswer nat Samples.counter 7 7 Samples.world)
    as [r w'] eqn:E.
  assert (Hr : r = true)
    by (apply (f_equal fst) in E; vm_compute in E; congruence).
  subst r. exists w'. split; [reflexivity|].
  destruct (validateAnswer_rewards nat Samples.counter
              ManagerClaims.counter_range Samples.world 7 7 w' E)
    as (active & fresh & amount & Hc & _ & Hg & Hs & _ & _ & Hd & Hp & _).
  apply (f_equal fst) in Hc, Hg.
  vm_compute in Hc. injection Hc as <-.
  vm_compute in Hg. subst amount.
  split; [rewrite Hs; reflexivity|].
  split; [exact Hd|]. rewrite Hp. reflexivity.
Defined.

Lemma validateAnswer_once_witness :
  exists w',
    validateAnswer nat Samples.counter 7 7 Samples.world = (true, w')
    /\ validateAnswer nat Samples.counter 7 7 w' = (false, w').
Proof.
  destruct (validateAnswer nat Samples.counter 7 7 Samples.world)
    as [r w'] eqn:E.
  assert (Hr : r = true)
    by (apply (f_equal fst) in E; vm_compute in E; congruence).
  subst r. exists w'. split; [reflexivity|].
  apply (validateAnswer_once nat Samples.counter
           ManagerClaims.counter_range Samples.world 7 7 w').
  - destruct sample_world_sound as (_ & Hb & _). exact Hb.
  - exact E.
Defined.

Lemma reachable_sound_witness :
  sound (manager nat
           (snd (initializeProblem nat Samples.counter
                   {| manager := newManager;
                      player := player nat Samples.world;
                      rng := 0%nat |}))).
Proof.
  apply (reachable_sound nat Samples.counter ManagerClaims.counter_range).
  eapply reachable_step; [apply reachable_new | apply step_initialize].
Defined.

Lemma initializeProblem_delivers_witness :
  exists fresh w',
    getCurrentProblem nat w' = (Some fresh, w')
    /\ sentPackets (player nat w') = [packetOf fresh].
Proof.
  destruct (initializeProblem nat Samples.counter Samples.world)
    as [u w'] eqn:E.
  destruct (initializeProblem_delivers nat Samples.counter
              ManagerClaims.counter_range Samples.world u w')
    as (fresh & Hc & Hs & _).
  - cbn. lia.
  - exact E.
  - exists fresh, w'. split; [exact Hc | exact Hs].
Defined.

Lemma current_problem_answerable_witness :
  exists s d s',
    MathAnswerPacket.serialize
      {| MathAnswerPacket.answer := 7; MathAnswerPacket.problemId := 7 |}
      (alloc 4) = OK (tt, s)
    /\ MathAnswerPacket.deserialize (fromBytes (written s)) = OK (d, s')
    /\ fst (validateAnswer nat Samples.counter (MathAnswerPacket.answer d)
              (MathAnswerPacket.problemId d) Samples.world) = true.
Proof.
  destruct (MathAnswerPacket.serialize
              {| MathAnswerPacket.answer := 7;
                 MathAnswerPacket.problemId := 7 |} (alloc 4))
    as [[[] s]|e] eqn:E; [|vm_compute in E; discriminate E].
  exists s.
  destruct (current_problem_answerable nat Samples.counter Samples.world
              Samples.asked 4%nat s sample_world_sound)
    as (d & s' & Hd & Hv).
  - reflexivity.
  - cbn. lia.
  - exact E.
  - exists d, s'. split; [reflexivity|]. split; [exact Hd | exact Hv].
Defined.

Lemma wide_identifier_unanswerable_witness :
  let p := {| problem := "3 + 4"; answer := 7; rewardType := "gauze";
              rewardCount := 3; problemId := 65543 |} in
  let w := {| manager := {| activeProblem := <[4 := p]> empty;
                            nextProblemId := 65544 |};
              player := player nat Samples.world;
              rng := 0%nat |} in
  validateAnswer nat Samples.counter 7 7 w = (false, w).
Proof.
  intros p w.
  destruct (MathAnswerPacket.deserialize (fromBytes [x00; x07; x00; x07]))
    as [[d s']|e] eqn:E; [|vm_compute in E; discriminate E].
  assert (Hd : d = {| MathAnswerPacket.answer := 7;
                      MathAnswerPacket.problemId := 7 |})
    by (vm_compute in E; congruence).
  pose proof (wide_identifier_unanswerable nat Samples.counter w p
                [x00; x07; x00; x07] d s') as H.
  rewrite Hd in H. apply H.
  - reflexivity.
  - cbn. lia.
  - rewrite <- Hd. exact E.
Defined.

Lemma removeProblem_clears_witness :
  let w' := snd (removeProblem nat Samples.world) in
  getCurrentProblem nat w' = (None, w')
  /\ validateAnswer nat Samples.counter 7 7 w' = (false, w').
Proof.
  intros w'.
  destruct (removeProblem_clears nat Samples.counter Samples.world)
    as (Hc & Hv & _).
  split; [exact Hc | exact (Hv 7 7)].
Defined.

End ManagerEffects.

(** ** Subsequences *)

Section SubsequenceFacts.

Lemma subsequence_refl {A} (l : list A) : subsequence l l.
Proof.
  induction l; [apply subsequence_nil | now apply subsequence_keep].
Qed.

Lemma subsequence_length {A} (a b : list A) :
  subsequence a b -> (length a <= length b)%nat.
Proof. induction 1; simpl; lia. Qed.

Lemma subsequence_trans {A} (a b c : list A) :
  subsequence a b -> subsequence b c -> subsequence a c.
Proof.
  intros Hab Hbc. revert a Hab.
  induction Hbc as [|x b c Hbc IH|x b c Hbc IH]; intros a Hab.
  - exact Hab.
  - apply subsequence_drop. auto.
  - inversion Hab as [|y a' b' Ha|y a' b' Ha]; subst.
    + apply subsequence_drop. auto.
    + apply subsequence_keep. auto.
Qed.

Lemma subsequence_suffix {A} (pre l : list A) : subsequence l (pre ++ l).
Proof.
  induction pre as [|x pre IH]; [apply subsequence_refl|].
  cbn [app]. now apply subsequence_drop.
Qed.

Lemma subsequence_prefix {A} (l post : list A) : subsequence l (l ++ post).
Proof.
  induction l as [|x l IH]; cbn [app].
  - induction post; [apply subsequence_nil | now apply subsequence_drop].
  - now apply subsequence_keep.
Qed.

End SubsequenceFacts.

(** ** Sanitizing only removes *)

Module SanitizeEffects.

Import Sanitize NameSpec.
#[local] Open Scope char_scope.

Lemma afterGt_subsequence s r : afterGt s = Some r -> subsequence r s.
Proof.
  revert r. induction s as [|c t IH]; cbn [afterGt]; intros r; [discriminate|].
  destruct (Ascii.eqb c ">").
  - intros [= ->]. apply subsequence_drop, subsequence_refl.
  - intros H. apply subsequence_drop. auto.
Qed.

Lemma matchTag_subsequence s r : matchTag s = Some r -> subsequence r s.
Proof.
  destruct s as [|c [|d t]]; cbn [matchTag]; try discriminate.
  destruct (Ascii.eqb c "<" && negb (Ascii.eqb d ">")); [|discriminate].
  intros H. now apply subsequence_drop, subsequence_drop, afterGt_subsequence.
Qed.

Lemma stripTagsFrom_subsequence n s : subsequence (stripTagsFrom n s) s.
Proof.
  revert s. induction n as [|n IH]; intros s; cbn [stripTagsFrom].
  - apply subsequence_refl.
  - destruct (matchTag s) as [rest|] eqn:E.
    + eapply subsequence_trans; [apply IH|].
      now apply matchTag_subsequence.
    + destruct s as [|c r]; [apply subsequence_nil|].
      apply subsequence_keep, IH.
Qed.

Lemma trim_subsequence s : subsequence (trim s) s.
Proof.
  unfold trim.
  destruct (SanitizeFacts.trimEnd_prefix (trimStart s)) as [post Hpost].
  destruct (SanitizeFacts.trimStart_suffix s) as [pre Hpre].
  pose proof (subsequence_prefix (trimEnd (trimStart s)) post) as H1.
  pose proof (subsequence_suffix pre (trimStart s)) as H2.
  rewrite <- Hpost in H1. rewrite <- Hpre in H2.
  exact (subsequence_trans _ _ _ H1 H2).
Qed.

Lemma length_list_ascii_of_string s :
  length (list_ascii_of_string s) = String.length s.
Proof. induction s; simpl; congruence. Qed.

Lemma sanitize_subsequence name :
  subsequence (list_ascii_of_string (sanitize name))
              (list_ascii_of_string name).
Proof.
  unfold sanitize. rewrite list_ascii_of_string_of_list_ascii.
  eapply subsequence_trans; [apply trim_subsequence|].
  apply stripTagsFrom_subsequence.
Qed.

Lemma sanitize_length name :
  (String.length (sanitize name) <= String.length name)%nat.
Proof.
  pose proof (subsequence_length _ _ (sanitize_subsequence name)) as H.
  now rewrite !length_list_ascii_of_string in H.
Qed.

Lemma sanitize_idempotent name : sanitize (sanitize name) = sanitize name.
Proof. apply SanitizeFacts.sanitize_id, SanitizeFacts.sanitize_clean. Qed.

(** Sanitizing a name only takes characters out of it: what is left
    is a subsequence of the name, so it is never longer; and it does
    all its work at once, a sanitized name being left as it is. *)
Theorem sanitize_only_removes (name : string) :
  subsequence (list_ascii_of_string (sanitize name))
              (list_ascii_of_string name)
  /\ (String.length (sanitize name) <= String.length name)%nat
  /\ sanitize (sanitize name) = sanitize name.
Proof.
  split; [apply sanitize_subsequence|].
  split; [apply sanitize_length | apply sanitize_idempotent].
Qed.

End SanitizeEffects.

(** ** The math packets: sizes, capacity and unambiguous decoding *)

Section PacketEffects.

Import MathProblemPacket MathAnswerPacket MathFeedbackPacket.

(** A writer of the bytes [bs] succeeds on a fresh buffer exactly
    when the buffer can hold them. *)
Lemma writes_capacity m bs capacity :
  writes m bs ->
  ((length bs <= capacity)%nat ->
   exists s, m (alloc capacity) = OK (tt, s) /\ written s = bs)
  /\ ((capacity < length bs)%nat -> m (alloc capacity) = Err CapacityExceeded).
Proof.
  intros H. split.
  - now apply writes_fits.
  - intros Hlt. specialize (H _ (wf_alloc capacity)).
    rewrite length_buffer_alloc in H. cbn [index alloc] in H.
    destruct (0 + length bs <=? capacity)%nat eqn:E; [|exact H].
    apply Nat.leb_le in E. lia.
Qed.

Lemma length_encString32 s :
  length (encString 32 s) = (1 + Nat.min 32 (String.length s))%nat.
Proof.
  unfold encString, cut.
  rewrite length_app, length_encodeBE, length_firstn,
    length_list_byte_of_string.
  reflexivity.
Qed.

Lemma length_mathProblem d :
  length (Layout.mathProblem d) = Sizes.mathProblem d.
Proof.
  unfold Layout.mathProblem, Sizes.mathProblem.
  rewrite !length_app, !length_encString32, !length_encodeBE. lia.
Qed.

Lemma length_mathAnswer d : length (Layout.mathAnswer d) = Sizes.mathAnswer.
Proof.
  unfold Layout.mathAnswer. now rewrite length_app, !length_encodeBE.
Qed.

Lemma length_mathFeedback d :
  length (Layout.mathFeedback d) = Sizes.mathFeedback d.
Proof.
  unfold Layout.mathFeedback, Sizes.mathFeedback.
  rewrite !length_app, !length_encodeBE.
  destruct (xpEarned d), (totalXP d); cbn [encOpt isSome length];
    rewrite ?length_encodeBE; lia.
Qed.

(** Each math packet needs a buffer of its size and no more: the
    serializer succeeds on a fresh buffer exactly when the capacity
    reaches the size of the payload, writing that many bytes, and
    fails with CapacityExceeded below it.  A challenge takes 5 to 69
    bytes, an answer 4, a feedback 3 to 9. *)
Theorem math_packets_capacity :
  (forall d capacity,
      ((Sizes.mathProblem d <= capacity)%nat ->
       exists s, MathProblemPacket.serialize d (alloc capacity) = OK (tt, s)
                 /\ length (written s) = Sizes.mathProblem d)
      /\ ((capacity < Sizes.mathProblem d)%nat ->
          MathProblemPacket.serialize d (alloc capacity)
          = Err CapacityExceeded)
      /\ (5 <= Sizes.mathProblem d <= 69)%nat)
  /\ (forall d capacity,
        ((4 <= capacity)%nat ->
         exists s, MathAnswerPacket.serialize d (alloc capacity) = OK (tt, s)
                   /\ length (written s) = 4%nat)
        /\ ((capacity < 4)%nat ->
            MathAnswerPacket.serialize d (alloc capacity)
            = Err CapacityExceeded))
  /\ (forall d capacity,
        ((Sizes.mathFeedback d <= capacity)%nat ->
         exists s, MathFeedbackPacket.serialize d (alloc capacity) = OK (tt, s)
                   /\ length (written s) = Sizes.mathFeedback d)
        /\ ((capacity < Sizes.mathFeedback d)%nat ->
            MathFeedbackPacket.serialize d (alloc capacity)
            = Err CapacityExceeded)
        /\ (3 <= Sizes.mathFeedback d <= 9)%nat).
Proof.
  split; [|split].
  - intros d capacity.
    destruct (writes_capacity _ _ capacity (mathProblem_writes d)) as [Hok Herr].
    rewrite length_mathProblem in Hok, Herr.
    split; [|split].
    + intros Hc. destruct (Hok Hc) as (s & Hs & Hw).
      exists s. split; [exact Hs|]. now rewrite Hw, length_mathProblem.
    + exact Herr.
    + unfold Sizes.mathProblem. lia.
  - intros d capacity.
    destruct (writes_capacity _ _ capacity (mathAnswer_writes d)) as [Hok Herr].
    rewrite length_mathAnswer in Hok, Herr.
    split.
    + intros Hc. destruct (Hok Hc) as (s & Hs & Hw).
      exists s. split; [exact Hs|]. now rewrite Hw, length_mathAnswer.
    + exact Herr.
  - intros d capacity.
    destruct (writes_capacity _ _ capacity (mathFeedback_writes d)) as [Hok Herr].
    rewrite length_mathFeedback in Hok, Herr.
    split; [|split].
    + intros Hc. destruct (Hok Hc) as (s & Hs & Hw).
      exists s. split; [exact Hs|]. now rewrite Hw, length_mathFeedback.
    + exact Herr.
    + unfold Sizes.mathFeedback.
      destruct (isSome (xpEarned d)), (isSome (totalXP d)); lia.
Qed.

(** What a reader returns is determined by the bytes it consumes. *)
Lemma reads_unique {A} (de : M A) bs1 bs2 rest a1 a2 :
  reads de bs1 a1 -> reads de bs2 a2 -> bs2 = bs1 ++ rest ->
  a1 = a2 /\ length bs1 = length bs2.
Proof.
  intros H1 H2 E.
  destruct (H1 (fromBytes bs2) rest (wf_fromBytes bs2) E) as (s1 & Hs1 & _ & Hi1).
  destruct (reads_fromBytes _ _ _ H2) as (s2 & Hs2 & _ & Hi2).
  rewrite Hs1 in Hs2. injection Hs2 as -> ->.
  cbn [index fromBytes] in Hi1. split; [reflexivity | lia].
Qed.

Lemma serialized_unique {A} (ser : A -> M unit) (de : M A)
    (layout : A -> list byte) d1 d2 c1 c2 s1 s2 rest :
  (forall d, writes (ser d) (layout d)) ->
  reads de (layout d1) d1 -> reads de (layout d2) d2 ->
  ser d1 (alloc c1) = OK (tt, s1) -> ser d2 (alloc c2) = OK (tt, s2) ->
  written s2 = written s1 ++ rest ->
  d1 = d2 /\ rest = [].
Proof.
  intros Hw Hr1 Hr2 Hs1 Hs2 E.
  destruct (writes_alloc _ _ _ _ (Hw d1) Hs1) as (W1 & _).
  destruct (writes_alloc _ _ _ _ (Hw d2) Hs2) as (W2 & _).
  cbn [snd] in W1, W2. rewrite W1, W2 in E.
  destruct (reads_unique de _ _ rest d1 d2 Hr1 Hr2 E) as [Hd Hl].
  split; [exact Hd|].
  rewrite E, length_app in Hl. destruct rest; [reflexivity | simpl in Hl; lia].
Qed.

(** The math packets are unambiguous on the wire: when the bytes of
    one valid payload begin with the bytes of another, the two
    payloads are the same and nothing follows; so two different
    payloads never share their bytes, nor is one a beginning of the
    other. *)
Theorem math_packets_unambiguous :
  (forall d1 d2 c1 c2 s1 s2 rest,
      Layout.mathProblemValid d1 -> Layout.mathProblemValid d2 ->
      MathProblemPacket.serialize d1 (alloc c1) = OK (tt, s1) ->
      MathProblemPacket.serialize d2 (alloc c2) = OK (tt, s2) ->
      written s2 = written s1 ++ rest -> d1 = d2 /\ rest = [])
  /\ (forall d1 d2 c1 c2 s1 s2 rest,
        Layout.mathAnswerValid d1 -> Layout.mathAnswerValid d2 ->
        MathAnswerPacket.serialize d1 (alloc c1) = OK (tt, s1) ->
        MathAnswerPacket.serialize d2 (alloc c2) = OK (tt, s2) ->
        written s2 = written s1 ++ rest -> d1 = d2 /\ rest = [])
  /\ (forall d1 d2 c1 c2 s1 s2 rest,
        Layout.mathFeedbackValid d1 -> Layout.mathFeedbackValid d2 ->
        MathFeedbackPacket.serialize d1 (alloc c1) = OK (tt, s1) ->
        MathFeedbackPacket.serialize d2 (alloc c2) = OK (tt, s2) ->
        written s2 = written s1 ++ rest -> d1 = d2 /\ rest = []).
Proof.
  split; [|split]; intros d1 d2 c1 c2 s1 s2 rest V1 V2 H1 H2 E.
  - eapply (serialized_unique MathProblemPacket.serialize
              MathProblemPacket.deserialize Layout.mathProblem);
      eauto using mathProblem_writes.
    + rewrite <- (mathProblem_valid_decoded d1 V1) at 2.
      apply mathProblem_reads.
    + rewrite <- (mathProblem_valid_decoded d2 V2) at 2.
      apply mathProblem_reads.
  - eapply (serialized_unique MathAnswerPacket.serialize
              MathAnswerPacket.deserialize Layout.mathAnswer);
      eauto using mathAnswer_writes.
    + rewrite <- (mathAnswer_valid_decoded d1 V1) at 2.
      apply mathAnswer_reads.
    + rewrite <- (mathAnswer_valid_decoded d2 V2) at 2.
      apply mathAnswer_reads.
  - eapply (serialized_unique MathFeedbackPacket.serialize
              MathFeedbackPacket.deserialize Layout.mathFeedback);
      eauto using mathFeedback_writes.
    + rewrite <- (mathFeedback_valid_decoded d1 V1) at 2.
      apply mathFeedback_reads.
    + rewrite <- (mathFeedback_valid_decoded d2 V2) at 2.
      apply mathFeedback_reads.
Qed.

Lemma byte_of_Z_of_byte b : byte_of_Z (Z_of_byte b) = b.
Proof.
  unfold byte_of_Z. pose proof (Z_of_byte_range b) as Hb.
  rewrite Z.mod_small by exact Hb. unfold Z_of_byte.
  rewrite N2Z.id, Byte.of_to_N. reflexivity.
Qed.

Lemma byte_of_Z_mod v : byte_of_Z (v mod 256) = byte_of_Z v.
Proof. unfold byte_of_Z. now rewrite Z.mod_mod by lia. Qed.

(** The bytes of an integer depend on it modulo the width only. *)
Lemma encodeBE_congr width a b :
  a mod 256 ^ Z.of_nat width = b mod 256 ^ Z.of_nat width ->
  encodeBE width a = encodeBE width b.
Proof.
  induction width as [|w IH]; intros H; [reflexivity|].
  change (encodeBE (S w) a)
    with (byte_of_Z (a / 256 ^ Z.of_nat w) :: encodeBE w a).
  change (encodeBE (S w) b)
    with (byte_of_Z (b / 256 ^ Z.of_nat w) :: encodeBE w b).
  rewrite pow256_succ in H.
  pose proof (pow256_pos w) as Hp.
  rewrite !(Z.rem_mul_r _ (256 ^ Z.of_nat w) 256) in H by lia.
  pose proof (Z.mod_pos_bound a (256 ^ Z.of_nat w) Hp).
  pose proof (Z.mod_pos_bound b (256 ^ Z.of_nat w) Hp).
  pose proof (Z.mod_pos_bound (a / 256 ^ Z.of_nat w) 256 eq_refl).
  pose proof (Z.mod_pos_bound (b / 256 ^ Z.of_nat w) 256 eq_refl).
  assert (Hhi : (a / 256 ^ Z.of_nat w) mod 256 = (b / 256 ^ Z.of_nat w) mod 256)
    by nia.
  assert (Hlo : a mod 256 ^ Z.of_nat w = b mod 256 ^ Z.of_nat w) by nia.
  rewrite <- (byte_of_Z_mod (a / _)), Hhi, byte_of_Z_mod.
  f_equal. now apply IH.
Qed.

Lemma decodeBE_cons b bs :
  decodeBE (b :: bs) = Z_of_byte b * 256 ^ Z.of_nat (length bs) + decodeBE bs.
Proof.
  unfold decodeBE. cbn [fold_left].
  assert (H : forall l acc,
             fold_left (fun a b => a * 256 + Z_of_byte b) l acc
             = acc * 256 ^ Z.of_nat (length l)
               + fold_left (fun a b => a * 256 + Z_of_byte b) l 0).
  { induction l as [|x l IH]; intros acc.
    - cbn [fold_left length]. change (256 ^ Z.of_nat 0) with 1. lia.
    - cbn [fold_left length]. rewrite (IH (acc * 256 + Z_of_byte x)), (IH (0 * 256 + Z_of_byte x)).
      rewrite pow256_succ. lia. }
  rewrite H. lia.
Qed.

(** Writing the integer read from some bytes gives the bytes back. *)
Lemma encodeBE_decodeBE bs : encodeBE (length bs) (decodeBE bs) = bs.
Proof.
  induction bs as [|b bs IH]; [reflexivity|].
  cbn [length].
  change (encodeBE (S (length bs)) (decodeBE (b :: bs)))
    with (byte_of_Z (decodeBE (b :: bs) / 256 ^ Z.of_nat (length bs))
          :: encodeBE (length bs) (decodeBE (b :: bs))).
  rewrite decodeBE_cons.
  pose proof (decodeBE_range bs) as Hr.
  pose proof (pow256_pos (length bs)) as Hp.
  f_equal.
  - rewrite Z.div_add_l by lia. rewrite Z.div_small by exact Hr.
    rewrite Z.add_0_r. apply byte_of_Z_of_byte.
  - transitivity (encodeBE (length bs) (decodeBE bs)); [|exact IH].
    apply encodeBE_congr.
    rewrite Z.add_comm, Z.mod_add by lia. reflexivity.
Qed.

Lemma encodeBE_wrapInt16 u :
  encodeBE 2 (if u <? 32768 then u else u - 65536) = encodeBE 2 u.
Proof.
  destruct (u <? 32768); [reflexivity|].
  apply encodeBE_congr. change (256 ^ Z.of_nat 2) with 65536.
  replace (u - 65536) with (u + (-1) * 65536) by lia.
  now rewrite Z.mod_add by lia.
Qed.

(** The answer packet is as wide as its decoder is tolerant: any
    four bytes, followed by anything, decode to an answer within the
    signed 16-bit range and an identifier within the unsigned one,
    and the serializer writes for that payload the very four bytes it
    came from. *)
Theorem mathAnswer_decodes_any (bs : list byte) :
  (4 <= length bs)%nat ->
  exists d s' s,
    MathAnswerPacket.deserialize (fromBytes bs) = OK (d, s')
    /\ index s' = 4%nat
    /\ Layout.mathAnswerValid d
    /\ MathAnswerPacket.serialize d (alloc 4) = OK (tt, s)
    /\ written s = firstn 4 bs.
Proof.
  intros Hlen.
  destruct bs as [|b0 [|b1 [|b2 [|b3 rest]]]]; simpl in Hlen; try lia.
  set (u := decodeBE [b0; b1]). set (i := decodeBE [b2; b3]).
  set (d := {| MathAnswerPacket.answer := if u <? 32768 then u else u - 65536;
               MathAnswerPacket.problemId := i |}).
  assert (Hl : Layout.mathAnswer d = [b0; b1; b2; b3]).
  { unfold Layout.mathAnswer, d.
    cbn [MathAnswerPacket.answer MathAnswerPacket.problemId].
    rewrite encodeBE_wrapInt16.
    change 2%nat with (length [b0; b1]) at 1.
    change 2%nat with (length [b2; b3]) at 1.
    unfold u, i. rewrite !encodeBE_decodeBE. reflexivity. }
  destruct (mathAnswer_reads d (fromBytes (b0 :: b1 :: b2 :: b3 :: rest)) rest
              (wf_fromBytes _)) as (s' & Hs & _ & Hi).
  { rewrite Hl. reflexivity. }
  pose proof (mathAnswer_decoded_range _ _ _ Hs) as Hv.
  assert (Hd : Layout.mathAnswerDecoded d = d).
  { unfold Layout.mathAnswerDecoded, d.
    cbn [MathAnswerPacket.answer MathAnswerPacket.problemId].
    pose proof (decodeBE_range [b0; b1]) as Hu.
    pose proof (decodeBE_range [b2; b3]) as Hi'.
    change (256 ^ Z.of_nat (length [b0; b1])) with 65536 in Hu.
    change (256 ^ Z.of_nat (length [b2; b3])) with 65536 in Hi'.
    fold u in Hu. fold i in Hi'.
    rewrite (Z.mod_small i) by lia.
    rewrite wrapInt16_small; [reflexivity|].
    destruct (u <? 32768) eqn:E;
      [apply Z.ltb_lt in E | apply Z.ltb_ge in E]; lia. }
  rewrite Hd in Hs, Hv.
  destruct (writes_fits _ _ 4 (mathAnswer_writes d)) as (s & Hw & Hb).
  { rewrite Hl. simpl. lia. }
  exists d, s', s. split; [exact Hs|].
  split; [rewrite Hi, Hl; reflexivity|].
  split; [exact Hv|]. split; [exact Hw|].
  rewrite Hb, Hl. reflexivity.
Qed.

Lemma math_packets_capacity_witness :
  (exists s, MathProblemPacket.serialize Samples.challenge (alloc 15)
             = OK (tt, s) /\ length (written s) = 15%nat)
  /\ MathProblemPacket.serialize Samples.challenge (alloc 14)
     = Err CapacityExceeded
  /\ MathAnswerPacket.serialize Samples.reply (alloc 3) = Err CapacityExceeded
  /\ MathFeedbackPacket.serialize (Samples.feedback 7) (alloc 4)
     = Err CapacityExceeded.
Proof.
  destruct math_packets_capacity as (Hp & Ha & Hf).
  split; [|split; [|split]].
  - destruct (Hp Samples.challenge 15%nat) as (Hok & _).
    apply Hok. vm_compute. lia.
  - destruct (Hp Samples.challenge 14%nat) as (_ & Herr & _).
    apply Herr. vm_compute. lia.
  - destruct (Ha Samples.reply 3%nat) as (_ & Herr). apply Herr. lia.
  - destruct (Hf (Samples.feedback 7) 4%nat) as (_ & Herr & _).
    apply Herr. vm_compute. lia.
Defined.

Lemma math_packets_unambiguous_witness :
  exists s1 s2 rest,
    MathAnswerPacket.serialize Samples.reply (alloc 4) = OK (tt, s1)
    /\ MathAnswerPacket.serialize Samples.reply (alloc 8) = OK (tt, s2)
    /\ written s2 = written s1 ++ rest
    /\ rest = [].
Proof.
  destruct math_packets_unambiguous as (_ & Ha & _).
  destruct (MathAnswerPacket.serialize Samples.reply (alloc 4))
    as [[[] s1]|e] eqn:E1; [|vm_compute in E1; discriminate E1].
  destruct (MathAnswerPacket.serialize Samples.reply (alloc 8))
    as [[[] s2]|e] eqn:E2; [|vm_compute in E2; discriminate E2].
  assert (Hw : written s2 = written s1 ++ []).
  { pose proof E1 as E1'. pose proof E2 as E2'.
    vm_compute in E1', E2'.
    injection E1' as <-. injection E2' as <-. reflexivity. }
  assert (Hv : Layout.mathAnswerValid Samples.reply)
    by (unfold Layout.mathAnswerValid; cbn; lia).
  exists s1, s2, []. split; [reflexivity|]. split; [reflexivity|].
  split; [exact Hw|].
  exact (proj2 (Ha Samples.reply Samples.reply 4%nat 8%nat s1 s2 []
                   Hv Hv E1 E2 Hw)).
Defined.

Lemma mathAnswer_decodes_any_witness :
  exists d s',
    MathAnswerPacket.deserialize (fromBytes [xff; xf9; x00; x07; x2a])
    = OK (d, s')
    /\ index s' = 4%nat /\ Layout.mathAnswerValid d.
Proof.
  destruct (mathAnswer_decodes_any [xff; xf9; x00; x07; x2a])
    as (d & s' & s & Hd & Hi & Hv & _).
  - simpl. lia.
  - exists d, s'. auto.
Defined.

End PacketEffects.

(** ** The join packet: what the server decoded is stable *)

Section JoinEffects.

Import JoinPacket.

Variables Loots Badges Emotes : Registry.
Variable version : Z.
Variable nameMaxLength : nat.

Lemma at_first_six {A} (e : list (option A)) i :
  (i < 6)%nat ->
  at_ (map (at_ e) (seq 0 6) ++ [None; None]) i = at_ e i.
Proof.
  intros Hi. do 6 (destruct i as [|i]; [reflexivity|]). lia.
Qed.

Lemma first_six_stable {A} (e : list (option A)) :
  map (at_ (map (at_ e) (seq 0 6) ++ [None; None])) (seq 0 6)
  = map (at_ e) (seq 0 6).
Proof. reflexivity. Qed.

Lemma readFromStream_In reg s d s' :
  readFromStream reg s = OK (d, s') -> In d reg.
Proof.
  unfold readFromStream. intros H.
  apply bind_OK in H as (i & s1 & _ & H).
  destruct (nth_error reg (Z.to_nat i)) as [d'|] eqn:E; [|discriminate].
  injection H as <- _. eapply nth_error_In; eauto.
Qed.

Lemma at_setAt {A} i (x : option A) arr j y :
  at_ (setAt i x arr) j = Some y -> x = Some y \/ at_ arr j = Some y.
Proof.
  unfold at_. revert i j. induction arr as [|a arr IH]; intros i j.
  - destruct i; cbn [setAt]; auto.
  - destruct i as [|i]; cbn [setAt].
    + destruct j as [|j]; cbn [nth]; auto.
    + destruct j as [|j]; cbn [nth]; [auto | apply IH].
Qed.

Lemma emoteSlots_member flags range :
  forall arr s arr' s',
    Runs.emoteSlots Emotes flags range arr s arr' s' ->
    (forall j e, at_ arr j = Some e -> In e Emotes) ->
    forall j e, at_ arr' j = Some e -> In e Emotes.
Proof.
  induction range as [|i r IH]; intros arr s arr' s'; cbn [Runs.emoteSlots].
  - intros [-> _] H. exact H.
  - intros (o & s1 & Ho & Hr) H. eapply IH; [exact Hr|].
    unfold Runs.optionally in Ho.
    destruct (flag (4 + i) flags).
    + destruct Ho as (e0 & He0 & ->). intros j e Hj.
      apply at_setAt in Hj as [[= <-]|Hj]; [|eauto].
      eapply readFromStream_In; eauto.
    + destruct Ho as [-> _]. exact H.
Qed.

(** The definitions of a decoded join packet belong to their
    registries, whatever the bytes it was decoded from. *)
Lemma join_decoded_member s r s' :
  deserialize Loots Badges Emotes nameMaxLength s = OK (r, s') ->
  Layout.joinMember Loots Badges Emotes (fields r).
Proof.
  intros H. apply join_run in H.
  destruct H as (flags & s1 & s2 & rawName & s3 & s4 & s5 & s6 & s7
                 & _ & _ & _ & _ & Hk & Hb & _ & _ & He & _).
  split; [eapply readFromStream_In; eauto|]. split.
  - intros b Hbadge. unfold Runs.optionally in Hb.
    destruct (flag 1 flags).
    + destruct Hb as (b' & Hb' & Eb). rewrite Eb in Hbadge.
      injection Hbadge as <-. eapply readFromStream_In; eauto.
    + destruct Hb as [Eb _]. congruence.
  - intros i e _ Hi. eapply emoteSlots_member; [exact He| |exact Hi].
    intros j e'. unfold at_.
    do 8 (destruct j as [|j]; [discriminate|]). destruct j; discriminate.
Qed.

Lemma eight_slots {A} (e : list (option A)) :
  length e = 8%nat -> at_ e 6 = None -> at_ e 7 = None ->
  map (at_ e) (seq 0 6) ++ [None; None] = e.
Proof.
  intros Hl H6 H7.
  do 8 (destruct e as [|? e]; [discriminate Hl|]).
  destruct e; [|discriminate Hl].
  cbn in H6, H7. subst. reflexivity.
Qed.

(** A payload the join decoder returned, from whatever bytes, is
    stable under the round trip in its fields, when its name, its
    token and its student identifier are within the bounds of their
    fields (the decoder accepts longer ones, which the serializer
    cuts): serialized again and decoded, it comes back with the same
    fields, the sanitized name and the eight emote slots included.
    Its protocol version does not come back: the serializer writes
    its own.  So a packet of this serializer, decoded, sent again
    and decoded again is the same payload both times. *)
Theorem join_roundtrip_stable :
  (forall s r s1 capacity s2,
      Layout.contentValid Loots Badges Emotes nameMaxLength ->
      deserialize Loots Badges Emotes nameMaxLength s = OK (r, s1) ->
      (String.length (name (fields r)) <= nameMaxLength)%nat ->
      Layout.fitsIn 256 (authToken (fields r)) ->
      Layout.fitsIn 64 (studentId (fields r)) ->
      serialize Loots Badges Emotes version nameMaxLength (fields r)
                (alloc capacity) = OK (tt, s2) ->
      exists s3,
        deserialize Loots Badges Emotes nameMaxLength (fromBytes (written s2))
        = OK ({| protocolVersion := version mod 65536;
                 fields := fields r |}, s3))
  /\ (forall d capacity s r s1 capacity' s2,
         Layout.contentValid Loots Badges Emotes nameMaxLength ->
         Layout.joinValid Loots Badges Emotes nameMaxLength d ->
         serialize Loots Badges Emotes version nameMaxLength d
                   (alloc capacity) = OK (tt, s) ->
         deserialize Loots Badges Emotes nameMaxLength (fromBytes (written s))
         = OK (r, s1) ->
         serialize Loots Badges Emotes version nameMaxLength (fields r)
                   (alloc capacity') = OK (tt, s2) ->
         exists s3,
           deserialize Loots Badges Emotes nameMaxLength
                       (fromBytes (written s2))
           = OK (r, s3)).
Proof.
  assert (General : forall s r s1 capacity s2,
             Layout.contentValid Loots Badges Emotes nameMaxLength ->
             deserialize Loots Badges Emotes nameMaxLength s = OK (r, s1) ->
             (String.length (name (fields r)) <= nameMaxLength)%nat ->
             Layout.fitsIn 256 (authToken (fields r)) ->
             Layout.fitsIn 64 (studentId (fields r)) ->
             serialize Loots Badges Emotes version nameMaxLength (fields r)
                       (alloc capacity) = OK (tt, s2) ->
             exists s3,
               deserialize Loots Badges Emotes nameMaxLength
                           (fromBytes (written s2))
               = OK ({| protocolVersion := version mod 65536;
                        fields := fields r |}, s3)).
  { intros s r s1 capacity s2 Hc Hd Hname Hauth Hstud Hs2.
    pose proof (join_decoded_member _ _ _ Hd) as Hm.
    destruct (join_deserialize_inv _ _ _ _ _ _ _ Hd)
      as (flags & s1' & raw & _ & _ & _ & _ & _ & Hlen & _ & H6 & H7 & Hraw & _).
    assert (Hv : Layout.joinValid Loots Badges Emotes nameMaxLength (fields r))
      by (repeat split; try apply Hm; assumption).
    destruct (roundtrip _ _ _ _ _ _
                (join_writes Loots Badges Emotes version nameMaxLength
                   (fields r) Hm)
                (join_reads Loots Badges Emotes version nameMaxLength
                   (fields r) Hc Hm) Hs2)
      as (s3 & Hd3 & _).
    exists s3. rewrite Hd3. f_equal. f_equal.
    rewrite (join_valid_decoded Loots Badges Emotes version nameMaxLength
               (fields r) Hv).
    f_equal. rewrite (eight_slots _ Hlen H6 H7).
    rewrite Hraw at 1. rewrite SanitizeEffects.sanitize_idempotent, <- Hraw.
    now destruct (fields r). }
  split; [exact General|].
  intros d capacity s r s1 capacity' s2 Hc Hv Hs Hd Hs2.
  pose proof Hv as (Hm & Hname & Hauth & Hstud).
  destruct (roundtrip _ _ _ _ _ _
              (join_writes Loots Badges Emotes version nameMaxLength d Hm)
              (join_reads Loots Badges Emotes version nameMaxLength d Hc Hm)
              Hs)
    as (s1' & Hd' & _).
  pose proof Hd as Hr. rewrite Hd' in Hr. injection Hr as Hr _.
  rewrite (join_valid_decoded Loots Badges Emotes version nameMaxLength d Hv)
    in Hr.
  destruct (General _ r s1 capacity' s2 Hc Hd) as (s3 & Hd3).
  - rewrite <- Hr. cbn [fields name].
    pose proof (SanitizeEffects.sanitize_length (name d)). lia.
  - rewrite <- Hr. exact Hauth.
  - rewrite <- Hr. exact Hstud.
  - exact Hs2.
  - exists s3. rewrite Hd3. f_equal. f_equal. rewrite <- Hr. reflexivity.
Qed.

End JoinEffects.

Lemma join_roundtrip_stable_witness :
  exists r s1 s2 s3,
    JoinPacket.deserialize Samples.registry Samples.registry
      Samples.registry 16 (fromBytes Samples.markedJoinBytes) = OK (r, s1)
    /\ JoinPacket.protocolVersion r = 1
    /\ JoinPacket.name (JoinPacket.fields r) = "x"%string
    /\ JoinPacket.serialize Samples.registry Samples.registry Samples.registry
         2 16 (JoinPacket.fields r) (alloc 32) = OK (tt, s2)
    /\ JoinPacket.deserialize Samples.registry Samples.registry
         Samples.registry 16 (fromBytes (written s2))
       = OK ({| JoinPacket.protocolVersion := 2;
                JoinPacket.fields := JoinPacket.fields r |}, s3).
Proof.
  destruct (JoinPacket.deserialize Samples.registry Samples.registry
              Samples.registry 16 (fromBytes Samples.markedJoinBytes))
    as [[r s1]|e] eqn:D; [|vm_compute in D; discriminate D].
  pose proof D as D'. vm_compute in D'. injection D' as <- <-.
  match type of D with
  | _ = OK (?r, _) =>
      destruct (JoinPacket.serialize Samples.registry Samples.registry
                  Samples.registry 2 16 (JoinPacket.fields r) (alloc 32))
        as [[[] s2]|e] eqn:E2; [|vm_compute in E2; discriminate E2]
  end.
  destruct (proj1 (join_roundtrip_stable Samples.registry Samples.registry
                     Samples.registry 2 16%nat)
              _ _ _ 32%nat s2 sample_content_valid D) as (s3 & D3).
  - vm_compute. lia.
  - exact I.
  - exact I.
  - exact E2.
  - do 4 eexists.
    split; [exact D|]. split; [reflexivity|]. split; [reflexivity|].
    split; [exact E2 | exact D3].
Defined.

(** ** The server's TimeBack client: XP and requests *)

Module ServerTimeBackFacts.

Import ServerTimeBackAPI.
#[local] Open Scope string_scope.
#[local] Open Scope Z_scope.

Section WithOutside.

Variable Outside : Type.
Variable fetch : Request.t -> Outside -> FetchResult * Outside.
Variable randomPart : Outside -> string * Outside.
Variable dateNow : Outside -> Z * Outside.
Variable isoNow : Outside -> string * Outside.
Variable toLowerCase : string -> string.

Lemma ask_requests {A} (f : Outside -> A * Outside) (w : World Outside) a w' :
  ask Outside f w = (a, w') -> requests Outside w' = requests Outside w.
Proof.
  unfold ask. destruct (f (outside Outside w)) as [a0 o].
  now intros [= _ <-].
Qed.

Lemma generateId_requests (w : World Outside) a w' :
  generateId Outside randomPart w = (a, w') ->
  requests Outside w' = requests Outside w.
Proof.
  unfold generateId, tbind, tret.
  destruct (ask Outside randomPart w) as [x w1] eqn:E1.
  destruct (ask Outside randomPart w1) as [y w2] eqn:E2.
  apply ask_requests in E1, E2. intros [= _ <-]. congruence.
Qed.

Lemma doFetch_requests request (w : World Outside) r w' :
  doFetch Outside fetch request w = (r, w') ->
  requests Outside w' = (requests Outside w ++ [request])%list
  /\ fetch request (outside Outside w) = (r, outside Outside w').
Proof.
  unfold doFetch. destruct (fetch request (outside Outside w)) as [r0 o].
  intros [= <- <-]. auto.
Qed.

(** The Caliper event of a solved problem: one request, to the
    events address, carrying the XP it was given. *)
Lemma trackMathProblemEvent_requests api player problemData xpAwarded
    gameContext (w : World Outside) u w' :
  truthy (authToken player) = true -> truthy (studentId player) = true ->
  trackMathProblemEvent Outside fetch randomPart dateNow isoNow
    api player problemData xpAwarded gameContext w = (u, w') ->
  exists request event,
    requests Outside w' = (requests Outside w ++ [request])%list
    /\ Request.url request = caliperUrl api ++ "/events"
    /\ Request.method request = "POST"
    /\ Request.authorization request = "Bearer " ++ str (authToken player)
    /\ Request.body request = EventBody event
    /\ Extensions.xpEarned (CaliperEvent.extensions event) = xpAwarded
    /\ CaliperEvent.action event
       = (if ProblemData.isCorrect problemData then "Completed"
          else "Submitted")
    /\ CaliperEvent.actorId event = "urn:user:" ++ str (studentId player).
Proof.
  intros Ha Hs. unfold trackMathProblemEvent. rewrite Ha, Hs.
  cbn [negb orb]. unfold tbind, tret.
  destruct (generateId Outside randomPart w) as [id w1] eqn:E1.
  destruct (ask Outside dateNow w1) as [now w2] eqn:E2.
  destruct (ask Outside isoNow w2) as [eventTime w3] eqn:E3.
  match goal with
  | |- context [doFetch Outside fetch ?r w3] =>
      destruct (doFetch Outside fetch r w3) as [resp w4] eqn:E4
  end.
  apply generateId_requests in E1. apply ask_requests in E2, E3.
  apply doFetch_requests in E4 as [E4 _].
  intros [= _ <-]. eexists _, _.
  split; [rewrite E4, E3, E2, E1; reflexivity|].
  cbn. auto 10.
Qed.

(** [submitMathProblemResult] for a player with credentials: the XP
    it returns, the request it makes first, and what follows the
    answer to that request. *)
Lemma submit_effect api player problemData (w : World Outside) xp w' :
  truthy (authToken player) = true -> truthy (studentId player) = true ->
  submitMathProblemResult Outside fetch randomPart dateNow isoNow toLowerCase
    api player problemData w = (xp, w') ->
  xp = (if ProblemData.isCorrect problemData then 6 else 0)
  /\ exists first result metadata response o o' rest,
       requests Outside w' = (requests Outside w ++ first :: rest)%list
       /\ Request.url first
          = baseUrl api ++ "/ims/oneroster/gradebook/v1p2/assessmentResults"
       /\ Request.method first = "POST"
       /\ Request.authorization first = "Bearer " ++ str (authToken player)
       /\ Request.body first = AssessmentBody result
       /\ AssessmentResult.student result = studentId player
       /\ AssessmentResult.score result
          = (if ProblemData.isCorrect problemData then 100 else 0)
       /\ AssessmentResult.metadata result = Some metadata
       /\ Metadata.xp metadata = xp
       /\ fetch first o = (response, o')
       /\ match response with
          | Resolved true _ _ =>
              exists second event,
                rest = [second]
                /\ Request.url second = caliperUrl api ++ "/events"
                /\ Request.authorization second
                   = "Bearer " ++ str (authToken player)
                /\ Request.body second = EventBody event
                /\ Extensions.xpEarned (CaliperEvent.extensions event) = xp
          | _ => rest = []
          end.
Proof.
  intros Ha Hs. unfold submitMathProblemResult. rewrite Ha, Hs.
  cbn [negb orb]. cbv zeta. unfold tbind, tret.
  destruct (ask Outside dateNow w) as [now w1] eqn:E1.
  destruct (generateId Outside randomPart w1) as [sourcedId w2] eqn:E2.
  destruct (ask Outside isoNow w2) as [modified w3] eqn:E3.
  destruct (ask Outside isoNow w3) as [scored w4] eqn:E4.
  match goal with
  | |- context [doFetch Outside fetch ?r w4] =>
      destruct (doFetch Outside fetch r w4) as [response w5] eqn:E5
  end.
  apply ask_requests in E1, E3, E4. apply generateId_requests in E2.
  apply doFetch_requests in E5 as [E5 Hf].
  assert (Hw : requests Outside w4 = requests Outside w) by congruence.
  rewrite Hw in E5. clear E1 E2 E3 E4 Hw.
  assert (Hxp : forall b : bool,
             Qround.Qfloor
               (QArith_base.Qmult (QArith_base.inject_Z 5)
                  (if 1 =? 1
                   then (if b then QArith_base.Qmake 5 4
                         else QArith_base.Qmake 0 1)
                   else (if b then QArith_base.Qmake 1 2
                         else QArith_base.Qmake 0 1)))
             = (if b then 6 else 0))
    by (intros []; reflexivity).
  rewrite Hxp in *.
  destruct response as [[|] status statusText|].
  - cbn [negb]. cbv beta.
    match goal with
    | |- context [trackMathProblemEvent _ _ _ _ _ ?a ?p ?d ?x ?g w5] =>
        destruct (trackMathProblemEvent Outside fetch randomPart dateNow
                    isoNow a p d x g w5) as [u w6] eqn:E6
    end.
    apply trackMathProblemEvent_requests in E6
      as (second & event & R6 & U6 & _ & A6 & B6 & X6 & _); [|assumption..].
    intros [= <- <-]. split; [reflexivity|].
    eexists _, _, _, _, _, _, [second].
    split; [rewrite R6, E5, <- app_assoc; reflexivity|].
    do 8 (split; [reflexivity|]). split; [exact Hf|].
    exists second, event. auto 10.
  - cbn [negb]. cbv beta. intros [= <- <-]. split; [reflexivity|].
    eexists _, _, _, _, _, _, [].
    split; [rewrite E5; reflexivity|].
    do 8 (split; [reflexivity|]). split; [exact Hf|]. reflexivity.
  - intros [= <- <-]. split; [reflexivity|].
    eexists _, _, _, _, _, _, [].
    split; [rewrite E5; reflexivity|].
    do 8 (split; [reflexivity|]). split; [exact Hf|]. reflexivity.
Qed.

(** The XP of an answer does not depend on the network: a correct
    answer of a player with credentials is worth 6 XP, whether the
    gradebook accepts the submission, refuses it or cannot be
    reached; any other answer is worth none.  The value fits the
    16-bit XP field of the feedback packet.  For a player without
    credentials nothing is asked of the outside and no request is
    made. *)
Theorem submitMathProblemResult_xp api player problemData (w : World Outside) :
  let r := submitMathProblemResult Outside fetch randomPart dateNow isoNow
             toLowerCase api player problemData w in
  fst r = (if truthy (authToken player) && truthy (studentId player)
              && ProblemData.isCorrect problemData
           then 6 else 0)
  /\ 0 <= fst r < 65536
  /\ (truthy (authToken player) && truthy (studentId player) = false ->
      snd r = w).
Proof.
  intros r.
  assert (H : fst r = (if truthy (authToken player)
                          && truthy (studentId player)
                          && ProblemData.isCorrect problemData
                       then 6 else 0)
              /\ (truthy (authToken player) && truthy (studentId player)
                  = false -> snd r = w)).
  { subst r.
    destruct (truthy (authToken player)) eqn:Ha;
      [destruct (truthy (studentId player)) eqn:Hs|].
    - destruct (submitMathProblemResult Outside fetch randomPart dateNow
                  isoNow toLowerCase api player problemData w)
        as [xp w'] eqn:E.
      apply submit_effect in E as [-> _]; [|assumption..].
      cbn [fst andb]. split; [reflexivity | discriminate].
    - unfold submitMathProblemResult. rewrite Ha, Hs. cbn. auto.
    - unfold submitMathProblemResult. rewrite Ha. cbn. auto. }
  destruct H as [Hx Hw]. split; [exact Hx|]. split; [|exact Hw].
  rewrite Hx.
  destruct (truthy (authToken player) && truthy (studentId player)
            && ProblemData.isCorrect problemData); lia.
Qed.

(** What a submission sends.  For a player with credentials the
    first request is the assessment result, posted to the gradebook
    with the player's token, for the player's student identifier,
    scored 100 or 0 and carrying the XP awarded; a Caliper event
    carrying the same XP follows exactly when the gradebook answered
    with success, and nothing else is sent. *)
Theorem submitMathProblemResult_requests api player problemData
    (w : World Outside) xp w' :
  truthy (authToken player) = true -> truthy (studentId player) = true ->
  submitMathProblemResult Outside fetch randomPart dateNow isoNow toLowerCase
    api player problemData w = (xp, w') ->
  exists first result metadata response o o' rest,
    requests Outside w' = (requests Outside w ++ first :: rest)%list
    /\ Request.url first
       = baseUrl api ++ "/ims/oneroster/gradebook/v1p2/assessmentResults"
    /\ Request.method first = "POST"
    /\ Request.authorization first = "Bearer " ++ str (authToken player)
    /\ Request.body first = AssessmentBody result
    /\ AssessmentResult.student result = studentId player
    /\ AssessmentResult.score result
       = (if ProblemData.isCorrect problemData then 100 else 0)
    /\ AssessmentResult.metadata result = Some metadata
    /\ Metadata.xp metadata = xp
    /\ fetch first o = (response, o')
    /\ match response with
       | Resolved true _ _ =>
           exists second event,
             rest = [second]
             /\ Request.url second = caliperUrl api ++ "/events"
             /\ Request.authorization second
                = "Bearer " ++ str (authToken player)
             /\ Request.body second = EventBody event
             /\ Extensions.xpEarned (CaliperEvent.extensions event) = xp
       | _ => rest = []
       end.
Proof.
  intros Ha Hs H. now destruct (submit_effect _ _ _ _ _ _ Ha Hs H) as [_ He].
Qed.

End WithOutside.

Lemma submitMathProblemResult_xp_witness :
  fst (submitMathProblemResult nat TimeBackSamples.refuse
         TimeBackSamples.randomPart TimeBackSamples.dateNow
         TimeBackSamples.isoNow TimeBackSamples.toLowerCase
         serverTimeBackAPI TimeBackSamples.student TimeBackSamples.solved
         TimeBackSamples.start) = 6
  /\ snd (submitMathProblemResult nat TimeBackSamples.fetch
            TimeBackSamples.randomPart TimeBackSamples.dateNow
            TimeBackSamples.isoNow TimeBackSamples.toLowerCase
            serverTimeBackAPI TimeBackSamples.guest TimeBackSamples.solved
            TimeBackSamples.start) = TimeBackSamples.start.
Proof.
  split.
  - apply (submitMathProblemResult_xp nat TimeBackSamples.refuse
             TimeBackSamples.randomPart TimeBackSamples.dateNow
             TimeBackSamples.isoNow TimeBackSamples.toLowerCase
             serverTimeBackAPI TimeBackSamples.student TimeBackSamples.solved
             TimeBackSamples.start).
  - apply (submitMathProblemResult_xp nat TimeBackSamples.fetch
             TimeBackSamples.randomPart TimeBackSamples.dateNow
             TimeBackSamples.isoNow TimeBackSamples.toLowerCase
             serverTimeBackAPI TimeBackSamples.guest TimeBackSamples.solved
             TimeBackSamples.start).
    reflexivity.
Defined.

Lemma submitMathProblemResult_requests_witness :
  exists xp w',
    submitMathProblemResult nat TimeBackSamples.fetch
      TimeBackSamples.randomPart TimeBackSamples.dateNow
      TimeBackSamples.isoNow TimeBackSamples.toLowerCase
      serverTimeBackAPI TimeBackSamples.student TimeBackSamples.solved
      TimeBackSamples.start = (xp, w')
    /\ exists first rest,
         requests nat w' = first :: rest
         /\ Request.authorization first = "Bearer token".
Proof.
  destruct (submitMathProblemResult nat TimeBackSamples.fetch
              TimeBackSamples.randomPart TimeBackSamples.dateNow
              TimeBackSamples.isoNow TimeBackSamples.toLowerCase
              serverTimeBackAPI TimeBackSamples.student
              TimeBackSamples.solved TimeBackSamples.start)
    as [xp w'] eqn:E.
  exists xp, w'. split; [reflexivity|].
  destruct (submitMathProblemResult_requests nat TimeBackSamples.fetch
              TimeBackSamples.randomPart TimeBackSamples.dateNow
              TimeBackSamples.isoNow TimeBackSamples.toLowerCase
              serverTimeBackAPI TimeBackSamples.student
              TimeBackSamples.solved TimeBackSamples.start xp w'
              eq_refl eq_refl E)
    as (first & _ & _ & _ & _ & _ & rest & Hr & _ & _ & Ha & _).
  exists first, rest. split; [exact Hr | exact Ha].
Defined.

End ServerTimeBackFacts.

(** ** The client's TimeBack user and authentication manager *)

Module AuthFacts.

Import SuroiTimeBackAPI SuroiAuthManager AuthSpec.
#[local] Open Scope string_scope.

Lemma orElse_nonempty a b : b <> EmptyString -> orElse a b <> EmptyString.
Proof.
  intros Hb. unfold orElse. destruct a as [s|]; [|exact Hb].
  destruct (String.eqb s EmptyString) eqn:E; [exact Hb|].
  now apply String.eqb_neq in E.
Qed.

Lemma given_or_missing field : missing field \/ exists s, given field s.
Proof.
  destruct field as [s|]; [|left; now left].
  destruct (String.eqb s EmptyString) eqn:E.
  - apply String.eqb_eq in E. subst. left. now right.
  - apply String.eqb_neq in E. right. exists s. now split.
Qed.

Lemma orElse_given a b s : given a s -> orElse a b = s.
Proof.
  intros [-> Hs]. unfold orElse.
  destruct (String.eqb s EmptyString) eqn:E; [|reflexivity].
  apply String.eqb_eq in E. contradiction.
Qed.

Lemma orElse_missing a b : missing a -> orElse a b = b.
Proof. intros [->| ->]; reflexivity. Qed.

(** The user made from an OIDC user.  There is none exactly when
    the data or its profile is missing.  Otherwise there is one, made
    from the profile field by field: its identifier is the subject;
    its user name and its address are the address of the profile
    when that is given, and the subject and the empty string when it
    is undefined or empty; its given name is the one of the profile
    when given and "Player" when not; its family name is the one of
    the profile or empty; its role is "student".  So the given name
    is never empty, and the user name is empty only when the subject
    is. *)
Theorem createUser_fields (authData : option User) :
  (createUser authData = None <->
   forall user p, authData = Some user -> profile user <> Some p)
  /\ (forall user p,
        authData = Some user -> profile user = Some p ->
        exists u,
          createUser authData = Some u
          /\ SuroiTimeBackUser.sourcedId u = sub p
          /\ SuroiTimeBackUser.role u = "student"
          /\ (forall e, given (email p) e ->
                SuroiTimeBackUser.username u = e
                /\ SuroiTimeBackUser.email u = Some e)
          /\ (missing (email p) ->
              SuroiTimeBackUser.username u = sub p
              /\ SuroiTimeBackUser.email u = Some EmptyString)
          /\ (forall g, given (given_name p) g ->
                SuroiTimeBackUser.givenName u = g)
          /\ (missing (given_name p) ->
              SuroiTimeBackUser.givenName u = "Player")
          /\ (forall f, given (family_name p) f ->
                SuroiTimeBackUser.familyName u = f)
          /\ (missing (family_name p) ->
              SuroiTimeBackUser.familyName u = EmptyString))
  /\ forall u, createUser authData = Some u ->
       SuroiTimeBackUser.givenName u <> EmptyString
       /\ SuroiTimeBackUser.role u = "student"
       /\ (SuroiTimeBackUser.sourcedId u <> EmptyString ->
           SuroiTimeBackUser.username u <> EmptyString)
       /\ SuroiTimeBackUser.email u <> None
       /\ (SuroiTimeBackUser.email u <> Some EmptyString ->
           SuroiTimeBackUser.email u = Some (SuroiTimeBackUser.username u)).
Proof.
  split; [|split].
  - unfold createUser. destruct authData as [user|].
    + destruct (profile user) as [p|] eqn:Ep.
      * split; [discriminate|]. intros H. exfalso.
        exact (H user p eq_refl Ep).
      * split; [|reflexivity]. intros _ user' p [= <-]. congruence.
    + split; [|reflexivity]. intros _ user p [=].
  - intros user p -> Hp. unfold createUser. rewrite Hp.
    eexists. split; [reflexivity|].
    cbn [SuroiTimeBackUser.givenName SuroiTimeBackUser.role
         SuroiTimeBackUser.sourcedId SuroiTimeBackUser.username
         SuroiTimeBackUser.email SuroiTimeBackUser.familyName].
    split; [reflexivity|]. split; [reflexivity|].
    split; [intros e He; now rewrite !(orElse_given _ _ e He)|].
    split; [intros He; now rewrite !(orElse_missing _ _ He)|].
    split; [intros g Hg; now apply orElse_given|].
    split; [intros Hg; now apply orElse_missing|].
    split; [intros f Hf; now apply orElse_given|].
    intros Hf; now apply orElse_missing.
  - unfold createUser. destruct authData as [user|]; [|discriminate].
    destruct (profile user) as [p|] eqn:Ep; [|discriminate].
    intros u [= <-].
    cbn [SuroiTimeBackUser.givenName SuroiTimeBackUser.role
         SuroiTimeBackUser.sourcedId SuroiTimeBackUser.username
         SuroiTimeBackUser.email].
    split; [apply orElse_nonempty; discriminate|].
    split; [reflexivity|].
    split; [apply orElse_nonempty|].
    split; [discriminate|].
    unfold orElse. destruct (email p) as [e|]; [|congruence].
    destruct (String.eqb e EmptyString); congruence.
Qed.

Lemma createUser_fields_witness :
  exists u,
    createUser (Some {| profile := Some {| sub := "s-2"; email := None;
                                           given_name := Some "Ann";
                                           family_name := None |};
                        access_token := "token"; expired := false |})
    = Some u
    /\ SuroiTimeBackUser.givenName u = "Ann"
    /\ SuroiTimeBackUser.username u = "s-2"
    /\ SuroiTimeBackUser.familyName u = EmptyString.
Proof.
  destruct (createUser_fields
              (Some {| profile := Some {| sub := "s-2"; email := None;
                                          given_name := Some "Ann";
                                          family_name := None |};
                       access_token := "token"; expired := false |}))
    as (_ & Hp & _).
  destruct (Hp _ _ eq_refl eq_refl)
    as (u & Hu & _ & _ & _ & He & Hg & _ & _ & Hf).
  exists u. split; [exact Hu|].
  split; [apply (Hg "Ann"); split; [reflexivity | discriminate]|].
  split; [apply He; now left | apply Hf; now left].
Defined.

(** *** Callbacks *)

Lemma indexOf_range x l :
  indexOf x l = (-1)%Z /\ ~ In x l
  \/ (0 <= indexOf x l < Z.of_nat (length l))%Z
     /\ nth_error l (Z.to_nat (indexOf x l)) = Some x
     /\ ~ In x (firstn (Z.to_nat (indexOf x l)) l).
Proof.
  induction l as [|y r IH]; cbn [indexOf]; [left; auto|].
  destruct (Nat.eqb y x) eqn:E.
  - apply Nat.eqb_eq in E. subst y. right. cbn. repeat split; try lia. tauto.
  - apply Nat.eqb_neq in E.
    destruct IH as [[Hi Hn]|(Hr & Hnth & Hpre)].
    + rewrite Hi. cbn. left. split; [reflexivity|]. intros [H|H]; tauto.
    + right. destruct (indexOf x r >? -1)%Z eqn:G; [|lia].
      replace (Z.to_nat (indexOf x r + 1)) with (S (Z.to_nat (indexOf x r)))
        by lia.
      cbn [length nth_error firstn]. repeat split; try lia; [exact Hnth|].
      intros [H|H]; tauto.
Qed.

Lemma count_occ_splice (x c : Callback) l i :
  nth_error l i = Some x ->
  count_occ Nat.eq_dec (firstn i l ++ skipn (i + 1) l) c
  = (count_occ Nat.eq_dec l c - (if Nat.eq_dec x c then 1 else 0))%nat.
Proof.
  revert i. induction l as [|y r IH]; intros i H.
  - destruct i; discriminate.
  - destruct i as [|i].
    + cbn in H. injection H as ->. cbn [firstn skipn app Nat.add count_occ].
      change (skipn 0 r) with r.
      destruct (Nat.eq_dec x c); lia.
    + cbn [nth_error] in H. cbn [firstn skipn app Nat.add count_occ].
      specialize (IH i H). destruct (Nat.eq_dec y c); [|exact IH].
      rewrite IH. destruct (Nat.eq_dec x c); [|lia].
      subst. assert (In c r) by (eapply nth_error_In; eauto).
      pose proof (proj1 (count_occ_In Nat.eq_dec r c) H0). lia.
Qed.

Lemma subsequence_splice {A} (l : list A) i :
  subsequence (firstn i l ++ skipn (i + 1) l) l.
Proof.
  revert i. induction l as [|y r IH]; intros i.
  - destruct i; apply subsequence_nil.
  - destruct i as [|i]; cbn [firstn skipn app Nat.add].
    + change (skipn 0 r) with r. apply subsequence_drop, subsequence_refl.
    + apply subsequence_keep, IH.
Qed.

Lemma subsequence_In {A} (a b : list A) x :
  subsequence a b -> In x a -> In x b.
Proof.
  induction 1 as [|y a b _ IH|y a b _ IH]; cbn [In]; tauto.
Qed.

Lemma removeAuthStateCallback_frame (callback : Callback) (st : State) :
  subsequence (authCallbacks (removeAuthStateCallback callback st))
              (authCallbacks st)
  /\ currentUser (removeAuthStateCallback callback st) = currentUser st
  /\ accessToken (removeAuthStateCallback callback st) = accessToken st
  /\ calls (removeAuthStateCallback callback st) = calls st.
Proof.
  unfold removeAuthStateCallback.
  destruct (indexOf callback (authCallbacks st) >? -1)%Z.
  - cbn [authCallbacks currentUser accessToken calls]. unfold splice1.
    split; [apply subsequence_splice | auto].
  - split; [apply subsequence_refl | auto].
Qed.

Lemma indexOf_first x pre post :
  ~ In x pre ->
  indexOf x (pre ++ x :: post)%list = Z.of_nat (length pre).
Proof.
  induction pre as [|y pre IH]; intros Hn; cbn [app indexOf length].
  - now rewrite Nat.eqb_refl.
  - destruct (Nat.eqb y x) eqn:E.
    + apply Nat.eqb_eq in E. exfalso. apply Hn. now left.
    + rewrite IH by (intros H; apply Hn; now right).
      destruct (Z.gtb_spec (Z.of_nat (length pre)) (-1)); lia.
Qed.

Lemma splice1_at {A} (pre post : list A) x :
  splice1 (Z.of_nat (length pre)) (pre ++ x :: post) = (pre ++ post)%list.
Proof.
  unfold splice1. rewrite Nat2Z.id.
  rewrite firstn_app, Nat.sub_diag, firstn_all. cbn [firstn].
  rewrite app_nil_r. f_equal.
  rewrite skipn_app, skipn_all2 by lia.
  replace (length pre + 1 - length pre)%nat with 1%nat by lia.
  reflexivity.
Qed.

(** The callbacks after a removal, when the callback is registered
    and [pre] are the registrations before its first. *)
Lemma removeAuthStateCallback_first (callback : Callback) (st : State)
    pre post :
  authCallbacks st = (pre ++ callback :: post)%list -> ~ In callback pre ->
  authCallbacks (removeAuthStateCallback callback st) = (pre ++ post)%list.
Proof.
  intros Hl Hn. unfold removeAuthStateCallback.
  rewrite Hl, (indexOf_first callback pre post Hn).
  destruct (Z.gtb_spec (Z.of_nat (length pre)) (-1)); [|lia].
  cbn [authCallbacks]. apply splice1_at.
Qed.

Lemma first_occurrence (x : Callback) l :
  In x l -> exists pre post, l = (pre ++ x :: post)%list /\ ~ In x pre.
Proof.
  induction l as [|y r IH]; [intros []|].
  destruct (Nat.eq_dec y x) as [->|Hne].
  - intros _. exists [], r. split; [reflexivity | intros []].
  - intros [H|H]; [contradiction|].
    destruct (IH H) as (pre & post & -> & Hn).
    exists (y :: pre), post. split; [reflexivity|].
    intros [E|E]; [contradiction | now apply Hn].
Qed.

(** [removeAuthStateCallback] takes out the first registration of the
    callback and nothing else.  When the callback is not registered
    the manager stays as it is.  When it is, and [pre] are the
    registrations before its first one and [post] those after,
    the callbacks become [pre] followed by [post]: later
    registrations of the same callback stay, so that a callback
    registered twice is still registered after one removal, and the
    others keep their places.  The callback loses one occurrence,
    the others none; the user, the token and the calls made stay. *)
Theorem removeAuthStateCallback_once (callback : Callback) (st : State) :
  let st' := removeAuthStateCallback callback st in
  (~ In callback (authCallbacks st) -> st' = st)
  /\ (forall pre post,
        authCallbacks st = (pre ++ callback :: post)%list ->
        ~ In callback pre ->
        authCallbacks st' = (pre ++ post)%list)
  /\ (In callback (authCallbacks st) ->
      exists pre post,
        authCallbacks st = (pre ++ callback :: post)%list
        /\ ~ In callback pre
        /\ authCallbacks st' = (pre ++ post)%list)
  /\ (forall c,
        count_occ Nat.eq_dec (authCallbacks st') c
        = (count_occ Nat.eq_dec (authCallbacks st) c
           - (if Nat.eq_dec callback c then 1 else 0))%nat)
  /\ subsequence (authCallbacks st') (authCallbacks st)
  /\ currentUser st' = currentUser st
  /\ accessToken st' = accessToken st
  /\ calls st' = calls st.
Proof.
  intros st'. subst st'.
  split; [|split; [|split]].
  - intros Hn. unfold removeAuthStateCallback.
    destruct (indexOf_range callback (authCallbacks st))
      as [[Hi _]|(_ & Hnth & _)].
    + now rewrite Hi.
    + exfalso. apply Hn. eapply nth_error_In; eauto.
  - intros pre post. apply removeAuthStateCallback_first.
  - intros Hin.
    destruct (first_occurrence callback _ Hin) as (pre & post & Hl & Hn).
    exists pre, post. split; [exact Hl|]. split; [exact Hn|].
    now apply removeAuthStateCallback_first.
  - unfold removeAuthStateCallback.
    destruct (indexOf_range callback (authCallbacks st))
      as [[Hi Hn]|(Hr & Hnth & _)].
    + rewrite Hi. cbn. split; [|split; [apply subsequence_refl|auto]].
      intros c. destruct (Nat.eq_dec callback c) as [<-|]; [|lia].
      rewrite (proj1 (count_occ_not_In Nat.eq_dec _ _) Hn). reflexivity.
    + destruct (indexOf callback (authCallbacks st) >? -1)%Z eqn:G; [|lia].
      cbn [authCallbacks currentUser accessToken calls]. unfold splice1.
      split; [|split; [apply subsequence_splice|auto]].
      intros c. now apply count_occ_splice.
Qed.

Lemma removeAuthStateCallback_once_witness :
  authCallbacks
    (removeAuthStateCallback 1%nat
       {| currentUser := None; authCallbacks := [2; 1; 3; 1]%nat;
          accessToken := None; calls := [] |})
  = [2; 3; 1]%nat.
Proof.
  destruct (removeAuthStateCallback_once 1%nat
              {| currentUser := None; authCallbacks := [2; 1; 3; 1]%nat;
                 accessToken := None; calls := [] |}) as (_ & Hf & _).
  apply (Hf [2%nat] [3; 1]%nat).
  - reflexivity.
  - cbn. intros [H|[]]. discriminate H.
Defined.

Lemma lastCall_app callback l1 l2 :
  lastCall callback (l1 ++ l2)
  = match lastCall callback l2 with
    | Some later => Some later
    | None => lastCall callback l1
    end.
Proof.
  induction l1 as [|[c u] r IH]; cbn [app lastCall].
  - now destruct (lastCall callback l2).
  - rewrite IH. destruct (lastCall callback l2); [reflexivity|].
    reflexivity.
Qed.

Lemma lastCall_notifyAll callback callbacks user :
  lastCall callback (notifyAll callbacks user)
  = if in_dec Nat.eq_dec callback callbacks then Some user else None.
Proof.
  induction callbacks as [|c r IH]; [reflexivity|].
  cbn [notifyAll map lastCall]. fold (notifyAll r user). rewrite IH.
  destruct (in_dec Nat.eq_dec callback r) as [Hr|Hr].
  - destruct (in_dec Nat.eq_dec callback (c :: r)) as [|Hn];
      [reflexivity | exfalso; apply Hn; now right].
  - destruct (Nat.eqb c callback) eqn:E.
    + apply Nat.eqb_eq in E.
      destruct (in_dec Nat.eq_dec callback (c :: r)) as [|Hn];
        [reflexivity | exfalso; apply Hn; now left].
    + apply Nat.eqb_neq in E.
      destruct (in_dec Nat.eq_dec callback (c :: r)) as [[H|H]|Hn];
        [congruence | contradiction | reflexivity].
Qed.

Lemma step_informed st st' : informed st -> step st st' -> informed st'.
Proof.
  intros [Hc Ht] Hst. revert Hc Ht.
  destruct Hst as [user st|st|callback st|callback st]; intros Hc Ht.
  - split.
    + intros c Hin. unfold handleUserAuthenticated in *.
      cbn [forEachCallback setAccessToken setCurrentUser authCallbacks calls
           currentUser] in *.
      rewrite lastCall_app, lastCall_notifyAll.
      destruct (in_dec Nat.eq_dec c (authCallbacks st)); [reflexivity|].
      contradiction.
    + cbn. discriminate.
  - split.
    + intros c Hin. unfold handleUserSignedOut in *.
      cbn [forEachCallback setAccessToken setCurrentUser authCallbacks calls
           currentUser] in *.
      rewrite lastCall_app, lastCall_notifyAll.
      destruct (in_dec Nat.eq_dec c (authCallbacks st)); [reflexivity|].
      contradiction.
    + cbn. congruence.
  - split.
    + intros c Hin. cbn [onAuthStateChanged authCallbacks calls
                         currentUser] in *.
      rewrite lastCall_app. cbn [lastCall].
      destruct (Nat.eqb callback c) eqn:E; [reflexivity|].
      apply Nat.eqb_neq in E. apply in_app_or in Hin as [Hin|[Hin|[]]].
      * now apply Hc.
      * congruence.
    + exact Ht.
  - destruct (removeAuthStateCallback_frame callback st) as (Hs & Hu & Hk & Hl).
    split.
    + intros c Hin. rewrite Hl, Hu. apply Hc.
      eapply subsequence_In; eauto.
    + rewrite Hu, Hk. exact Ht.
Qed.

(** Whatever the OIDC library reports and whatever callbacks the
    client registers or removes, every registered callback has been
    told of the current user by its latest call, and the manager
    reports a user only once the API instance has been given a
    token. *)
Theorem reachable_informed (st : State) : reachable st -> informed st.
Proof.
  induction 1 as [|st st' _ IH Hst].
  - split; [intros c []|]. cbn. congruence.
  - eapply step_informed; eauto.
Qed.

Lemma reachable_informed_witness :
  lastCall 7%nat
    (calls (handleUserSignedOut (onAuthStateChanged 7%nat new)))
  = Some None.
Proof.
  destruct (reachable_informed
              (handleUserSignedOut (onAuthStateChanged 7%nat new)))
    as [Hc _].
  - eapply reachable_step; [|apply step_signedOut].
    eapply reachable_step; [apply reachable_new | apply step_registered].
  - apply (Hc 7%nat). cbn. auto.
Defined.

End AuthFacts.
